(** * pa-mixer-mk3: the live-state synchronisation core, embedded in Rocq

    The development follows [pa-mixer-mk3.py]: the configuration object
    [Conf], the menu item [PAMixerMenuItem] with its volume, mute and port
    accessors, and the menu [PAMixerMenu] with its refresh pass ([update]),
    the exclusive-access scope ([update_wakeup]), the parameter matcher
    ([apply_stream_params]) and the navigation primitives.

    Modelling decisions, in one place:
    - Python floats are exact rationals ([Q]); equality of volumes is [==].
    - Python objects that are shared and mutated (menu items) live in a
      heap, a list indexed by allocation order; a reference is an index.
    - A method is a function from the world to an outcome and a new world.
      An outcome is a value, a raised exception, or [Blocked] for a thread
      that waits on a lock nobody will release.
    - The listener thread and the audio server are the environment: the
      world records what the server would enumerate and, for every timed
      lock acquisition, whether the listener gives the lock up in time. *)

From Stdlib Require Import QArith Qminmax Qround Lia Lqa Ascii.
From stdpp Require Import gmap strings list pretty sorting relations.

(** ** Exceptions and outcomes *)

Inductive exn : Type :=
  | KeyError (key : string)
  | ValueError (val : string)
  | NameError (name : string)
  | RuntimeError (msg : string)
  | ZeroDivisionError
  | PAMixerInvalidAction (msg : string)
  | OtherError (msg : string).

Inductive outcome (A : Type) : Type :=
  | Ok (a : A)
  | Raise (e : exn)
  | Blocked.
Arguments Ok {A} a.
Arguments Raise {A} e.
Arguments Blocked {A}.

(** ** Configuration: class [Conf] *)

(** A compiled regular expression, for the fragment of Python's [re] that
    the matcher's patterns are written in. *)
Inductive regex : Type :=
  | Lit (s : string)          (* re.escape(s): the characters of s, literally *)
  | AnyChar                   (* .  any character but a newline *)
  | Bol                       (* ^  start of the string *)
  | Eol                       (* $  end of the string, or before a final newline *)
  | Seq (r1 r2 : regex)
  | Alt (r1 r2 : regex)
  | Star (r : regex).

(** One entry of a [stream_params] section, as [update_conf_from_file]
    builds them: [('match', k, compiled)] or [('set', k, v)].  [Other]
    stands for a tuple with any other tag, which the matcher rejects. *)
Inductive check : Type :=
  | Match (k : string) (v : regex)
  | Set_ (k v : string)
  | Other (t k v : string).

Record Conf : Type := mkConf {
  max_volume : Q;
  min_volume : Q;
  focus_default : string;
  stream_params : option (list (string * list check));
  dump_stream_params : bool
}.

Definition Conf_default : Conf :=
  {| max_volume := 1; min_volume := 1 # 100;
     focus_default := "first"; stream_params := None;
     dump_stream_params := false |}.

(** ** Server objects and menu items *)

(** What [pulse.sink_list()] and [pulse.sink_input_list()] return: the
    fields of a pulsectl info object that the mixer reads or writes. *)
Record PulseObj : Type := mkPulseObj {
  index : N;
  obj_name : string;                 (* obj.name *)
  proplist : gmap string string;
  value_flat : Q;                    (* obj.volume.value_flat *)
  mute : Z;
  active_port : option string
}.

(** The instance attributes of [PAMixerMenuItem] ([menu] and [conf] are
    the world itself). *)
Record Item : Type := mkItem {
  t : string;
  uid : string;
  obj : PulseObj;
  hidden : bool;
  created_ts : Q;
  name : string
}.

Definition PulseObj_dummy : PulseObj :=
  mkPulseObj 0 "" ∅ 0 0 None.

#[global] Instance Item_inhabited : Inhabited Item :=
  populate (mkItem "" "" PulseObj_dummy false 0 "").

Inductive log_entry : Type :=
  | LogDebug (msg : string)
  | LogInfo (msg : string)
  | LogError (msg : string)
  | PPrint (uid name : string).      (* pprint(dump, sys.stderr) *)

(** Calls made on the pulsectl client, in order. *)
Inductive pulse_call : Type :=
  | EventListenStop
  | SinkList
  | SinkInputList
  | VolumeSetAllChans (o : PulseObj) (vol : Q)
  | MuteCall (o : PulseObj) (m : Z).

(** ** The environment *)

(** Everything the modelled code cannot decide by itself. *)
Record Env : Type := mkEnv {
  (* whether the listener gives up [_pulse_lock] within the timeout of the
     n-th timed acquisition by the foreground *)
  poller_yields : nat → bool;
  (* the n-th value returned by time.monotonic() *)
  monotonic : nat → Q;
  (* uid_str() at the n-th automatic seed *)
  uid_str : nat → string;
  (* _get_name_descriptive(): from the item type, the object and the seed
     counter to a name or an exception, and the new seed counter *)
  name_descriptive : Conf → string → PulseObj → nat → (exn + string) * nat;
  (* float(v) on a string, None for ValueError *)
  py_float : string → option Q;
  (* the exception, if any, that pulsectl raises from the n-th call made on
     the client *)
  pulse_error : nat → option exn
}.

(** ** The world: [PAMixerMenu], its items, and the process around it *)

Record World : Type := mkWorld {
  env : Env;
  globals : list string;             (* names bound in the module namespace *)
  conf : Conf;
  fatal : bool;
  heap : list Item;                  (* every PAMixerMenuItem ever built *)
  item_objs : list (string * nat);   (* OrderedDict: uid -> item reference *)
  items : list nat;
  _update_lock : bool;
  _update_signal : bool;
  _pulse_hold : bool;                (* held by the foreground thread *)
  _pulse_lock : bool;                (* held by the foreground thread *)
  sink_list : list PulseObj;         (* what the server enumerates now *)
  sink_input_list : list PulseObj;
  acquires : nat;                    (* timed acquisitions so far *)
  lock_wait : Q;                     (* seconds spent in them, at most *)
  clock_reads : nat;
  seeds : nat;
  log : list log_entry;
  pulse_calls : list pulse_call
}.

Definition set_heap (x : list Item) (w : World) : World :=
  mkWorld (env w) (globals w) (conf w) (fatal w) x (item_objs w) (items w)
    (_update_lock w) (_update_signal w) (_pulse_hold w) (_pulse_lock w)
    (sink_list w) (sink_input_list w) (acquires w) (lock_wait w)
    (clock_reads w) (seeds w) (log w) (pulse_calls w).
Definition set_item_objs (x : list (string * nat)) (w : World) : World :=
  mkWorld (env w) (globals w) (conf w) (fatal w) (heap w) x (items w)
    (_update_lock w) (_update_signal w) (_pulse_hold w) (_pulse_lock w)
    (sink_list w) (sink_input_list w) (acquires w) (lock_wait w)
    (clock_reads w) (seeds w) (log w) (pulse_calls w).
Definition set_items (x : list nat) (w : World) : World :=
  mkWorld (env w) (globals w) (conf w) (fatal w) (heap w) (item_objs w) x
    (_update_lock w) (_update_signal w) (_pulse_hold w) (_pulse_lock w)
    (sink_list w) (sink_input_list w) (acquires w) (lock_wait w)
    (clock_reads w) (seeds w) (log w) (pulse_calls w).
Definition set_update_lock (x : bool) (w : World) : World :=
  mkWorld (env w) (globals w) (conf w) (fatal w) (heap w) (item_objs w) (items w)
    x (_update_signal w) (_pulse_hold w) (_pulse_lock w)
    (sink_list w) (sink_input_list w) (acquires w) (lock_wait w)
    (clock_reads w) (seeds w) (log w) (pulse_calls w).
Definition set_update_signal (x : bool) (w : World) : World :=
  mkWorld (env w) (globals w) (conf w) (fatal w) (heap w) (item_objs w) (items w)
    (_update_lock w) x (_pulse_hold w) (_pulse_lock w)
    (sink_list w) (sink_input_list w) (acquires w) (lock_wait w)
    (clock_reads w) (seeds w) (log w) (pulse_calls w).
Definition set_pulse_hold (x : bool) (w : World) : World :=
  mkWorld (env w) (globals w) (conf w) (fatal w) (heap w) (item_objs w) (items w)
    (_update_lock w) (_update_signal w) x (_pulse_lock w)
    (sink_list w) (sink_input_list w) (acquires w) (lock_wait w)
    (clock_reads w) (seeds w) (log w) (pulse_calls w).
Definition set_pulse_lock (x : bool) (w : World) : World :=
  mkWorld (env w) (globals w) (conf w) (fatal w) (heap w) (item_objs w) (items w)
    (_update_lock w) (_update_signal w) (_pulse_hold w) x
    (sink_list w) (sink_input_list w) (acquires w) (lock_wait w)
    (clock_reads w) (seeds w) (log w) (pulse_calls w).
Definition set_server (s i : list PulseObj) (w : World) : World :=
  mkWorld (env w) (globals w) (conf w) (fatal w) (heap w) (item_objs w) (items w)
    (_update_lock w) (_update_signal w) (_pulse_hold w) (_pulse_lock w)
    s i (acquires w) (lock_wait w)
    (clock_reads w) (seeds w) (log w) (pulse_calls w).
Definition set_acquires (n : nat) (q : Q) (w : World) : World :=
  mkWorld (env w) (globals w) (conf w) (fatal w) (heap w) (item_objs w) (items w)
    (_update_lock w) (_update_signal w) (_pulse_hold w) (_pulse_lock w)
    (sink_list w) (sink_input_list w) n q
    (clock_reads w) (seeds w) (log w) (pulse_calls w).
Definition set_clock_reads (x : nat) (w : World) : World :=
  mkWorld (env w) (globals w) (conf w) (fatal w) (heap w) (item_objs w) (items w)
    (_update_lock w) (_update_signal w) (_pulse_hold w) (_pulse_lock w)
    (sink_list w) (sink_input_list w) (acquires w) (lock_wait w)
    x (seeds w) (log w) (pulse_calls w).
Definition set_seeds (x : nat) (w : World) : World :=
  mkWorld (env w) (globals w) (conf w) (fatal w) (heap w) (item_objs w) (items w)
    (_update_lock w) (_update_signal w) (_pulse_hold w) (_pulse_lock w)
    (sink_list w) (sink_input_list w) (acquires w) (lock_wait w)
    (clock_reads w) x (log w) (pulse_calls w).
Definition set_log (x : list log_entry) (w : World) : World :=
  mkWorld (env w) (globals w) (conf w) (fatal w) (heap w) (item_objs w) (items w)
    (_update_lock w) (_update_signal w) (_pulse_hold w) (_pulse_lock w)
    (sink_list w) (sink_input_list w) (acquires w) (lock_wait w)
    (clock_reads w) (seeds w) x (pulse_calls w).
Definition set_pulse_calls (x : list pulse_call) (w : World) : World :=
  mkWorld (env w) (globals w) (conf w) (fatal w) (heap w) (item_objs w) (items w)
    (_update_lock w) (_update_signal w) (_pulse_hold w) (_pulse_lock w)
    (sink_list w) (sink_input_list w) (acquires w) (lock_wait w)
    (clock_reads w) (seeds w) (log w) x.

(** ** The monad of methods *)

Definition M (A : Type) : Type := World → outcome A * World.

Definition ret {A} (a : A) : M A := fun w => (Ok a, w).
Definition raise {A} (e : exn) : M A := fun w => (Raise e, w).
Definition bind {A B} (c : M A) (k : A → M B) : M B := fun w =>
  match c w with
  | (Ok a, w') => k a w'
  | (Raise e, w') => (Raise e, w')
  | (Blocked, w') => (Blocked, w')
  end.

Notation "'let*' x ':=' c 'in' k" := (bind c (fun x => k))
  (at level 10, x name, c at level 100, k at level 200).

Definition get {A} (f : World → A) : M A := fun w => (Ok (f w), w).
Definition modify (f : World → World) : M unit := fun w => (Ok tt, f w).

(** [try: body finally: fin] *)
Definition try_finally {A} (body : M A) (fin : M unit) : M A := fun w =>
  match body w with
  | (Ok a, w') => bind fin (fun _ => ret a) w'
  | (Raise e, w') => bind fin (fun _ => raise e) w'
  | (Blocked, w') => (Blocked, w')
  end.

(** [for x in l: body x] *)
Fixpoint for_each {A} (l : list A) (body : A → M unit) : M unit :=
  match l with
  | [] => ret tt
  | x :: l' => let* _ := body x in for_each l' body
  end.

Definition log_debug (msg : string) : M unit :=
  modify (fun w => set_log (log w ++ [LogDebug msg]) w).
Definition log_info (msg : string) : M unit :=
  modify (fun w => set_log (log w ++ [LogInfo msg]) w).
Definition log_error (msg : string) : M unit :=
  modify (fun w => set_log (log w ++ [LogError msg]) w).

(** A call on the pulsectl client: it is made, and it returns or raises.
    [event_listen_stop] only sets a flag and wakes the loop; every other
    call talks to the server and ends as the environment has it. *)
Definition pulse_call_ (c : pulse_call) : M unit := fun w =>
  let w' := set_pulse_calls (pulse_calls w ++ [c]) w in
  match c with
  | EventListenStop => (Ok tt, w')
  | _ =>
      match pulse_error (env w) (length (pulse_calls w)) with
      | Some e => (Raise e, w')
      | None => (Ok tt, w')
      end
  end.

(** Reading a global name: NameError when the module never binds it. *)
Definition load_global (n : string) : M unit := fun w =>
  if bool_decide (n ∈ globals w) then (Ok tt, w) else (Raise (NameError n), w).

(** The names [pa-mixer-mk3.py] binds at module level: its imports, its
    classes and functions, and the two names [main] declares global. *)
Definition module_globals : list string :=
  [ "it"; "op"; "ft"; "OrderedDict"; "contextmanager"; "os"; "sys"; "re";
    "time"; "logging"; "configparser"; "base64"; "hashlib"; "unicodedata";
    "signal"; "threading"; "Pulse"; "PulseLoopStop";
    "LogMessage"; "LogStyleAdapter"; "LogPrefixAdapter"; "get_logger";
    "uid_str"; "Conf"; "update_conf_from_file"; "PAMixerMenuItem";
    "PAMixerMenu"; "PAMixerUI"; "main"; "log"; "print" ].

(** ** [PAMixerMenu.update_wakeup]: the exclusive-access scope *)

(** [int(x)] on a float: truncation towards zero. *)
Definition py_int (x : Q) : Z := Z.quot (Qnum x) (Zpos (Qden x)).

Definition loop_interval_default : Q := 3 # 100.

(** [self.pulse.event_listen_stop()] *)
Definition event_listen_stop : M unit := pulse_call_ EventListenStop.

(** [self._pulse_lock.acquire(timeout=timeout)]: the lock is the
    listener's while it waits for events; whether it lets go in time is
    the environment's answer to this attempt. *)
Definition pulse_lock_acquire (timeout : Q) : M bool := fun w =>
  let got := poller_yields (env w) (acquires w) in
  let w1 := set_acquires (S (acquires w)) (lock_wait w + timeout)%Q w in
  (Ok got, if got then set_pulse_lock true w1 else w1).

Definition pulse_lock_release : M unit := modify (set_pulse_lock false).

(** The [for n in range(..)] loop of [update_wakeup]; the result says
    whether it left through [break]. *)
Fixpoint acquire_loop (n : nat) (loop_interval : Q) : M bool :=
  match n with
  | O => ret false
  | S n' =>
      let* _ := event_listen_stop in
      let* got := pulse_lock_acquire loop_interval in
      if got then ret true else acquire_loop n' loop_interval
  end.

(** [with self._pulse_hold: body].  The lock is not reentrant: a thread
    that enters the scope while it holds the lock itself waits forever.
    (The listener holds it only across its own uncontended acquisition of
    [_pulse_lock], which is not modelled.) *)
Definition with_pulse_hold {A} (body : M A) : M A := fun w =>
  if _pulse_hold w then (Blocked, w)
  else match body (set_pulse_hold true w) with
       | (Blocked, w') => (Blocked, w')
       | (r, w') => (r, set_pulse_hold false w')
       end.

(** [with self.update_wakeup(loop_interval) as pulse: body] *)
Definition update_wakeup_ {A} (loop_interval : Q) (body : M A) : M A :=
  with_pulse_hold
    (if Qeq_bool loop_interval 0 then raise ZeroDivisionError else
     let* got := acquire_loop (Z.to_nat (py_int (5 / loop_interval))) loop_interval in
     if got then try_finally body pulse_lock_release
     else raise (RuntimeError "poll_wakeup() hangs, likely locking issue")).

Definition update_wakeup {A} (body : M A) : M A :=
  update_wakeup_ loop_interval_default body.

(** ** [PAMixerMenuItem] *)

(** Dereferencing an item reference. *)
Definition deref (w : World) (i : nat) : Item := heap w !!! i.

Definition set_item (i : nat) (f : Item → Item) : M unit :=
  modify (fun w => set_heap (alter f i (heap w)) w).

Definition with_hidden (b : bool) (x : Item) : Item :=
  mkItem (t x) (uid x) (obj x) b (created_ts x) (name x).
Definition with_obj (o : PulseObj) (x : Item) : Item :=
  mkItem (t x) (uid x) o (hidden x) (created_ts x) (name x).
Definition with_value_flat (v : Q) (o : PulseObj) : PulseObj :=
  mkPulseObj (index o) (obj_name o) (proplist o) v (mute o) (active_port o).
Definition with_mute (m : Z) (o : PulseObj) : PulseObj :=
  mkPulseObj (index o) (obj_name o) (proplist o) (value_flat o) m (active_port o).

(** [_get_name_unique] *)
Definition _get_name_unique (nm : string) : M string := fun w =>
  (Ok (nm +:+ " #" +:+ uid_str (env w) (seeds w)), set_seeds (S (seeds w)) w).

(** [_get_name] *)
Definition _get_name (obj_t : string) (o : PulseObj) : M string := fun w =>
  match name_descriptive (env w) (conf w) obj_t o (seeds w) with
  | (inr nm, s) => (Ok nm, set_seeds s w)
  | (inl err, s) =>
      if fatal w then (Raise err, set_seeds s w)
      else (let* _ := log_info "Failed to get descriptive name" in
            _get_name_unique obj_t) (set_seeds s w)
  end.

(** [update_name], on the name of an item under construction *)
Definition update_name (obj_t : string) (o : PulseObj) : M string :=
  let* nm := _get_name obj_t o in
  if bool_decide (nm = "") then _get_name_unique "null" else ret nm.

Definition time_monotonic : M Q := fun w =>
  (Ok (monotonic (env w) (clock_reads w)), set_clock_reads (S (clock_reads w)) w).

(** [PAMixerMenuItem(menu, obj_t, obj_id, obj)]: the reference of the new
    item, which is the next free place of the heap. *)
Definition PAMixerMenuItem (obj_t obj_id : string) (o : PulseObj) : M nat :=
  let* ts := time_monotonic in
  let* nm := update_name obj_t o in
  let* dump := get (fun w => dump_stream_params (conf w)) in
  let* _ := (if dump then modify (fun w => set_log (log w ++ [PPrint obj_id nm]) w)
             else ret tt) in
  fun w => (Ok (length (heap w)),
            set_heap (heap w ++ [mkItem obj_t obj_id o false ts nm]) w).

(** The mapping of the [volume] getter, from the server's value. *)
Definition volume_read (c : Conf) (native : Q) : outcome Q :=
  if Qeq_bool (max_volume c) 0 then Raise ZeroDivisionError
  else Ok (Qmin 1 (Qmax 0 (native - min_volume c) / max_volume c)).

(** The mapping of the [volume] setter, to the server's value. *)
Definition volume_write (c : Conf) (val : Q) : Q :=
  Qmin 1 (Qmax 0 val) * max_volume c + min_volume c.

(** [item.volume] *)
Definition volume (i : nat) : M Q := fun w =>
  (volume_read (conf w) (value_flat (obj (deref w i))), w).

(** [pulse.volume_set_all_chans(obj, vol)]: pulsectl stores the value in
    the object it was given and sends it to the server. *)
Definition volume_set_all_chans (i : nat) (vol : Q) : M unit :=
  let* o := get (fun w => obj (deref w i)) in
  let* _ := set_item i (with_obj (with_value_flat vol o)) in
  pulse_call_ (VolumeSetAllChans o vol).

(** [item.volume = val] *)
Definition volume_set (i : nat) (val : Q) : M unit :=
  let* c := get conf in
  let val_pulse := volume_write c val in
  let* _ := log_debug "Setting volume" in
  update_wakeup (volume_set_all_chans i val_pulse).

(** [item.muted] and [item.muted = val] *)
Definition muted (i : nat) : M bool :=
  get (fun w => negb (Z.eqb (mute (obj (deref w i))) 0)).

Definition muted_set (i : nat) (val : bool) : M unit :=
  let* o := get (fun w => obj (deref w i)) in
  let o' := with_mute (if val then 1 else 0)%Z o in
  let* _ := set_item i (with_obj o') in
  update_wakeup (pulse_call_ (MuteCall o' (mute o'))).

(** [item.port] *)
Definition port (i : nat) : M (option string) :=
  get (fun w => if bool_decide (t (deref w i) ≠ "sink") then None
                else active_port (obj (deref w i))).

(** [item.port = name]: the exception class is looked up in the module
    namespace before it is instantiated and raised. *)
Definition port_set (i : nat) (nm : string) : M unit :=
  let* ty := get (fun w => t (deref w i)) in
  if bool_decide (ty ≠ "sink") then
    let* _ := load_global "PAMixerInvalidAction" in
    raise (PAMixerInvalidAction "Setting ports is only valid for 'sink'-type streams")
  else ret tt.

Definition muted_toggle (i : nat) : M unit :=
  let* m := muted i in muted_set i (negb m).

Definition volume_change (i : nat) (delta : Q) : M unit :=
  let* _ := volume i in
  let* _ := volume i in
  let* _ := log_debug "Volume update" in
  let* v := volume i in
  volume_set i (v + delta).

(** ** Python's [re], for the patterns of the matcher *)

Definition newline : ascii := "010"%char.

Fixpoint str_strip_prefix (p s : string) : option string :=
  match p with
  | EmptyString => Some s
  | String a p' =>
      match s with
      | String b s' => if bool_decide (a = b) then str_strip_prefix p' s' else None
      | EmptyString => None
      end
  end.

Definition at_eol (s : string) : bool :=
  bool_decide (s = "") || bool_decide (s = String newline "").

(** [accept n r s bos k]: some match of [r] at the front of [s] leaves a
    rest that [k] accepts.  [bos] says that [s] is the whole subject
    string; [n] bounds the iterations of a star, each of which has to
    consume something. *)
Fixpoint accept (n : nat) : regex → string → bool → (string → bool → bool) → bool :=
  fix go (r : regex) (s : string) (bos : bool) (k : string → bool → bool)
      {struct r} : bool :=
    match r with
    | Lit l =>
        match str_strip_prefix l s with
        | Some s' => k s' (bos && bool_decide (l = ""))
        | None => false
        end
    | AnyChar =>
        match s with
        | String c s' => negb (bool_decide (c = newline)) && k s' false
        | EmptyString => false
        end
    | Bol => bos && k s bos
    | Eol => at_eol s && k s bos
    | Seq r1 r2 => go r1 s bos (fun s' b' => go r2 s' b' k)
    | Alt r1 r2 => go r1 s bos k || go r2 s bos k
    | Star r1 =>
        k s bos ||
        match n with
        | O => false
        | S m => go r1 s bos (fun s' b' =>
                   (String.length s' <? String.length s)%nat
                   && accept m (Star r1) s' b' k)
        end
    end.

Fixpoint search_from (r : regex) (s : string) (bos : bool) : bool :=
  accept (S (String.length s)) r s bos (fun _ _ => true) ||
  match s with
  | String _ s' => search_from r s' false
  | EmptyString => false
  end.

(** [pattern.search(s)], as a truth value *)
Definition re_search (r : regex) (s : string) : bool := search_from r s true.

(** [re.compile(r'^{}$'.format(re.escape(v)))] *)
Definition equals_pattern (v : string) : regex := Seq Bol (Seq (Lit v) Eol).

(** ** [update_conf_from_file]: one option of a [stream] section *)

Fixpoint contains_newline (s : string) : bool :=
  match s with
  | EmptyString => false
  | String c s' => bool_decide (c = newline) || contains_newline s'
  end.

(** Removes a final [suffix], when there is one. *)
Fixpoint str_strip_suffix (suffix s : string) : option string :=
  if bool_decide (s = suffix) then Some ""
  else match s with
       | EmptyString => None
       | String c s' => String c <$> str_strip_suffix suffix s'
       end.

(** The search of line 103 on an option name: [match] or [equals], an
    opening bracket, any characters (greedily), a closing bracket, the end.
    The result is the two groups.  The dollar also matches before one final
    newline, and the dot matches no newline. *)
Definition match_key (k : string) : option (string * string) :=
  let body := default k (str_strip_suffix (String newline "") k) in
  let bracketed (tag : string) :=
    inner ← str_strip_prefix (tag +:+ "[") body ≫= str_strip_suffix "]";
    if contains_newline inner then None else Some (tag, inner) in
  match bracketed "match" with
  | Some g => Some g
  | None => bracketed "equals"
  end.

(** The body of the loop over [config.items(sec)], for a pair [k, v] as
    configparser yields it: [k] is the name of the option in lower case,
    and [v] is its value, a string here.  [compiled] is what
    [re.compile(v)] returns for the option's value. *)
Definition section_param (k v : string) (compiled : regex) : check :=
  match match_key k with
  | Some (tag, prop) =>
      Match prop (if bool_decide (tag = "equals") then equals_pattern v else compiled)
  | None => Set_ k v
  end.

(** ** [OrderedDict] *)

Fixpoint od_set {V} (k : string) (v : V) (d : list (string * V)) : list (string * V) :=
  match d with
  | [] => [(k, v)]
  | (k', v') :: d' =>
      if bool_decide (k' = k) then (k, v) :: d' else (k', v') :: od_set k v d'
  end.

Fixpoint od_get {V} (k : string) (d : list (string * V)) : option V :=
  match d with
  | [] => None
  | (k', v') :: d' => if bool_decide (k' = k) then Some v' else od_get k d'
  end.

Definition od_mem {V} (k : string) (d : list (string * V)) : bool :=
  bool_decide (k ∈ d.*1).

Definition od_del {V} (k : string) (d : list (string * V)) : list (string * V) :=
  filter (fun p => p.1 ≠ k) d.

(** ** [Conf.parse_bool] *)

Definition lower_ascii (c : ascii) : ascii :=
  let n := nat_of_ascii c in
  if (65 <=? n)%nat && (n <=? 90)%nat then ascii_of_nat (n + 32) else c.

Fixpoint lower (s : string) : string :=
  match s with
  | EmptyString => EmptyString
  | String c s' => String (lower_ascii c) (lower s')
  end.

Definition parse_bool (val : string) : exn + bool :=
  let l := lower val in
  if bool_decide (l ∈ ["1"; "yes"; "true"; "on"]) then inr true
  else if bool_decide (l ∈ ["0"; "no"; "false"; "off"]) then inr false
  else inl (ValueError val).

(** ** [PAMixerMenu.apply_stream_params]: the parameter matcher *)

(** The loop over the checks of one section: the [match] flag and the
    [params] dictionary it ends with, or the exception of a foreign tag. *)
Fixpoint run_checks (pl : gmap string string) (checks : list check)
    (mt : bool) (params : list (string * string))
    : exn + (bool * list (string * string)) :=
  match checks with
  | [] => inr (mt, params)
  | Match k v :: cs =>
      run_checks pl cs
        (if mt && negb (re_search v (default "" (pl !! k))) then false else mt)
        params
  | Set_ k v :: cs => run_checks pl cs mt (od_set k v params)
  | Other tag k v :: cs => inl (ValueError tag)
  end.

(** The search of line 335 on a parameter name: [volume-] and one of
    [min], [max], [set], up to one final newline.  The result is the
    group. *)
Definition volume_key (k : string) : option string :=
  let body := default k (str_strip_suffix (String newline "") k) in
  if bool_decide (body = "volume-min") then Some "min"
  else if bool_decide (body = "volume-max") then Some "max"
  else if bool_decide (body = "volume-set") then Some "set"
  else None.

(** [try: item.port = v / except PAMixerInvalidAction as err: log.error(..)].
    The class named by the except clause is looked up when an exception
    reaches the clause. *)
Definition try_port_set (i : nat) (v : string) : M unit := fun w =>
  match port_set i v w with
  | (Raise e, w') =>
      match load_global "PAMixerInvalidAction" w' with
      | (Ok _, w'') =>
          match e with
          | PAMixerInvalidAction _ => log_error "Unable to set port for stream" w''
          | _ => (Raise e, w'')
          end
      | (Raise e', w'') => (Raise e', w'')
      | (Blocked, w'') => (Blocked, w'')
      end
  | r => r
  end.

(** The body of the loop over [params.items()]. *)
Definition apply_param (i : nat) (kv : string * string) : M unit :=
  let '(k, v) := kv in
  match volume_key k with
  | Some g =>
      let* f := get (fun w => py_float (env w)) in
      match f v with
      | None => raise (ValueError v)
      | Some vol =>
          if bool_decide (g = "max") then
            let* cur := volume i in
            if negb (Qle_bool cur vol) then volume_set i vol else ret tt
          else if bool_decide (g = "min") then
            let* cur := volume i in
            if negb (Qle_bool vol cur) then volume_set i vol else ret tt
          else volume_set i vol
      end
  | None =>
      if bool_decide (k = "hidden") then
        match parse_bool v with
        | inr b => set_item i (with_hidden b)
        | inl e => raise e
        end
      else if bool_decide (k = "port") then try_port_set i v
      else log_debug "Unrecognized stream parameter"
  end.

(** The body of the loop over the sections. *)
Definition apply_section (i : nat) (sc : string * list check) : M unit :=
  let* pl := get (fun w => proplist (obj (deref w i))) in
  match run_checks pl sc.2 true [] with
  | inl e => raise e
  | inr (mt, params) =>
      if mt then
        let* _ := log_debug "Matched stream to config section" in
        for_each params (apply_param i)
      else ret tt
  end.

Definition apply_stream_params (i : nat) : M unit :=
  let* secs := get (fun w => default [] (stream_params (conf w))) in
  for_each secs (apply_section i).

(** ** Navigation *)

(** [focus_policies]: [op.itemgetter(0)] and [op.itemgetter(-1)], on a
    list that the caller has found non-empty. *)
Definition focus_policies (k : string) : option (list nat → option nat) :=
  if bool_decide (k = "first") then Some head
  else if bool_decide (k = "last") then Some last
  else None.

(** [item_default()]; [Ok None] is Python's [None]. *)
Definition item_default (w : World) : outcome (option nat) :=
  match items w with
  | [] => Ok None
  | _ =>
      match focus_policies (focus_default (conf w)) with
      | None => Raise (KeyError (focus_default (conf w)))
      | Some func => Ok (func (items w))
      end
  end.

(** The loop variable [item] of [item_after]: the item looked for, then
    the [StopIteration] mark. *)
Inductive after_cursor : Type :=
  | Looking (i : nat)
  | StopIteration.

(** The loop of [item_after]; [None] when it ends without [return]. *)
Fixpoint item_after_loop (w : World) (item : after_cursor) (l : list nat) : option nat :=
  match l with
  | [] => None
  | item2 :: l' =>
      match item with
      | StopIteration => Some item2
      | Looking i =>
          if bool_decide (uid (deref w item2) = uid (deref w i))
          then item_after_loop w StopIteration l'
          else item_after_loop w item l'
      end
  end.

(** [item_after(item)]; an item object is always true. *)
Definition item_after (w : World) (item : option nat) : outcome (option nat) :=
  match item with
  | Some i =>
      match item_after_loop w (Looking i) (items w) with
      | Some r => Ok (Some r)
      | None => item_default w
      end
  | None => item_default w
  end.

(** The loop of [item_before]: [Some r] for [return r], [None] when it
    ends or breaks. *)
Fixpoint item_before_loop (w : World) (i : nat) (item_prev : option nat) (l : list nat)
    : option nat :=
  match l with
  | [] => None
  | item2 :: l' =>
      if bool_decide (uid (deref w item2) = uid (deref w i)) then
        match item_prev with
        | None => None
        | Some p => Some p
        end
      else item_before_loop w i (Some item2) l'
  end.

Definition item_before (w : World) (item : option nat) : outcome (option nat) :=
  match item with
  | Some i =>
      match item_before_loop w i None (items w) with
      | Some r => Ok (Some r)
      | None => item_default w
      end
  | None => item_default w
  end.

(** ** [PAMixerMenu.update]: the refresh *)

(** ['{}-{}'.format(obj_t, obj.index)] *)
Definition obj_id_of (obj_t : string) (o : PulseObj) : string :=
  obj_t +:+ "-" +:+ pretty (index o).

(** [for x in l: s = f s x], for a loop that carries local variables *)
Fixpoint fold_m {A S} (l : list A) (s : S) (f : S → A → M S) : M S :=
  match l with
  | [] => ret s
  | x :: l' => let* s' := f s x in fold_m l' s' f
  end.

(** The body of the loop over the objects of one kind; the local sets
    [obj_new] and [obj_gone] are carried along. *)
Definition update_obj (obj_t : string) (st : gset string * gset string)
    (o : PulseObj) : M (gset string * gset string) :=
  let obj_id := obj_id_of obj_t o in
  let* d := get item_objs in
  if od_mem obj_id d then
    if bool_decide (obj_id ∈ st.2) then ret (st.1, st.2 ∖ {[obj_id]})
    else raise (KeyError obj_id)
  else
    let* r := PAMixerMenuItem obj_t obj_id o in
    let* _ := modify (fun w => set_item_objs (od_set obj_id r (item_objs w)) w) in
    ret (st.1 ∪ {[obj_id]}, st.2).

(** The enumeration inside the exclusive-access scope. *)
Definition enumerate (obj_gone : gset string) : M (gset string * gset string) :=
  let* _ := pulse_call_ SinkList in
  let* sinks := get sink_list in
  let* st := fold_m sinks (∅, obj_gone) (update_obj "sink") in
  let* _ := pulse_call_ SinkInputList in
  let* inputs := get sink_input_list in
  fold_m inputs st (update_obj "stream").

(** [del self.item_objs[obj_id]] *)
Definition item_objs_del (obj_id : string) : M unit :=
  let* d := get item_objs in
  if od_mem obj_id d then modify (fun w => set_item_objs (od_del obj_id (item_objs w)) w)
  else raise (KeyError obj_id).

(** [self.apply_stream_params(self.item_objs[obj_id])] *)
Definition apply_new (obj_id : string) : M unit :=
  let* d := get item_objs in
  match od_get obj_id d with
  | Some r => apply_stream_params r
  | None => raise (KeyError obj_id)
  end.

(** The loop that sorts sinks to the top: the lists [sinks] and
    [streams] and the flag [ordered]. *)
Fixpoint split_kinds (w : World) (d : list (string * nat))
    (sinks streams : list (string * nat)) (ordered : bool)
    : list (string * nat) * list (string * nat) * bool :=
  match d with
  | [] => (sinks, streams, ordered)
  | (obj_id, r) :: d' =>
      if bool_decide (t (deref w r) = "sink")
      then split_kinds w d' (sinks ++ [(obj_id, r)]) streams
             (match streams with [] => ordered | _ => false end)
      else split_kinds w d' sinks (streams ++ [(obj_id, r)]) ordered
  end.

Definition sort_sinks_first : M unit := fun w =>
  let '(sinks, streams, ordered) := split_kinds w (item_objs w) [] [] true in
  if ordered then (Ok tt, w)
  else (Ok tt, set_item_objs
                 (foldl (fun d kv => od_set kv.1 kv.2 d) [] (sinks ++ streams)) w).

(** [self.items = list(item for item in self.item_objs.values() if not item.hidden)] *)
Definition rebuild_items : M unit :=
  modify (fun w =>
    set_items (filter (fun r => hidden (deref w r) = false) (item_objs w).*2) w).

(** One turn of the [while self._update_signal] loop. *)
Definition update_pass : M unit :=
  let* _ := modify (set_update_signal false) in
  let* d := get item_objs in
  let* st := update_wakeup (enumerate (list_to_set d.*1)) in
  let* _ := for_each (elements st.2) item_objs_del in
  let* _ := for_each (elements st.1) apply_new in
  let* _ := sort_sinks_first in
  rebuild_items.

(** What happens around the foreground while a pass runs: the server's
    objects change, and the listener's event may run
    [update_wakeup_handler]. *)
Record interference : Type := mkInterference {
  new_sink_list : list PulseObj;
  new_sink_input_list : list PulseObj;
  wakeup : bool
}.

Definition update_wakeup_handler : M unit := modify (set_update_signal true).

Definition interfere (ev : interference) : M unit :=
  let* _ := modify (set_server (new_sink_list ev) (new_sink_input_list ev)) in
  if wakeup ev then update_wakeup_handler else ret tt.

(** The [while] loop, entered with the flag set; one interference per
    pass, and none after the last of them. *)
Fixpoint update_while (evs : list interference) : M unit :=
  let* _ := update_pass in
  match evs with
  | [] => ret tt
  | ev :: evs' =>
      let* _ := interfere ev in
      let* again := get _update_signal in
      if again then update_while evs' else ret tt
  end.

Definition update (evs : list interference) : M unit :=
  let* _ := modify (fun w => set_update_signal true (set_update_lock true w)) in
  let* _ := update_while evs in
  modify (set_update_lock false).

(** [PAMixerMenu(pulse, conf, fatal)], in a process whose module
    namespace is the file's own. *)
Definition PAMixerMenu (e : Env) (c : Conf) (f : bool)
    (sinks inputs : list PulseObj) : World :=
  mkWorld e module_globals c f [] [] [] false false false false
    sinks inputs 0 0 0 0 [] [].

(** * Notions for the statements *)


Definition uids (w : World) (l : list nat) : list string := (fun r => uid (deref w r)) <$> l.

Definition valid_focus (c : Conf) : Prop :=
  focus_default c = "first" ∨ focus_default c = "last".

(** A match clause on its own: the section's flag after the clause. *)
Definition clause_satisfied (pl : gmap string string) (k : string) (v : regex) : Prop :=
  run_checks pl [Match k v] true [] = inr (true, []).

Definition clause_test (pl : gmap string string) (c : check) : bool :=
  match c with
  | Match k v => re_search v (default "" (pl !! k))
  | _ => true
  end.


Definition stuck_error : exn :=
  RuntimeError "poll_wakeup() hangs, likely locking issue".

(** The world after [k] timed acquisitions that the listener did not
    answer, each after one [event_listen_stop]. *)
Fixpoint attempts (k : nat) (li : Q) (w : World) : World :=
  match k with
  | O => w
  | S k' =>
      attempts k' li
        (set_acquires (S (acquires w)) (lock_wait w + li)%Q
           (set_pulse_calls (pulse_calls w ++ [EventListenStop]) w))
  end.

(** The first of [n] attempts, counted from [start], that the listener
    answers. *)
Fixpoint first_yield (f : nat → bool) (start n : nat) : option nat :=
  match n with
  | O => None
  | S n' => if f start then Some O else S <$> first_yield f (S start) n'
  end.

(** Agreement on everything but the locks, the attempt counters and the
    trace of client calls. *)
Definition same_menu (w w' : World) : Prop :=
  env w' = env w ∧ globals w' = globals w ∧ conf w' = conf w ∧
  fatal w' = fatal w ∧ heap w' = heap w ∧ item_objs w' = item_objs w ∧
  items w' = items w ∧ _update_lock w' = _update_lock w ∧
  _update_signal w' = _update_signal w ∧
  sink_list w' = sink_list w ∧ sink_input_list w' = sink_input_list w ∧
  clock_reads w' = clock_reads w ∧ seeds w' = seeds w ∧ log w' = log w.

Definition release (w : World) : World := set_pulse_hold false (set_pulse_lock false w).

(** [w'] differs from [w] at most in the locks, the counters, the log,
    the flags of [update] and the trace of client calls. *)
Definition admin_eq (w w' : World) : Prop :=
  env w' = env w ∧ globals w' = globals w ∧ conf w' = conf w ∧
  fatal w' = fatal w ∧ heap w' = heap w ∧ item_objs w' = item_objs w ∧
  items w' = items w ∧
  sink_list w' = sink_list w ∧ sink_input_list w' = sink_input_list w.

Definition preserves {A} (R : World → World → Prop) (c : M A) : Prop :=
  ∀ w, R w (c w).2.

(** [w'] differs from [w] at most in the administrative fields and in the
    items at the references in [P], whose kind, id and creation time stay. *)
Definition item_frame (P : nat → Prop) (w w' : World) : Prop :=
  env w' = env w ∧ globals w' = globals w ∧ conf w' = conf w ∧
  fatal w' = fatal w ∧
  sink_list w' = sink_list w ∧ sink_input_list w' = sink_input_list w ∧
  item_objs w' = item_objs w ∧ items w' = items w ∧
  length (heap w') = length (heap w) ∧
  (∀ j, ¬ P j → heap w' !! j = heap w !! j) ∧
  (∀ j x, heap w !! j = Some x →
     ∃ x', heap w' !! j = Some x' ∧ t x' = t x ∧ uid x' = uid x ∧
           created_ts x' = created_ts x).

(** A change of one item that keeps its kind, id and creation time. *)
Definition keeps_identity (f : Item → Item) : Prop :=
  ∀ x, t (f x) = t x ∧ uid (f x) = uid x ∧ created_ts (f x) = created_ts x.

Definition is_sink (w : World) (r : nat) : Prop := t (deref w r) = "sink".

#[global] Instance is_sink_dec w r : Decision (is_sink w r).
Proof. unfold is_sink. apply _. Defined.

(** What the server enumerates, with the kind the loop gives each object. *)
Definition objs (w : World) : list (string * PulseObj) :=
  ((λ o, ("sink", o)) <$> sink_list w) ++ ((λ o, ("stream", o)) <$> sink_input_list w).

Definition id_of (p : string * PulseObj) : string := obj_id_of p.1 p.2.

Definition ids (w : World) : list string := id_of <$> objs w.

(** The item as its constructor leaves it. *)
Definition built_from (p : string * PulseObj) (x : Item) : Prop :=
  t x = p.1 ∧ uid x = id_of p ∧ obj x = p.2 ∧ hidden x = false.

Definition static_eq (w w' : World) : Prop :=
  env w' = env w ∧ globals w' = globals w ∧ conf w' = conf w ∧
  fatal w' = fatal w ∧ items w' = items w ∧
  sink_list w' = sink_list w ∧ sink_input_list w' = sink_input_list w.

Definition fresh_of (K0 : list string) (done : list (string * PulseObj))
    : list (string * PulseObj) :=
  filter (λ p, id_of p ∉ K0) done.

(** The state of the enumeration after the objects [done], from the
    world [w0] in which the pass started. *)
Definition enum_inv (w0 : World) (done : list (string * PulseObj))
    (st : gset string * gset string) (w : World) : Prop :=
  let K0 := (item_objs w0).*1 in
  let fresh := fresh_of K0 done in
  static_eq w0 w ∧
  NoDup (id_of <$> done) ∧
  (∀ k, k ∈ st.1 ↔ k ∈ id_of <$> fresh) ∧
  (∀ k, k ∈ st.2 ↔ k ∈ K0 ∧ k ∉ id_of <$> done) ∧
  item_objs w = item_objs w0
                ++ zip (id_of <$> fresh) (seq (length (heap w0)) (length fresh)) ∧
  ∃ news, heap w = heap w0 ++ news ∧ Forall2 built_from fresh news.

(** The entries of the new items: their ids against the next free
    references. *)
Definition new_entries (w : World) : list (string * nat) :=
  let fresh := fresh_of (item_objs w).*1 (objs w) in
  zip (id_of <$> fresh) (seq (length (heap w)) (length fresh)).

(** The dictionary after the enumeration and the deletions, before it is
    sorted: the old entries that the server still has, then the new ones. *)
Definition reconciled (w : World) : list (string * nat) :=
  filter (λ p, p.1 ∈ ids w) (item_objs w) ++ new_entries w.

Definition ref_lt (p q : string * nat) : Prop := p.2 < q.2.

Definition sink_entry (w : World) (p : string * nat) : Prop := is_sink w p.2.

#[global] Instance sink_entry_dec w p : Decision (sink_entry w p).
Proof. unfold sink_entry. apply _. Defined.

Record menu_ok (w : World) : Prop := {
  ok_nodup : NoDup (item_objs w).*1;
  ok_refs : ∀ k r, (k, r) ∈ item_objs w →
      ∃ x, heap w !! r = Some x ∧ uid x = k ∧ (t x = "sink" ∨ t x = "stream");
  ok_sinks : StronglySorted ref_lt (filter (sink_entry w) (item_objs w));
  ok_streams : StronglySorted ref_lt (filter (λ p, ¬ sink_entry w p) (item_objs w));
  ok_first : item_objs w = filter (sink_entry w) (item_objs w)
                           ++ filter (λ p, ¬ sink_entry w p) (item_objs w);
  ok_items : items w `sublist_of` (item_objs w).*2;
  ok_globals : globals w = module_globals
}.

Inductive step : World → World → Prop :=
  | step_update evs w w' :
      update evs w = (Ok tt, w') → step w w'
  | step_server s i w :
      step w (set_server s i w)
  | step_volume_set i v w :
      step w (volume_set i v w).2
  | step_volume_change i d w :
      step w (volume_change i d w).2
  | step_muted_set i b w :
      step w (muted_set i b w).2
  | step_muted_toggle i w :
      step w (muted_toggle i w).2.

Definition reachable (w : World) : Prop :=
  ∃ e c f s i, rtc step (PAMixerMenu e c f s i) w.


Definition ex_env : Env :=
  {| poller_yields := λ _, true;
     monotonic := λ n, inject_Z (Z.of_nat n);
     uid_str := λ n, pretty n;
     name_descriptive := λ _ _ o s, (inr (obj_name o), s);
     py_float := λ _, None;
     pulse_error := λ _, None |}.

Definition ex_speakers (vol : Q) : PulseObj :=
  mkPulseObj 0 "speakers" ∅ vol 0 (Some "analog-output").
Definition ex_headset : PulseObj :=
  mkPulseObj 1 "headset" ∅ (4 # 5) 0 None.
Definition ex_player : PulseObj :=
  mkPulseObj 7 "player" {[ "application.name" := "mpv" ]} (3 # 10) 0 None.
Definition ex_game : PulseObj :=
  mkPulseObj 8 "game" ∅ 1 0 None.
Definition ex_browser : PulseObj :=
  mkPulseObj 9 "browser" ∅ (1 # 10) 1 None.

Definition ex_start : World :=
  PAMixerMenu ex_env Conf_default false [ex_speakers (1 # 2)] [ex_player; ex_game].
Definition ex_first : World := (update [] ex_start).2.
Definition ex_changed : World :=
  set_server [ex_speakers (1 # 4); ex_headset] [ex_player; ex_browser] ex_first.
Definition ex_second : World := (update_pass ex_changed).2.

(** The handle of every retained item is the object of the enumeration
    that the pass has just made. *)
Definition handles_revalidated (w w' : World) : Prop :=
  ∀ p r, p ∈ objs w → (id_of p, r) ∈ item_objs w → obj (deref w' r) = p.2.

Definition invalid_action_unbound : exn := NameError "PAMixerInvalidAction".

(** A configuration with one rule group that sets a port, and a server
    with one stream. *)
Definition ex_port_conf : Conf :=
  {| max_volume := 1; min_volume := 1 # 100; focus_default := "first";
     stream_params := Some [("stream-speakers", [Set_ "port" "analog-output"])];
     dump_stream_params := false |}.

Definition ex_port_start : World :=
  PAMixerMenu ex_env ex_port_conf false [] [ex_player].

(** A listener that never lets go: the scope gives up after its 166
    attempts. *)
Definition ex_stuck_env : Env :=
  {| poller_yields := λ _, false;
     monotonic := λ n, inject_Z (Z.of_nat n);
     uid_str := λ n, pretty n;
     name_descriptive := λ _ _ o s, (inr (obj_name o), s);
     py_float := λ _, None;
     pulse_error := λ _, None |}.

Definition ex_stuck : World := PAMixerMenu ex_stuck_env Conf_default false [] [].


(** A configuration whose range of volumes is empty. *)
Definition ex_zero_conf : Conf :=
  {| max_volume := 0; min_volume := 1 # 100; focus_default := "first";
     stream_params := None; dump_stream_params := false |}.

(** A configuration with a [focus_default] that [focus_policies] does not
    have, and the menu it gives with one sink. *)
Definition ex_odd_conf : Conf :=
  {| max_volume := 1; min_volume := 1 # 100; focus_default := "middle";
     stream_params := None; dump_stream_params := false |}.

Definition ex_odd : World :=
  (update [] (PAMixerMenu ex_env ex_odd_conf false [ex_headset] [])).2.


(** The world after [volume_set_all_chans] on item [i] with the server
    value [vol], entered from [w1]. *)
Definition volume_stored (i : nat) (vol : Q) (w1 : World) : World :=
  set_pulse_calls (pulse_calls w1 ++ [VolumeSetAllChans (obj (deref w1 i)) vol])
    (set_heap (alter (with_obj (with_value_flat vol (obj (deref w1 i)))) i (heap w1)) w1).

(** How a call that talks to the server ends when it is made in [w1]. *)
Definition call_outcome (w1 : World) : outcome unit :=
  match pulse_error (env w1) (length (pulse_calls w1)) with
  | Some e => Raise e
  | None => Ok tt
  end.


(** A server that takes the enumeration of the first refresh and fails
    every call after it. *)
Definition ex_flaky_env : Env :=
  {| poller_yields := λ _, true;
     monotonic := λ n, inject_Z (Z.of_nat n);
     uid_str := λ n, pretty n;
     name_descriptive := λ _ _ o s, (inr (obj_name o), s);
     py_float := λ _, None;
     pulse_error := λ n, if decide (n < 3) then None
                         else Some (OtherError "PulseOperationFailed") |}.

Definition ex_flaky : World :=
  (update [] (PAMixerMenu ex_flaky_env Conf_default false [ex_headset] [])).2.

Definition mute_flag (b : bool) : Z := if b then 1%Z else 0%Z.


(** [sorted(l, key=key, reverse=True)]: the order of the keys reversed,
    items of equal keys in the order they had. *)
Fixpoint insert_desc {A} (key : A → Q) (x : A) (l : list A) : list A :=
  match l with
  | [] => [x]
  | y :: l' => if Qle_bool (key y) (key x) then x :: y :: l'
               else y :: insert_desc key x l'
  end.

Definition sorted_desc {A} (key : A → Q) (l : list A) : list A :=
  foldr (insert_desc key) [] l.

(** [item_newer(ts)] *)
Definition item_newer (w : World) (ts : Q) : option nat :=
  let items := sorted_desc (fun r => created_ts (deref w r)) (items w) in
  match items with
  | r :: _ => if negb (Qle_bool (created_ts (deref w r)) ts) then Some r else None
  | [] => None
  end.




Definition foreign (c : check) : Prop :=
  match c with Other _ _ _ => True | _ => False end.

#[global] Instance foreign_dec c : Decision (foreign c).
Proof. destruct c; apply _. Defined.



Definition ex_vlc_rule : list check :=
  [Match "application.name" (equals_pattern "vlc"); Set_ "hidden" "yes"].

Definition poller_answers (w : World) : Prop :=
  ∃ j, j < 166 ∧ poller_yields (env w) (acquires w + j) = true.

Definition ex_twice : World :=
  PAMixerMenu ex_env Conf_default false [ex_headset; ex_headset] [].

(** [w'] differs from [w] at most in the administrative fields and in
    the [obj] of its items. *)
Definition obj_only (w w' : World) : Prop :=
  env w' = env w ∧ globals w' = globals w ∧ conf w' = conf w ∧
  fatal w' = fatal w ∧
  sink_list w' = sink_list w ∧ sink_input_list w' = sink_input_list w ∧
  item_objs w' = item_objs w ∧ items w' = items w ∧
  length (heap w') = length (heap w) ∧
  (∀ j x, heap w !! j = Some x → ∃ o, heap w' !! j = Some (with_obj o x)).

(** Everything of an item but its [obj]. *)
Definition same_identity (x x' : Item) : Prop :=
  t x' = t x ∧ uid x' = uid x ∧ hidden x' = hidden x ∧
  created_ts x' = created_ts x ∧ name x' = name x.

(** [round(x)] on a float: the nearest integer, and of two that are
    equally near the even one. *)
Definition py_round (x : Q) : Z :=
  let f := Qfloor x in
  match (x - inject_Z f ?= 1 # 2)%Q with
  | Lt => f
  | Gt => (f + 1)%Z
  | Eq => if Z.even f then f else (f + 1)%Z
  end.

(** [c * n] on a string; a negative [n] gives the empty string. *)
Fixpoint str_repeat (c : string) (n : nat) : string :=
  match n with
  | O => ""
  | S n' => c +:+ str_repeat c n'
  end.

(** ['{:>2d}'.format(level)] and the like: spaces on the left up to
    [width]. *)
Definition rjust (width : nat) (s : string) : string :=
  str_repeat " " (width - String.length s) +:+ s.

(** The two characters between the brackets of a label. *)
Definition level_text (volume : Q) : string :=
  let level := Z.max 0 (Z.min 100 (py_round (volume * 100))) in
  if (level =? 0)%Z then "--"
  else if (level =? 100)%Z then "++"
  else rjust 2 (pretty level).

(** ['[{}] {}'.format(level, name)] *)
Definition with_level (volume : Q) (name : string) : string :=
  "[" +:+ level_text volume +:+ "] " +:+ name.

(** [bar_caps_func] *)
Definition bar_caps_func (bar : string) : string := " [ " +:+ bar +:+ " ]".

(** The bar of a row that has room for [bar_len] cells. *)
Definition bar_text (volume : Q) (bar_len : Z) : string :=
  let bar_fill := py_round (volume * inject_Z bar_len) in
  bar_caps_func (str_repeat "#" (Z.to_nat bar_fill)
                 +:+ str_repeat "-" (Z.to_nat (bar_len - bar_fill))).

Fixpoint str_take (n : nat) (s : string) : string :=
  match n, s with
  | S n', String c s' => String c (str_take n' s')
  | _, _ => ""
  end.

Fixpoint str_drop (n : nat) (s : string) : string :=
  match n, s with
  | S n', String _ s' => str_drop n' s'
  | _, _ => s
  end.

Definition str_len (s : string) : Z := Z.of_nat (String.length s).

(** [name_cut_funcs]: [n[max(0, len(n) - c):]] and [n[:c]]. *)
Definition name_cut_funcs (side : string) : option (string → Z → string) :=
  if bool_decide (side = "left") then
    Some (fun n c => str_drop (Z.to_nat (Z.max 0 (str_len n - c))) n)
  else if bool_decide (side = "right") then
    Some (fun n c => if (0 <=? c)%Z then str_take (Z.to_nat c) n
                     else str_take (Z.to_nat (str_len n + c)) n)
  else None.

(** The settings of [Conf] that the drawing reads. *)
Record DrawConf : Type := mkDrawConf {
  name_show_level : bool;
  name_len_max : Z;
  name_cut_from : string
}.

Definition DrawConf_default : DrawConf :=
  {| name_show_level := true; name_len_max := 100; name_cut_from := "left" |}.

Definition item_len_min : Z := 10.
Definition bar_len_min : Z := 10.
Definition mute_button_len : Z := 2.
Definition level_len : Z := 5.


Definition ex_zero : World :=
  (update [] (PAMixerMenu ex_env ex_zero_conf false [ex_headset] [])).2.

Inductive attr : Type := A_NORMAL | A_REVERSE.

(** Calls made on the curses window, in order, as [c_win_draw] issues
    them; what curses does with a text that leaves the window is not
    modelled.  [attrs] is [None] for an [addstr] without the argument. *)
Inductive win_call : Type :=
  | Erase
  | AddStr (row col : Z) (text : string) (attrs : option attr).

(** The window as the drawing sees it: the calls made so far. *)
Definition D (A : Type) : Type := list win_call → outcome A * list win_call.

Definition dret {A} (a : A) : D A := fun s => (Ok a, s).

Definition dlift {A} (o : outcome A) : D A := fun s => (o, s).

Definition dbind {A B} (c : D A) (k : A → D B) : D B := fun s =>
  match c s with
  | (Ok a, s') => k a s'
  | (Raise e, s') => (Raise e, s')
  | (Blocked, s') => (Blocked, s')
  end.

Notation "'let+' x ':=' c 'in' k" := (dbind c (fun x => k))
  (at level 10, x name, c at level 100, k at level 200).

Definition win_call_ (c : win_call) : D unit := fun s => (Ok tt, s ++ [c]).

Definition border : Z := 1.

(** [c_win_size], from what [win.getmaxyx()] returns. *)
Definition c_win_size (size : Z * Z) : Z * Z * Z * Z :=
  (Z.max 1 (size.1 - 2 * border), Z.max 1 (size.2 - 2 * border),
   Z.min border size.1, Z.min border size.2).

(** What the variable [items] of [c_win_draw] is bound to: the list that
    was passed in, or the iterator that [map] returns, which yields its
    elements once. *)
Inductive Iterable (A : Type) : Type :=
  | PyList (l : list A)
  | PyMap (rest : list A).
Arguments PyList {A} l.
Arguments PyMap {A} rest.

(** One iteration to the end: what it yields, and what is left. *)
Definition iterate {A} (it : Iterable A) : list A * Iterable A :=
  match it with
  | PyList l => (l, PyList l)
  | PyMap rest => (rest, PyMap [])
  end.

(** [max(..)] of a generator; the [ValueError] carries the message of
    CPython 3 up to 3.11. *)
Definition py_max (l : list Z) : outcome Z :=
  match l with
  | [] => Raise (ValueError "max() arg is an empty sequence")
  | x :: l' => Ok (foldl Z.max x l')
  end.

(** The [for p in ps] of the vertical fit: [true] when it was left by
    [break]. *)
Fixpoint fit_for (win_rows : Z) (items : list nat) (ps : list Z)
    (items_fit : gmap Z nat) : bool * gmap Z nat :=
  match ps with
  | [] => (false, items_fit)
  | p :: ps' =>
      let items_fit := <[p := items !!! Z.to_nat p]> items_fit in
      if (win_rows <=? Z.of_nat (size items_fit) + 1)%Z then (true, items_fit)
      else fit_for win_rows items ps' items_fit
  end.

(** The [while True] of the vertical fit, for at most [fuel] rounds. *)
Fixpoint fit_while (fuel : nat) (win_rows : Z) (items : list nat) (pos offset : Z)
    (items_fit : gmap Z nat) : option (gmap Z nat) :=
  match fuel with
  | O => None
  | S fuel' =>
      let ps := filter (λ p, (0 ≤ p < Z.of_nat (length items))%Z)
                       [(pos + offset)%Z; (pos - offset)%Z] in
      match ps with
      | [] => Some items_fit
      | _ =>
          let '(stop, items_fit') := fit_for win_rows items ps items_fit in
          if stop then Some items_fit'
          else fit_while fuel' win_rows items pos (offset + 1) items_fit'
      end
  end.

(** [sorted(items_fit.items(), key=op.itemgetter(0))] *)
Definition key_le (a b : Z * nat) : Prop := (a.1 ≤ b.1)%Z.

#[global] Instance key_le_dec : RelDecision key_le :=
  fun a b => decide (a.1 ≤ b.1)%Z.

Definition sorted_by_key (m : gmap Z nat) : list (Z * nat) :=
  merge_sort key_le (map_to_list m).

(** The vertical fit: the items near the highlighted one, as the iterator
    of [map].  [items.index(item_hl)] compares by identity, the items
    having no [__eq__]; the loop is given one round more than there are
    items, and [Blocked] stands for a loop that needs more. *)
Definition vertical_fit (win_rows : Z) (items : list nat) (item_hl : option nat)
  : outcome (Iterable nat) :=
  match list_find (λ i, Some i = item_hl) items with
  | None => Raise (ValueError "is not in list")
  | Some (pos, it) =>
      match fit_while (S (length items)) win_rows items (Z.of_nat pos) 1
                      {[Z.of_nat pos := it]} with
      | None => Blocked
      | Some items_fit => Ok (PyMap (sorted_by_key items_fit).*2)
      end
  end.

(** The horizontal fit: the widths of the label and of the bar, for a
    window of [win_len] columns; [len_name] is [len(item.name)]. *)
Definition fit_width (dc : DrawConf) (win_len : Z) (len_name : nat → Z)
    (items : Iterable nat) : outcome (Z * Z) * Iterable nat :=
  let '(l, items) := iterate items in
  match py_max (len_name <$> l) with
  | Ok m =>
      let caps := str_len (bar_caps_func "") in
      let a := if name_show_level dc then (m + level_len)%Z else m in
      let a := if (name_len_max dc =? 0)%Z then a else Z.min a (name_len_max dc) in
      let bar_len := (win_len - a - mute_button_len - caps)%Z in
      if (bar_len <? bar_len_min)%Z then
        let a1 := Z.max item_len_min (a + bar_len - bar_len_min) in
        let bar_len1 := (win_len - a1 - mute_button_len - caps)%Z in
        let a2 := if (bar_len1 <=? 0)%Z then win_len else a1 in
        if (a2 <? item_len_min)%Z then
          let '(l', items) := iterate items in
          match py_max (len_name <$> l') with
          | Ok m' => (Ok (m', bar_len1), items)
          | Raise e => (Raise e, items)
          | Blocked => (Blocked, items)
          end
        else (Ok (a2, bar_len1), items)
      else (Ok (a, bar_len), items)
  | Raise e => (Raise e, items)
  | Blocked => (Blocked, items)
  end.

(** The name of a row, cut and with its level. *)
Definition item_label (dc : DrawConf) (w : World) (item_len_max : Z) (item : nat)
  : outcome string :=
  let name_len :=
    (item_len_max - (if name_show_level dc then 1 else 0) * level_len)%Z in
  match name_cut_funcs (name_cut_from dc) with
  | None => Raise (KeyError (name_cut_from dc))
  | Some cut =>
      let name := cut (name (deref w item)) name_len in
      if name_show_level dc then
        match (volume item w).1 with
        | Ok v => Ok (with_level v name)
        | Raise e => Raise e
        | Blocked => Blocked
        end
      else Ok name
  end.

(** The body of the drawing loop. *)
Definition draw_row (dc : DrawConf) (w : World)
    (win_len pad_x pad_y item_len_max bar_len : Z) (item_hl : option nat)
    (row : Z) (item : nat) : D unit :=
  let row := (row + pad_y)%Z in
  let attrs := if bool_decide (Some item = item_hl) then A_REVERSE else A_NORMAL in
  let+ name := dlift (item_label dc w item_len_max item) in
  let+ _ := win_call_ (AddStr row 0 (str_repeat " " (Z.to_nat pad_x)) None) in
  let+ _ := win_call_ (AddStr row pad_x name (Some attrs)) in
  let item_name_end := (item_len_max + pad_x)%Z in
  if (item_name_end + mute_button_len <? win_len)%Z then
    let+ m := dlift (muted item w).1 in
    let+ _ := win_call_ (AddStr row item_name_end (if m then " M" else " -") None) in
    if (0 <? bar_len)%Z then
      let+ v := dlift (volume item w).1 in
      win_call_ (AddStr row (item_name_end + mute_button_len) (bar_text v bar_len) None)
    else dret tt
  else dret tt.

(** [for row, item in enumerate(items)], from [row] on. *)
Fixpoint draw_rows (dc : DrawConf) (w : World)
    (win_rows win_len pad_x pad_y item_len_max bar_len : Z) (item_hl : option nat)
    (row : Z) (l : list nat) : D unit :=
  match l with
  | [] => dret tt
  | item :: l' =>
      if (win_rows - 1 <=? row)%Z then dret tt
      else
        let+ _ := draw_row dc w win_len pad_x pad_y item_len_max bar_len item_hl
                           row item in
        draw_rows dc w win_rows win_len pad_x pad_y item_len_max bar_len item_hl
                  (row + 1) l'
  end.

(** [c_win_draw(win, items, item_hl)] on a window of the given size. *)
Definition c_win_draw (dc : DrawConf) (size : Z * Z) (items : list nat)
    (item_hl : option nat) (w : World) : D unit :=
  let+ _ := win_call_ Erase in
  match items with
  | [] => dret tt
  | _ :: _ =>
      let '(win_rows, win_len, pad_x, pad_y) := c_win_size size in
      if (win_len <=? 1)%Z then dret tt
      else
        let+ items :=
          (if (win_rows <? Z.of_nat (length items) + 1)%Z
           then dlift (vertical_fit win_rows items item_hl)
           else dret (PyList items)) in
        let '(r, items) :=
          fit_width dc win_len (λ i, str_len (name (deref w i))) items in
        let+ fit := dlift r in
        let '(item_len_max, bar_len) := fit in
        draw_rows dc w win_rows win_len pad_x pad_y item_len_max bar_len item_hl
                  0 (iterate items).1
  end.


(** The calls of one row. *)
Definition row_calls (w : World) (win_len pad_x item_len_max bar_len : Z)
    (hl : option nat) (row : Z) (item : nat) (text : string) (v : Q)
  : list win_call :=
  [AddStr row 0 (str_repeat " " (Z.to_nat pad_x)) None;
   AddStr row pad_x text
     (Some (if bool_decide (Some item = hl) then A_REVERSE else A_NORMAL))]
  ++ (if (item_len_max + pad_x + mute_button_len <? win_len)%Z then
        AddStr row (item_len_max + pad_x)
          (if negb (mute (obj (deref w item)) =? 0)%Z then " M" else " -") None
        :: (if (0 <? bar_len)%Z then
              [AddStr row (item_len_max + pad_x + mute_button_len)
                 (bar_text v bar_len) None]
            else [])
      else []).

Definition ex_low : Z * Z := (3%Z, 80%Z).


(** The label and the volume of an item, where the drawing gets them. *)
Definition label_of (dc : DrawConf) (w : World) (item_len_max : Z) (item : nat)
  : string :=
  match item_label dc w item_len_max item with
  | Ok text => text
  | _ => ""
  end.

Definition vol_of (w : World) (item : nat) : Q :=
  match (volume item w).1 with
  | Ok v => v
  | _ => 0
  end.

(** The calls of the rows of [l], the first of them on [row]. *)
Fixpoint rows_calls (dc : DrawConf) (w : World)
    (win_len pad_x pad_y item_len_max bar_len : Z) (hl : option nat)
    (row : Z) (l : list nat) : list win_call :=
  match l with
  | [] => []
  | item :: l' =>
      row_calls w win_len pad_x item_len_max bar_len hl (row + pad_y) item
                (label_of dc w item_len_max item) (vol_of w item)
      ++ rows_calls dc w win_len pad_x pad_y item_len_max bar_len hl (row + 1) l'
  end.


(** The visible list is what the last line of a pass makes it. *)
Definition visible_inv (w : World) : Prop :=
  items w = filter (λ r, hidden (deref w r) = false) (item_objs w).*2.

(** * Theorems *)



Lemma item_after_loop_absent (w : World) (i : nat) (l : list nat) :
  uid (deref w i) ∉ uids w l → item_after_loop w (Looking i) l = None.
Proof.
  induction l as [|y l IH]; simpl; [done|].
  intros Hn. apply not_elem_of_cons in Hn as [Hne Hn].
  rewrite bool_decide_eq_false_2 by congruence. auto.
Qed.

Lemma item_after_loop_last (w : World) (x : nat) (l : list nat) :
  NoDup (uids w (l ++ [x])) → item_after_loop w (Looking x) (l ++ [x]) = None.
Proof.
  induction l as [|y l IH]; simpl.
  - intros _. by rewrite bool_decide_eq_true_2.
  - intros Hnd. apply NoDup_cons in Hnd as [Hy Hnd].
    rewrite bool_decide_eq_false_2; [auto|].
    intros Heq. apply Hy. rewrite Heq. unfold uids. rewrite fmap_app.
    apply elem_of_app. right. simpl. apply list_elem_of_here.
Qed.

Lemma item_before_loop_absent (w : World) (i : nat) (p : option nat) (l : list nat) :
  uid (deref w i) ∉ uids w l → item_before_loop w i p l = None.
Proof.
  revert p. induction l as [|y l IH]; simpl; [done|].
  intros p Hn. apply not_elem_of_cons in Hn as [Hne Hn].
  rewrite bool_decide_eq_false_2 by congruence. auto.
Qed.

Lemma item_default_valid (w : World) :
  valid_focus (conf w) → items w ≠ [] →
  ∃ d, item_default w = Ok (Some d) ∧ d ∈ items w.
Proof.
  intros Hv Hne. unfold item_default, focus_policies.
  destruct (items w) as [|x l] eqn:E; [done|].
  destruct Hv as [-> | ->]; simpl.
  - exists x. split; [done|]. apply list_elem_of_here.
  - destruct (last (x :: l)) as [d|] eqn:El.
    + exists d. split; [done|]. apply last_Some in El as [l' ->].
      apply elem_of_app. right. apply list_elem_of_here.
    + apply last_None in El. done.
Qed.

Lemma navigation_bounded_distinct (w : World) :
  NoDup (uids w (items w)) →
  (∀ x, last (items w) = Some x → item_after w (Some x) = item_default w) ∧
  (∀ x, head (items w) = Some x → item_before w (Some x) = item_default w) ∧
  (items w = [] →
     item_default w = Ok None ∧
     ∀ item, item_after w item = Ok None ∧ item_before w item = Ok None) ∧
  (items w ≠ [] → valid_focus (conf w) →
     ∃ d, item_default w = Ok (Some d) ∧ d ∈ items w).
Proof.
  intros Hnd. split; [|split; [|split]].
  - intros x Hx. apply last_Some in Hx as [l Hl]. unfold item_after.
    rewrite Hl in Hnd |- *. by rewrite item_after_loop_last.
  - intros x Hx. unfold item_before.
    destruct (items w) as [|y l]; simplify_eq/=.
    by rewrite bool_decide_eq_true_2.
  - intros He. unfold item_after, item_before, item_default. rewrite He.
    split; [done|]. by intros [i|].
  - intros Hne Hv. by apply item_default_valid.
Qed.

(** C10, as the code has it.  When [item] is [None], or refers to an item
    whose id no visible item has, [item_after] and [item_before] end as
    [item_default] does, never with a neighbour of the former place; and
    with [focus_default] one of its two documented values that is a value,
    not an exception. *)
Theorem navigation_total (w : World) (item : option nat) :
  (∀ i, item = Some i → uid (deref w i) ∉ uids w (items w)) →
  item_after w item = item_default w ∧
  item_before w item = item_default w ∧
  (valid_focus (conf w) → ∃ r, item_default w = Ok r).
Proof.
  intros Habs. split; [|split].
  - destruct item as [i|]; [|done]. unfold item_after.
    by rewrite item_after_loop_absent by auto.
  - destruct item as [i|]; [|done]. unfold item_before.
    by rewrite item_before_loop_absent by auto.
  - intros Hv. destruct (items w) as [|x l] eqn:E.
    + exists None. unfold item_default. by rewrite E.
    + destruct (item_default_valid w Hv) as (d & Hd & _); [by rewrite E|]. eauto.
Qed.



Lemma str_app_nil_l (s : string) : "" +:+ s = s.
Proof. reflexivity. Qed.

Lemma str_app_cons (a : ascii) (p s : string) :
  String a p +:+ s = String a (p +:+ s).
Proof. reflexivity. Qed.

Lemma str_app_nil_r (s : string) : s +:+ "" = s.
Proof. induction s as [|a s IH]; [done|]. by rewrite str_app_cons, IH. Qed.

Lemma str_strip_prefix_Some (p s s' : string) :
  str_strip_prefix p s = Some s' ↔ s = p +:+ s'.
Proof.
  revert s. induction p as [|a p IH]; intros s; simpl.
  - rewrite str_app_nil_l. split; congruence.
  - rewrite str_app_cons. destruct s as [|b s]; [split; discriminate|].
    case_bool_decide; subst.
    + rewrite IH. split; congruence.
    + split; [discriminate|]. intros [=]. congruence.
Qed.

Lemma at_eol_spec (s : string) :
  at_eol s = true ↔ s = "" ∨ s = String newline "".
Proof.
  unfold at_eol. rewrite orb_true_iff, !bool_decide_eq_true. done.
Qed.

Lemma accept_equals (n : nat) (v s : string) (bos : bool) :
  accept n (equals_pattern v) s bos (fun _ _ => true)
  = bos && match str_strip_prefix v s with Some s' => at_eol s' | None => false end.
Proof.
  destruct n; simpl; destruct bos; simpl; try done;
    destruct (str_strip_prefix v s); simpl; by rewrite ?andb_true_r.
Qed.

Lemma search_from_equals_inner (v s : string) :
  search_from (equals_pattern v) s false = false.
Proof.
  induction s as [|c s IH]; cbn [search_from]; rewrite accept_equals; done.
Qed.

Lemma re_search_equals (v s : string) :
  re_search (equals_pattern v) s = true ↔ s = v ∨ s = v +:+ String newline "".
Proof.
  unfold re_search.
  assert (E : search_from (equals_pattern v) s true
              = match str_strip_prefix v s with Some s' => at_eol s' | None => false end).
  { destruct s as [|c s]; cbn [search_from]; rewrite accept_equals; simpl.
    - by rewrite orb_false_r.
    - by rewrite search_from_equals_inner, orb_false_r. }
  rewrite E. destruct (str_strip_prefix v s) as [s'|] eqn:Hp.
  - apply str_strip_prefix_Some in Hp as ->. rewrite at_eol_spec.
    split; (intros [H|H]; [left|right]).
    + subst. by rewrite str_app_nil_r.
    + by subst.
    + rewrite <- (str_app_nil_r v) in H at 2. by apply (inj (String.append v)) in H.
    + by apply (inj (String.append v)) in H.
  - split; [done|]. intros [H|H].
    + assert (str_strip_prefix v s = Some "") as Hs
        by (apply str_strip_prefix_Some; by rewrite str_app_nil_r).
      congruence.
    + apply str_strip_prefix_Some in H. congruence.
Qed.

Lemma run_checks_flag (pl : gmap string string) (checks : list check)
    (mt mt' : bool) (ps ps' : list (string * string)) :
  run_checks pl checks mt ps = inr (mt', ps') →
  mt' = mt && forallb (clause_test pl) checks.
Proof.
  revert mt ps. induction checks as [|c cs IH]; intros mt ps; simpl.
  - intros [= <- <-]. by rewrite andb_true_r.
  - destruct c as [k v|k v|tg k v]; [| |done].
    + intros H. apply IH in H. rewrite H. simpl.
      destruct mt, (re_search v (default "" (pl !! k))); simpl; done.
    + intros H. by apply IH in H.
Qed.

Lemma clause_satisfied_iff (pl : gmap string string) (k : string) (v : regex) :
  clause_satisfied pl k v ↔ re_search v (default "" (pl !! k)) = true.
Proof.
  unfold clause_satisfied. simpl.
  destruct (re_search v (default "" (pl !! k))); simpl; split; congruence.
Qed.

(** C7, as stated: a clause would be satisfied exactly when the property
    exists and its value matches.  It fails on an item without properties
    and the exact-equality pattern for the empty string, which the matcher
    accepts. *)
Theorem match_clause_absent_counterexample :
  ¬ (∀ (pl : gmap string string) (k : string) (v : regex),
       clause_satisfied pl k v ↔ ∃ s, pl !! k = Some s ∧ re_search v s = true).
Proof.
  intros H.
  destruct (proj1 (H ∅ "application.name" (equals_pattern ""))) as (s & Hs & _).
  - reflexivity.
  - by rewrite lookup_empty in Hs.
Qed.

(** C7, as the code has it.  A [match] clause is satisfied exactly when
    its pattern is found in [proplist.get(k, '')]: in the value of the
    property when the item has it, and in the empty string when it has
    not.  A section matches when each of its clauses is satisfied.  An
    [equals] option becomes the escaped value between the two anchors,
    which is found in exactly two strings: the value, and the value
    followed by one newline. *)
Theorem match_clause_semantics (pl : gmap string string) :
  (∀ k v, clause_satisfied pl k v ↔ re_search v (default "" (pl !! k)) = true) ∧
  (∀ k v s, pl !! k = Some s → (clause_satisfied pl k v ↔ re_search v s = true)) ∧
  (∀ k v, pl !! k = None → (clause_satisfied pl k v ↔ re_search v "" = true)) ∧
  (∀ checks mt params, run_checks pl checks true [] = inr (mt, params) →
     (mt = true ↔ ∀ k v, Match k v ∈ checks → clause_satisfied pl k v)) ∧
  (∀ key prop value compiled, match_key key = Some ("equals", prop) →
     section_param key value compiled = Match prop (equals_pattern value)) ∧
  (∀ value s, re_search (equals_pattern value) s = true
              ↔ s = value ∨ s = value +:+ String newline "").
Proof.
  split; [|split; [|split; [|split; [|split]]]].
  - apply clause_satisfied_iff.
  - intros k v s Hs. by rewrite clause_satisfied_iff, Hs.
  - intros k v Hs. by rewrite clause_satisfied_iff, Hs.
  - intros checks mt params H. apply run_checks_flag in H. simpl in H. subst mt.
    rewrite forallb_forall. split.
    + intros Hall k v Hin. apply clause_satisfied_iff.
      apply (Hall (Match k v)). by apply list_elem_of_In.
    + intros Hall [k v| |] Hin; [|done..].
      apply clause_satisfied_iff, Hall. by apply list_elem_of_In.
  - intros key prop value compiled Hk. unfold section_param. by rewrite Hk.
  - apply re_search_equals.
Qed.


Lemma attempts_fields (k : nat) (li : Q) (w : World) :
  same_menu w (attempts k li w) ∧
  acquires (attempts k li w) = acquires w + k ∧
  (lock_wait (attempts k li w) == lock_wait w + inject_Z (Z.of_nat k) * li)%Q ∧
  pulse_calls (attempts k li w) = pulse_calls w ++ replicate k EventListenStop ∧
  _pulse_hold (attempts k li w) = _pulse_hold w ∧
  _pulse_lock (attempts k li w) = _pulse_lock w.
Proof.
  revert w. induction k as [|k IH]; intros w.
  - simpl. repeat split; try done; try lia.
    + ring.
    + by rewrite app_nil_r.
  - cbn [attempts].
    destruct (IH (set_acquires (S (acquires w)) (lock_wait w + li)%Q
                    (set_pulse_calls (pulse_calls w ++ [EventListenStop]) w)))
      as (Hm & Ha & Hw & Hc & Hh & Hl).
    split; [exact Hm|]. split; [rewrite Ha; simpl; lia|].
    split; [|split; [|split]].
    + rewrite Hw. simpl. rewrite Nat2Z.inj_succ. unfold Z.succ.
      rewrite inject_Z_plus. ring.
    + rewrite Hc. simpl. by rewrite <- app_assoc.
    + by rewrite Hh.
    + by rewrite Hl.
Qed.

Lemma first_yield_None (f : nat → bool) (start n : nat) :
  first_yield f start n = None → ∀ j, j < n → f (start + j) = false.
Proof.
  revert start. induction n as [|n IH]; intros start; simpl; [lia|].
  destruct (f start) eqn:E; [done|].
  destruct (first_yield f (S start) n) eqn:E'; [done|]. intros _ j Hj.
  destruct j as [|j]; [by rewrite Nat.add_0_r|].
  replace (start + S j) with (S start + j) by lia. apply IH; [done|lia].
Qed.

Lemma first_yield_Some (f : nat → bool) (start n k : nat) :
  first_yield f start n = Some k →
  k < n ∧ f (start + k) = true ∧ ∀ j, j < k → f (start + j) = false.
Proof.
  revert start k. induction n as [|n IH]; intros start k; simpl; [done|].
  destruct (f start) eqn:E.
  - intros [= <-]. rewrite Nat.add_0_r. repeat split; [lia|done|lia].
  - destruct (first_yield f (S start) n) as [k'|] eqn:E'; [|done].
    intros [= <-]. destruct (IH _ _ E') as (Hlt & Hk & Hj).
    split; [lia|]. split.
    + by replace (start + S k') with (S start + k') by lia.
    + intros [|j] Hjk; [by rewrite Nat.add_0_r|].
      replace (start + S j) with (S start + j) by lia. apply Hj. lia.
Qed.

Lemma acquire_loop_spec (n : nat) (li : Q) (w : World) :
  acquire_loop n li w =
  match first_yield (poller_yields (env w)) (acquires w) n with
  | None => (Ok false, attempts n li w)
  | Some k => (Ok true, set_pulse_lock true (attempts (S k) li w))
  end.
Proof.
  revert w. induction n as [|n IH]; intros w; [done|].
  cbn [acquire_loop first_yield].
  unfold bind at 1. unfold event_listen_stop, pulse_call_, modify.
  unfold bind, pulse_lock_acquire. cbn [env acquires set_pulse_calls].
  destruct (poller_yields (env w) (acquires w)) eqn:E.
  - reflexivity.
  - rewrite IH. cbn [env acquires set_acquires set_pulse_calls].
    destruct (first_yield (poller_yields (env w)) (S (acquires w)) n); reflexivity.
Qed.

Lemma max_attempts_default :
  Z.to_nat (py_int (5 / loop_interval_default)) = 166.
Proof. reflexivity. Qed.

Lemma wait_bound (x lw : Q) :
  (x <= 166)%Q → (lw + x * loop_interval_default - lw <= 5)%Q.
Proof.
  intros Hx. unfold loop_interval_default. lra.
Qed.

Lemma scope_unfold {A} (n : nat) (li : Q) (body : M A) (w : World) :
  _pulse_hold w = false →
  with_pulse_hold
    (let* got := acquire_loop n li in
     if got then try_finally body pulse_lock_release else raise stuck_error) w =
    match first_yield (poller_yields (env w)) (acquires w) n with
    | None => (Raise stuck_error, set_pulse_hold false (attempts n li (set_pulse_hold true w)))
    | Some k =>
        match body (set_pulse_lock true (attempts (S k) li (set_pulse_hold true w))) with
        | (Blocked, w2) => (Blocked, w2)
        | (r, w2) => (r, release w2)
        end
    end.
Proof.
  intros Hhold. unfold with_pulse_hold. rewrite Hhold. unfold bind at 1.
  rewrite acquire_loop_spec.
  change (env (set_pulse_hold true w)) with (env w).
  change (acquires (set_pulse_hold true w)) with (acquires w).
  destruct (first_yield (poller_yields (env w)) (acquires w) n) as [k|].
  - unfold try_finally.
    destruct (body _) as [[a|e|] w2]; reflexivity.
  - reflexivity.
Qed.

Lemma scope_bounded {A} (n : nat) (li : Q) (body : M A) (w : World) :
  _pulse_hold w = false →
  ∃ (k : nat) (w1 : World),
    k ≤ n ∧
    same_menu w w1 ∧
    acquires w1 = acquires w + k ∧
    (lock_wait w1 == lock_wait w + inject_Z (Z.of_nat k) * li)%Q ∧
    pulse_calls w1 = pulse_calls w ++ replicate k EventListenStop ∧
    ((k = n ∧
      (∀ j, j < n → poller_yields (env w) (acquires w + j) = false) ∧
      _pulse_hold w1 = false ∧ _pulse_lock w1 = _pulse_lock w ∧
      with_pulse_hold
        (let* got := acquire_loop n li in
         if got then try_finally body pulse_lock_release else raise stuck_error) w
      = (Raise stuck_error, w1))
     ∨
     (0 < k ∧ poller_yields (env w) (acquires w + (k - 1)) = true ∧
      _pulse_hold w1 = true ∧ _pulse_lock w1 = true ∧
      with_pulse_hold
        (let* got := acquire_loop n li in
         if got then try_finally body pulse_lock_release else raise stuck_error) w
      = match body w1 with
        | (Blocked, w2) => (Blocked, w2)
        | (r, w2) => (r, release w2)
        end)).
Proof.
  intros Hhold. rewrite (scope_unfold n li body w Hhold).
  destruct (first_yield (poller_yields (env w)) (acquires w) n) as [k|] eqn:E.
  - apply first_yield_Some in E as (Hk & Hy & _).
    destruct (attempts_fields (S k) li (set_pulse_hold true w))
      as (Hm & Ha & Hw & Hc & Hh & Hl).
    exists (S k), (set_pulse_lock true (attempts (S k) li (set_pulse_hold true w))).
    split; [lia|]. split; [exact Hm|]. split; [exact Ha|].
    split; [exact Hw|]. split; [exact Hc|].
    right. split; [lia|]. split; [by replace (S k - 1) with k by lia|].
    split; [exact Hh|]. split; reflexivity.
  - pose proof (first_yield_None _ _ _ E) as Hn.
    destruct (attempts_fields n li (set_pulse_hold true w))
      as (Hm & Ha & Hw & Hc & Hh & Hl).
    exists n, (set_pulse_hold false (attempts n li (set_pulse_hold true w))).
    split; [lia|]. split; [exact Hm|]. split; [exact Ha|].
    split; [exact Hw|]. split; [exact Hc|].
    left. split; [reflexivity|]. split; [exact Hn|]. split; [reflexivity|].
    split; [exact Hl|]. reflexivity.
Qed.

Lemma update_wakeup_unfold {A} (body : M A) (w : World) :
  update_wakeup body w =
  with_pulse_hold
    (let* got := acquire_loop 166 loop_interval_default in
     if got then try_finally body pulse_lock_release else raise stuck_error) w.
Proof.
  unfold update_wakeup, update_wakeup_.
  change (Qeq_bool loop_interval_default 0) with false. cbv iota.
  by rewrite max_attempts_default.
Qed.

(** C9 (bounded wait for exclusive access).  Entered with [_pulse_hold]
    free, the scope of [update_wakeup] makes [k] timed acquisitions, at
    most 166, each after one [event_listen_stop], and spends at most 5
    seconds in them.  Either all 166 fail, and the scope raises
    [RuntimeError] with both locks as they were; or the last one succeeds,
    the body runs with both locks held, and both are released however the
    body ends.  The scope is blocked only when its body is. *)
Theorem update_wakeup_fail_fast {A} (body : M A) (w : World) :
  _pulse_hold w = false →
  ∃ (k : nat) (w1 : World),
    k ≤ 166 ∧
    same_menu w w1 ∧
    acquires w1 = acquires w + k ∧
    (lock_wait w1 - lock_wait w <= 5)%Q ∧
    pulse_calls w1 = pulse_calls w ++ replicate k EventListenStop ∧
    ((k = 166 ∧
      (∀ j, j < 166 → poller_yields (env w) (acquires w + j) = false) ∧
      _pulse_hold w1 = false ∧ _pulse_lock w1 = _pulse_lock w ∧
      update_wakeup body w = (Raise stuck_error, w1))
     ∨
     (0 < k ∧ poller_yields (env w) (acquires w + (k - 1)) = true ∧
      _pulse_hold w1 = true ∧ _pulse_lock w1 = true ∧
      update_wakeup body w =
        match body w1 with
        | (Blocked, w2) => (Blocked, w2)
        | (r, w2) => (r, release w2)
        end)).
Proof.
  intros Hhold. rewrite update_wakeup_unfold.
  destruct (scope_bounded 166 loop_interval_default body w Hhold)
    as (k & w1 & Hk & Hm & Ha & Hw & Hc & Hcase).
  exists k, w1. split; [exact Hk|]. split; [exact Hm|]. split; [exact Ha|].
  split; [|split; [exact Hc|exact Hcase]].
  rewrite Hw. apply wait_bound. rewrite <- (Zle_Qle _ 166). lia.
Qed.


Lemma admin_eq_refl (w : World) : admin_eq w w.
Proof. by repeat split. Qed.

Lemma admin_eq_trans (w1 w2 w3 : World) :
  admin_eq w1 w2 → admin_eq w2 w3 → admin_eq w1 w3.
Proof.
  unfold admin_eq. intros (?&?&?&?&?&?&?&?&?) (?&?&?&?&?&?&?&?&?).
  repeat split; congruence.
Qed.

Section Preserves.
Variable R : World → World → Prop.
Hypothesis R_refl : ∀ w, R w w.
Hypothesis R_trans : ∀ w1 w2 w3, R w1 w2 → R w2 w3 → R w1 w3.
Hypothesis R_admin : ∀ w w', admin_eq w w' → R w w'.

Lemma preserves_ret {A} (a : A) : preserves R (ret a).
Proof. intros w. apply R_refl. Qed.

Lemma preserves_raise {A} (e : exn) : preserves R (@raise A e).
Proof. intros w. apply R_refl. Qed.

Lemma preserves_get {A} (f : World → A) : preserves R (get f).
Proof. intros w. apply R_refl. Qed.

Lemma preserves_bind {A B} (c : M A) (k : A → M B) :
  preserves R c → (∀ a, preserves R (k a)) → preserves R (bind c k).
Proof.
  intros Hc Hk w. unfold bind. specialize (Hc w).
  destruct (c w) as [[a|e|] w1]; simpl in *; try done.
  eapply R_trans; [exact Hc|apply Hk].
Qed.

Lemma preserves_for_each {A} (l : list A) (f : A → M unit) :
  (∀ x, preserves R (f x)) → preserves R (for_each l f).
Proof.
  intros Hf. induction l as [|x l IH]; simpl.
  - apply preserves_ret.
  - apply preserves_bind; [apply Hf|]. intros _. exact IH.
Qed.

Lemma preserves_try_finally {A} (body : M A) (fin : M unit) :
  preserves R body → preserves R fin → preserves R (try_finally body fin).
Proof.
  intros Hb Hf w. unfold try_finally. specialize (Hb w).
  destruct (body w) as [[a|e|] w1]; simpl in *; try done.
  - eapply R_trans; [exact Hb|].
    apply (preserves_bind fin (fun _ => ret a)); [done|]. intros; apply preserves_ret.
  - eapply R_trans; [exact Hb|].
    apply (preserves_bind fin (fun _ => raise e)); [done|]. intros; apply preserves_raise.
Qed.

Lemma preserves_admin {A} (c : M A) :
  (∀ w, admin_eq w (c w).2) → preserves R c.
Proof. intros H w. apply R_admin, H. Qed.

Lemma preserves_log_debug (m : string) : preserves R (log_debug m).
Proof. apply preserves_admin. intros w. by repeat split. Qed.

Lemma preserves_log_info (m : string) : preserves R (log_info m).
Proof. apply preserves_admin. intros w. by repeat split. Qed.

Lemma preserves_log_error (m : string) : preserves R (log_error m).
Proof. apply preserves_admin. intros w. by repeat split. Qed.

Lemma preserves_pulse_call (c : pulse_call) : preserves R (pulse_call_ c).
Proof.
  apply preserves_admin. intros w. unfold pulse_call_.
  destruct c; try destruct (pulse_error _ _); by repeat split.
Qed.

Lemma preserves_load_global (n : string) : preserves R (load_global n).
Proof. intros w. unfold load_global. case_bool_decide; apply R_refl. Qed.

Lemma preserves_acquire_loop (n : nat) (li : Q) : preserves R (acquire_loop n li).
Proof.
  induction n as [|n IH]; cbn [acquire_loop].
  - apply preserves_ret.
  - apply preserves_bind; [apply preserves_pulse_call|]. intros _.
    apply preserves_bind.
    + apply preserves_admin. intros w. unfold pulse_lock_acquire.
      destruct (poller_yields _ _); by repeat split.
    + intros [|]; [apply preserves_ret|exact IH].
Qed.

Lemma preserves_with_pulse_hold {A} (body : M A) :
  preserves R body → preserves R (with_pulse_hold body).
Proof.
  intros Hb w. unfold with_pulse_hold. destruct (_pulse_hold w); [apply R_refl|].
  specialize (Hb (set_pulse_hold true w)).
  destruct (body _) as [[a|e|] w1]; simpl in *.
  - eapply R_trans; [apply R_admin|eapply R_trans; [exact Hb|apply R_admin]];
      by repeat split.
  - eapply R_trans; [apply R_admin|eapply R_trans; [exact Hb|apply R_admin]];
      by repeat split.
  - eapply R_trans; [apply R_admin|exact Hb]. by repeat split.
Qed.

Lemma preserves_update_wakeup {A} (body : M A) :
  preserves R body → preserves R (update_wakeup body).
Proof.
  intros Hb. unfold update_wakeup, update_wakeup_.
  apply preserves_with_pulse_hold.
  destruct (Qeq_bool _ _); [apply preserves_raise|].
  apply preserves_bind; [apply preserves_acquire_loop|].
  intros [|]; [|apply preserves_raise].
  apply preserves_try_finally; [done|].
  apply preserves_admin. intros w. by repeat split.
Qed.
End Preserves.

Lemma item_frame_refl (P : nat → Prop) (w : World) : item_frame P w w.
Proof. repeat split; eauto. Qed.

Lemma item_frame_trans (P : nat → Prop) (w1 w2 w3 : World) :
  item_frame P w1 w2 → item_frame P w2 w3 → item_frame P w1 w3.
Proof.
  intros (?&?&?&?&?&?&?&?&?&Ho1&Hs1) (?&?&?&?&?&?&?&?&?&Ho2&Hs2).
  repeat split; try congruence.
  - intros j Hj. rewrite Ho2, Ho1; done.
  - intros j x Hx. destruct (Hs1 j x Hx) as (x1 & Hx1 & ? & ? & ?).
    destruct (Hs2 j x1 Hx1) as (x2 & Hx2 & ? & ? & ?).
    exists x2. repeat split; congruence.
Qed.

Lemma item_frame_admin (P : nat → Prop) (w w' : World) :
  admin_eq w w' → item_frame P w w'.
Proof.
  intros (?&?&?&?&Hh&?&?&?&?). repeat split; try congruence.
  intros j x Hx. exists x. by rewrite Hh.
Qed.

Lemma item_frame_mono (P Q : nat → Prop) (w w' : World) :
  (∀ j, P j → Q j) → item_frame P w w' → item_frame Q w w'.
Proof.
  intros HPQ (?&?&?&?&?&?&?&?&?&Ho&Hs). repeat split; try done.
  intros j Hj. apply Ho. naive_solver.
Qed.

Lemma set_item_frame (i : nat) (f : Item → Item) :
  keeps_identity f → preserves (item_frame (λ j, j = i)) (set_item i f).
Proof.
  intros Hf w. unfold set_item, modify. cbn [snd].
  repeat split; try done.
  - cbn [heap set_heap]. by rewrite length_alter.
  - intros j Hj. cbn [heap set_heap]. by rewrite list_lookup_alter_ne.
  - intros j x Hx. cbn [heap set_heap].
    destruct (decide (j = i)) as [->|Hne].
    + exists (f x). rewrite list_lookup_alter_eq, Hx. split; [done|]. apply Hf.
    + exists x. by rewrite list_lookup_alter_ne.
Qed.

Section ItemFrame.
Variable i : nat.
Abbreviation only_i := (item_frame (λ j, j = i)).

Lemma volume_frame : preserves only_i (volume i).
Proof. intros w. apply item_frame_refl. Qed.

Lemma volume_set_frame (v : Q) : preserves only_i (volume_set i v).
Proof.
  unfold volume_set.
  apply (preserves_bind _ (item_frame_trans _)); [apply (preserves_get _ (item_frame_refl _))|]. intros c.
  apply (preserves_bind _ (item_frame_trans _)); [apply (preserves_log_debug _ (item_frame_admin _))|]. intros _.
  apply (preserves_update_wakeup _ (item_frame_refl _) (item_frame_trans _) (item_frame_admin _)).
  unfold volume_set_all_chans.
  apply (preserves_bind _ (item_frame_trans _)); [apply (preserves_get _ (item_frame_refl _))|]. intros o.
  apply (preserves_bind _ (item_frame_trans _)); [|intros _; apply (preserves_pulse_call _ (item_frame_admin _))].
  apply set_item_frame. by intros x.
Qed.

Lemma muted_set_frame (b : bool) : preserves only_i (muted_set i b).
Proof.
  unfold muted_set.
  apply (preserves_bind _ (item_frame_trans _)); [apply (preserves_get _ (item_frame_refl _))|]. intros o.
  apply (preserves_bind _ (item_frame_trans _)); [apply set_item_frame; by intros x|]. intros _.
  apply (preserves_update_wakeup _ (item_frame_refl _) (item_frame_trans _) (item_frame_admin _)).
  apply (preserves_pulse_call _ (item_frame_admin _)).
Qed.

Lemma try_port_set_frame (v : string) : preserves only_i (try_port_set i v).
Proof.
  intros w. unfold try_port_set, port_set, bind, get, load_global, raise, ret.
  repeat (case_bool_decide || case_match || simplify_eq/=);
    try apply item_frame_refl.
  all: try (apply item_frame_admin; by repeat split).
Qed.

Lemma apply_param_frame (kv : string * string) : preserves only_i (apply_param i kv).
Proof.
  destruct kv as [k v]. unfold apply_param.
  destruct (volume_key k) as [g|].
  - apply (preserves_bind _ (item_frame_trans _)); [apply (preserves_get _ (item_frame_refl _))|]. intros f.
    destruct (f v) as [vol|]; [|apply (preserves_raise _ (item_frame_refl _))].
    repeat case_bool_decide.
    + apply (preserves_bind _ (item_frame_trans _)); [apply volume_frame|]. intros cur.
      destruct (negb _); [apply volume_set_frame|apply (preserves_ret _ (item_frame_refl _))].
    + apply (preserves_bind _ (item_frame_trans _)); [apply volume_frame|]. intros cur.
      destruct (negb _); [apply volume_set_frame|apply (preserves_ret _ (item_frame_refl _))].
    + apply volume_set_frame.
  - repeat case_bool_decide.
    + destruct (parse_bool v); [apply (preserves_raise _ (item_frame_refl _))|].
      apply set_item_frame. by intros x.
    + apply try_port_set_frame.
    + apply (preserves_log_debug _ (item_frame_admin _)).
Qed.

Lemma apply_stream_params_frame : preserves only_i (apply_stream_params i).
Proof.
  unfold apply_stream_params.
  apply (preserves_bind _ (item_frame_trans _)); [apply (preserves_get _ (item_frame_refl _))|]. intros secs.
  apply (preserves_for_each _ (item_frame_refl _) (item_frame_trans _)). intros sc. unfold apply_section.
  apply (preserves_bind _ (item_frame_trans _)); [apply (preserves_get _ (item_frame_refl _))|]. intros pl.
  destruct (run_checks _ _ _ _) as [e|[mt params]]; [apply (preserves_raise _ (item_frame_refl _))|].
  destruct mt; [|apply (preserves_ret _ (item_frame_refl _))].
  apply (preserves_bind _ (item_frame_trans _)); [apply (preserves_log_debug _ (item_frame_admin _))|]. intros _.
  apply (preserves_for_each _ (item_frame_refl _) (item_frame_trans _)). apply apply_param_frame.
Qed.
End ItemFrame.



(** * OrderedDict lemmas *)

Lemma od_mem_true {V} (k : string) (d : list (string * V)) :
  od_mem k d = true ↔ k ∈ d.*1.
Proof. unfold od_mem. by rewrite bool_decide_eq_true. Qed.

Lemma od_mem_false {V} (k : string) (d : list (string * V)) :
  od_mem k d = false ↔ k ∉ d.*1.
Proof. unfold od_mem. by rewrite bool_decide_eq_false. Qed.

Lemma od_set_fresh {V} (k : string) (v : V) (d : list (string * V)) :
  k ∉ d.*1 → od_set k v d = d ++ [(k, v)].
Proof.
  induction d as [|[k' v'] d IH]; simpl; [done|].
  intros Hn. apply not_elem_of_cons in Hn as [Hne Hn].
  rewrite bool_decide_eq_false_2 by done. by rewrite IH.
Qed.

Lemma od_get_Some {V} (k : string) (v : V) (d : list (string * V)) :
  NoDup d.*1 → (od_get k d = Some v ↔ (k, v) ∈ d).
Proof.
  induction d as [|[k' v'] d IH]; simpl.
  - intros _. split; [done|]. by intros ?%elem_of_nil.
  - intros Hnd. apply NoDup_cons in Hnd as [Hk Hnd].
    case_bool_decide as E; subst.
    + split.
      * intros [= ->]. apply list_elem_of_here.
      * intros [[= ->]|Hin]%elem_of_cons; [done|].
        exfalso. apply Hk. apply list_elem_of_fmap. by exists (k, v).
    + rewrite IH by done. split.
      * intros Hin. by apply list_elem_of_further.
      * intros [[= -> ->]|Hin]%elem_of_cons; done.
Qed.

Lemma od_get_None {V} (k : string) (d : list (string * V)) :
  od_get k d = None ↔ k ∉ d.*1.
Proof.
  induction d as [|[k' v'] d IH]; simpl.
  - split; [intros _; apply not_elem_of_nil|done].
  - case_bool_decide as E; subst.
    + split; [done|]. intros Hn. exfalso. apply Hn, list_elem_of_here.
    + rewrite IH. rewrite not_elem_of_cons. intuition congruence.
Qed.

Lemma od_rebuild {V} (acc l : list (string * V)) :
  NoDup (acc ++ l).*1 →
  foldl (λ d kv, od_set kv.1 kv.2 d) acc l = acc ++ l.
Proof.
  revert acc. induction l as [|[k v] l IH]; intros acc Hnd; simpl.
  - by rewrite app_nil_r.
  - rewrite od_set_fresh.
    + rewrite IH; rewrite <- app_assoc; done.
    + rewrite fmap_app in Hnd. apply NoDup_app in Hnd as (_ & Hd & _).
      intros Hin. apply (Hd k Hin). simpl. apply list_elem_of_here.
Qed.

(** * Filters *)

Lemma filter_all {A} (P : A → Prop) `{∀ x, Decision (P x)} (l : list A) :
  (∀ x, x ∈ l → P x) → filter P l = l.
Proof.
  induction l as [|x l IH]; intros Hall; [done|].
  rewrite filter_cons_True by (apply Hall, list_elem_of_here).
  f_equal. apply IH. intros y Hy. by apply Hall, list_elem_of_further.
Qed.

Lemma filter_none {A} (P : A → Prop) `{∀ x, Decision (P x)} (l : list A) :
  (∀ x, x ∈ l → ¬ P x) → filter P l = [].
Proof.
  induction l as [|x l IH]; intros Hall; [done|].
  rewrite filter_cons_False by (apply Hall, list_elem_of_here).
  apply IH. intros y Hy. by apply Hall, list_elem_of_further.
Qed.

(** * The deletion loop *)

Lemma set_item_objs_id (w : World) : set_item_objs (item_objs w) w = w.
Proof. by destruct w. Qed.

Lemma del_loop (l : list string) (w : World) :
  NoDup l → (∀ k, k ∈ l → k ∈ (item_objs w).*1) →
  for_each l item_objs_del w
  = (Ok tt, set_item_objs (filter (λ p, p.1 ∉ l) (item_objs w)) w).
Proof.
  revert w. induction l as [|k l IH]; intros w Hnd Hin; simpl.
  - unfold ret. f_equal. rewrite <- (set_item_objs_id w) at 1. f_equal.
    symmetry. apply filter_all. intros. apply not_elem_of_nil.
  - apply NoDup_cons in Hnd as [Hk Hnd].
    unfold bind at 1. unfold item_objs_del at 1. unfold bind, get, modify.
    rewrite (proj2 (od_mem_true k (item_objs w))) by (apply Hin, list_elem_of_here).
    rewrite IH; [|done|].
    + f_equal. cbn [item_objs set_item_objs]. unfold od_del.
      rewrite list_filter_filter. unfold set_item_objs. cbn. f_equal.
      apply list_filter_iff. intros [k' v']. simpl.
      rewrite not_elem_of_cons. tauto.
    + intros k' Hk'. cbn [item_objs set_item_objs]. unfold od_del.
      specialize (Hin k' (list_elem_of_further _ _ _ Hk')).
      apply list_elem_of_fmap in Hin as ([k2 v2] & -> & Hin).
      apply list_elem_of_fmap. exists (k2, v2). split; [done|].
      apply list_elem_of_filter. split; [|done]. simpl. intros ->. done.
Qed.

Lemma split_kinds_spec (w : World) (d sinks streams : list (string * nat))
    (ordered : bool) (S T : list (string * nat)) (o : bool) :
  split_kinds w d sinks streams ordered = (S, T, o) →
  S = sinks ++ filter (λ p, is_sink w p.2) d ∧
  T = streams ++ filter (λ p, ¬ is_sink w p.2) d ∧
  (o = true →
   ordered = true ∧
   (streams ≠ [] → filter (λ p, is_sink w p.2) d = []) ∧
   (streams = [] → d = filter (λ p, is_sink w p.2) d
                       ++ filter (λ p, ¬ is_sink w p.2) d)).
Proof.
  revert sinks streams ordered.
  induction d as [|[k r] d IH]; intros sinks streams ordered; simpl.
  - intros [= <- <- <-]. by rewrite !app_nil_r.
  - case_bool_decide as Hs; intros Hsp; apply IH in Hsp as (-> & -> & Ho).
    + rewrite filter_cons_True by done.
      rewrite (filter_cons_False (λ p, ¬ is_sink w p.2)) by (simpl; tauto).
      rewrite <- app_assoc. split; [done|]. split; [done|].
      intros Hot. destruct (Ho Hot) as (Hord & Hne & He).
      destruct streams as [|s0 streams]; [|done].
      split; [done|]. split; [done|]. intros _. simpl. f_equal. by apply He.
    + rewrite filter_cons_False by done.
      rewrite (filter_cons_True (λ p, ¬ is_sink w p.2)) by done.
      rewrite <- app_assoc. split; [done|]. split; [done|].
      intros Hot. destruct (Ho Hot) as (Hord & Hne & He).
      assert (Hnil : filter (λ p, is_sink w p.2) d = []).
      { apply Hne. by destruct streams. }
      split; [done|]. split; [done|]. intros _. rewrite Hnil. simpl. f_equal.
      symmetry. apply filter_all. intros x Hx Hsx.
      eapply (filter_nil_not_elem_of _ d x); [exact Hnil|exact Hsx|exact Hx].
Qed.

Lemma sort_sinks_first_spec (w : World) :
  NoDup (item_objs w).*1 →
  sort_sinks_first w =
  (Ok tt, set_item_objs (filter (λ p, is_sink w p.2) (item_objs w)
                         ++ filter (λ p, ¬ is_sink w p.2) (item_objs w)) w).
Proof.
  intros Hnd. unfold sort_sinks_first.
  destruct (split_kinds w (item_objs w) [] [] true) as [[S T] o] eqn:E.
  apply split_kinds_spec in E as (-> & -> & Ho). simpl.
  destruct o.
  - destruct (Ho eq_refl) as (_ & _ & He). rewrite <- He by done.
    by rewrite set_item_objs_id.
  - rewrite od_rebuild; [done|]. simpl.
    eapply NoDup_Permutation_proper; [|exact Hnd].
    apply fmap_Permutation, filter_app_complement.
Qed.


Lemma PAMixerMenuItem_spec (obj_t obj_id : string) (o : PulseObj) (w : World) :
  match PAMixerMenuItem obj_t obj_id o w with
  | (Ok r, w') =>
      r = length (heap w) ∧
      (∃ x, heap w' = heap w ++ [x] ∧ t x = obj_t ∧ uid x = obj_id ∧
            obj x = o ∧ hidden x = false) ∧
      admin_eq (set_heap (heap w) w') w
  | (Raise _, w') => admin_eq w w'
  | (Blocked, _) => False
  end.
Proof.
  unfold PAMixerMenuItem, bind, time_monotonic, update_name, bind, _get_name, get, modify, ret.
  cbn [env conf seeds fatal set_clock_reads].
  destruct (name_descriptive _ _ _ _ _) as [[e|nm] s].
  - destruct (fatal w) eqn:Hf.
    + cbn. by repeat split.
    + unfold bind, log_info, modify, _get_name_unique. cbn.
      case_bool_decide; cbn; destruct (dump_stream_params (conf w)); cbn;
        (split; [done|]); (split; [eexists; by repeat split|by repeat split]).
  - cbn. case_bool_decide; cbn; unfold _get_name_unique; cbn;
      destruct (dump_stream_params (conf w)); cbn;
      (split; [done|]); (split; [eexists; by repeat split|by repeat split]).
Qed.

Lemma admin_eq_static (w w' : World) : admin_eq w w' → static_eq w w'.
Proof. intros (?&?&?&?&?&?&?&?&?). by repeat split. Qed.

Lemma static_eq_trans (w1 w2 w3 : World) :
  static_eq w1 w2 → static_eq w2 w3 → static_eq w1 w3.
Proof.
  intros (?&?&?&?&?&?&?) (?&?&?&?&?&?&?). repeat split; congruence.
Qed.

Lemma enum_inv_keys (w0 : World) done st w :
  enum_inv w0 done st w →
  (item_objs w).*1 = (item_objs w0).*1 ++ (id_of <$> fresh_of (item_objs w0).*1 done).
Proof.
  intros (_ & _ & _ & _ & Ho & _). rewrite Ho, fmap_app. f_equal.
  apply fst_zip. rewrite length_fmap, length_seq. done.
Qed.

Lemma update_obj_step (w0 : World) done st w obj_t o st' w' :
  enum_inv w0 done st w →
  update_obj obj_t st o w = (Ok st', w') →
  enum_inv w0 (done ++ [(obj_t, o)]) st' w'.
Proof.
  intros Hinv Hrun. pose proof (enum_inv_keys _ _ _ _ Hinv) as Hkeys.
  destruct Hinv as (Hst & Hnd & Hnew & Hgone & Ho & news & Hh & Hf).
  unfold update_obj, bind, get in Hrun.
  assert (Hx : id_of (obj_t, o) = obj_id_of obj_t o) by done.
  remember (obj_id_of obj_t o) as x eqn:Ex. clear Ex.
  destruct (od_mem x (item_objs w)) eqn:Hmem.
  - (* a known id *)
    case_bool_decide as Hg; [|done]. unfold ret in Hrun.
    injection Hrun as <- <-.
    apply Hgone in Hg as [HK Hd].
    assert (Hfr : fresh_of (item_objs w0).*1 (done ++ [(obj_t, o)])
                  = fresh_of (item_objs w0).*1 done).
    { unfold fresh_of. rewrite filter_app, filter_cons_False, filter_nil, app_nil_r; [done|].
      rewrite Hx. tauto. }
    unfold enum_inv. rewrite Hfr. split; [done|]. split.
    { rewrite fmap_app. apply NoDup_app. split; [done|]. split; [|apply NoDup_singleton].
      intros k Hk [->|[]%elem_of_nil]%elem_of_cons. by rewrite Hx in Hk. }
    split; [done|]. split; [|split; [done|by exists news]].
    intros k. simpl. rewrite elem_of_difference, Hgone, fmap_app, elem_of_app.
    simpl. rewrite Hx, elem_of_singleton, list_elem_of_singleton. tauto.
  - (* a new id *)
    apply od_mem_false in Hmem. rewrite Hkeys in Hmem.
    apply not_elem_of_app in Hmem as [HK Hfx].
    assert (Hd : x ∉ id_of <$> done).
    { intros (p & Hp & Hin)%list_elem_of_fmap. apply Hfx.
      apply list_elem_of_fmap. exists p. split; [done|].
      apply list_elem_of_filter. split; [|done]. by rewrite <- Hp. }
    pose proof (PAMixerMenuItem_spec obj_t x o w) as Hsp.
    destruct (PAMixerMenuItem obj_t x o w) as [[r|e|] w1]; [|done..].
    destruct Hsp as (-> & (it & Hh1 & Ht & Hu & Hob & Hhid) & Hadm).
    unfold modify, ret in Hrun. injection Hrun as <- <-.
    destruct Hadm as (?&?&?&?&_&Ho1&?&?&?). cbn in *.
    assert (Hfr : fresh_of (item_objs w0).*1 (done ++ [(obj_t, o)])
                  = fresh_of (item_objs w0).*1 done ++ [(obj_t, o)]).
    { unfold fresh_of. rewrite filter_app, filter_cons_True, filter_nil; [done|].
      by rewrite Hx. }
    unfold enum_inv. rewrite Hfr. split.
    { destruct Hst as (?&?&?&?&?&?&?). repeat split; cbn; congruence. }
    split.
    { rewrite fmap_app. apply NoDup_app. split; [done|]. split; [|apply NoDup_singleton].
      intros k Hk [->|[]%elem_of_nil]%elem_of_cons. by rewrite Hx in Hk. }
    split.
    { intros k. simpl. rewrite elem_of_union, Hnew, fmap_app, elem_of_app.
      simpl. rewrite Hx, elem_of_singleton, list_elem_of_singleton. tauto. }
    split.
    { intros k. simpl. rewrite Hgone, fmap_app, elem_of_app. simpl.
      rewrite Hx, list_elem_of_singleton. split; [|tauto].
      intros [HkK Hkd]. split; [done|]. intros [?| ->]; done. }
    split.
    { cbn. rewrite <- Ho1, od_set_fresh.
      - rewrite Ho, <- app_assoc. f_equal.
        rewrite fmap_app, length_app. simpl. rewrite seq_app. simpl.
        rewrite zip_with_app by (by rewrite length_fmap, length_seq).
        simpl. rewrite Hx, Hh, length_app. do 4 f_equal.
        symmetry. by eapply Forall2_length.
      - rewrite Hkeys. apply not_elem_of_app. done. }
    exists (news ++ [it]). split.
    { cbn. by rewrite Hh1, Hh, <- app_assoc. }
    apply Forall2_app; [done|]. constructor; [|constructor].
    unfold built_from. by rewrite Hx.
Qed.

Lemma enum_inv_admin_r (w0 : World) done st w w2 :
  enum_inv w0 done st w → admin_eq w w2 → enum_inv w0 done st w2.
Proof.
  intros (Hst & Hnd & Hnew & Hgone & Ho & news & Hh & Hf) Hadm.
  pose proof (admin_eq_static _ _ Hadm) as Hst2.
  destruct Hadm as (?&?&?&?&Hh2&Ho2&?&?&?).
  split; [by eapply static_eq_trans|]. split; [done|]. split; [done|].
  split; [done|]. split; [by rewrite Ho2|]. exists news. by rewrite Hh2.
Qed.

Lemma update_fold (w0 : World) obj_t os done st w st' w' :
  enum_inv w0 done st w →
  fold_m os st (update_obj obj_t) w = (Ok st', w') →
  enum_inv w0 (done ++ ((λ o, (obj_t, o)) <$> os)) st' w'.
Proof.
  revert done st w. induction os as [|o os IH]; intros done st w Hinv; simpl.
  - intros [= <- <-]. by rewrite app_nil_r.
  - unfold bind at 1.
    destruct (update_obj obj_t st o w) as [[st1|e|] w1] eqn:E; [|done..].
    intros Hrun. apply (update_obj_step _ _ _ _ _ _ _ _ Hinv) in E.
    specialize (IH _ _ _ E Hrun). by rewrite <- app_assoc in IH.
Qed.

Lemma enum_inv_start (w0 w : World) :
  admin_eq w0 w → enum_inv w0 [] (∅, list_to_set (item_objs w0).*1) w.
Proof.
  intros Hadm. pose proof (admin_eq_static _ _ Hadm) as Hst.
  destruct Hadm as (?&?&?&?&Hh&Ho&?&?&?).
  split; [done|]. split; [apply NoDup_nil_2|]. split.
  { intros k. simpl. split; [by intros ?%not_elem_of_empty|by intros ?%elem_of_nil]. }
  split.
  { intros k. simpl. rewrite elem_of_list_to_set. split; [|tauto].
    intros Hk. split; [done|]. apply not_elem_of_nil. }
  split; [simpl; by rewrite app_nil_r|].
  exists []. split; [by rewrite app_nil_r|]. constructor.
Qed.

Lemma enumerate_spec (w0 w : World) st' w' :
  admin_eq w0 w →
  enumerate (list_to_set (item_objs w0).*1) w = (Ok st', w') →
  enum_inv w0 (objs w0) st' w'.
Proof.
  intros Hadm. unfold enumerate, bind, pulse_call_, get.
  destruct (pulse_error (env w) (length (pulse_calls w))); [done|].
  set (wa := set_pulse_calls (pulse_calls w ++ [SinkList]) w).
  assert (Ha : admin_eq w0 wa).
  { eapply admin_eq_trans; [exact Hadm|]. by repeat split. }
  destruct (fold_m (sink_list wa) _ _ wa) as [[st1|e|] w1] eqn:E1; [|done..].
  apply (update_fold w0 _ _ [] _ _ _ _ (enum_inv_start _ _ Ha)) in E1.
  destruct (pulse_error (env w1) (length (pulse_calls w1))); [done|].
  set (wb := set_pulse_calls (pulse_calls w1 ++ [SinkInputList]) w1).
  assert (Hb : enum_inv w0 ([] ++ ((λ o, ("sink", o)) <$> sink_list wa)) st1 wb).
  { eapply enum_inv_admin_r; [exact E1|]. by repeat split. }
  intros E2. apply (update_fold w0 _ _ _ _ _ _ _ Hb) in E2.
  unfold objs. destruct Ha as (_&_&_&_&_&_&_&Hs&_).
  destruct Hb as ((_&_&_&_&_&_&Hi)&_).
  cbn [app] in E2. by rewrite Hs, Hi in E2.
Qed.

Lemma update_wakeup_Ok {A} (body : M A) (w : World) (a : A) (w' : World) :
  update_wakeup body w = (Ok a, w') →
  ∃ w1 w2, admin_eq w w1 ∧ body w1 = (Ok a, w2) ∧ w' = release w2.
Proof.
  intros Hrun. destruct (_pulse_hold w) eqn:Hhold.
  { unfold update_wakeup, update_wakeup_, with_pulse_hold in Hrun.
    by rewrite Hhold in Hrun. }
  rewrite update_wakeup_unfold in Hrun.
  rewrite (scope_unfold _ _ _ _ Hhold) in Hrun.
  destruct (first_yield _ _ _) as [k|]; [|done].
  destruct (attempts_fields (S k) loop_interval_default (set_pulse_hold true w))
    as (Hm & _).
  destruct (body _) as [[a'|e|] w2] eqn:E; [|done..].
  injection Hrun as -> <-.
  exists (set_pulse_lock true
            (attempts (S k) loop_interval_default (set_pulse_hold true w))), w2.
  split; [|done].
  destruct Hm as (?&?&?&?&?&?&?&?&?&?&?&?&?&?). by repeat split.
Qed.



Lemma filter_iff_in {A} (P Q : A → Prop) `{∀ x, Decision (P x)} `{∀ x, Decision (Q x)}
    (l : list A) :
  (∀ x, x ∈ l → P x ↔ Q x) → filter P l = filter Q l.
Proof.
  induction l as [|x l IH]; intros Hext; [done|].
  rewrite !filter_cons.
  rewrite IH by (intros y Hy; apply Hext; by apply list_elem_of_further).
  destruct (decide (P x)) as [Hp|Hp], (decide (Q x)) as [Hq|Hq]; try done;
    exfalso; [apply Hq|apply Hp]; by apply (Hext x (list_elem_of_here _ _)).
Qed.

Lemma NoDup_fmap_inj_on {A B} (f : A → B) (l : list A) (x y : A) :
  NoDup (f <$> l) → x ∈ l → y ∈ l → f x = f y → x = y.
Proof.
  induction l as [|a l IH]; simpl; [by intros _ ?%elem_of_nil|].
  intros [Ha Hnd]%NoDup_cons Hx Hy Hf.
  apply elem_of_cons in Hx as [->|Hx], Hy as [->|Hy]; [done| | |by apply IH].
  - exfalso. apply Ha. rewrite Hf. by apply list_elem_of_fmap_2.
  - exfalso. apply Ha. rewrite <- Hf. by apply list_elem_of_fmap_2.
Qed.

Lemma new_entries_fst (w : World) :
  (new_entries w).*1 = id_of <$> fresh_of (item_objs w).*1 (objs w).
Proof. unfold new_entries. apply fst_zip. by rewrite length_fmap, length_seq. Qed.

Lemma new_entries_snd (w : World) :
  (new_entries w).*2
  = seq (length (heap w)) (length (fresh_of (item_objs w).*1 (objs w))).
Proof. unfold new_entries. apply snd_zip. by rewrite length_fmap, length_seq. Qed.

Lemma new_entries_fresh (w : World) (k : string) :
  k ∈ (new_entries w).*1 → (k ∉ (item_objs w).*1) ∧ k ∈ ids w.
Proof.
  rewrite new_entries_fst. intros (p & -> & Hp)%list_elem_of_fmap.
  apply list_elem_of_filter in Hp as [Hn Hin]. split; [done|].
  apply list_elem_of_fmap. by exists p.
Qed.

Lemma new_entries_ref (w : World) (k : string) (r : nat) :
  (k, r) ∈ new_entries w → length (heap w) ≤ r.
Proof.
  intros Hin. assert (Hr : r ∈ (new_entries w).*2).
  { apply list_elem_of_fmap. by exists (k, r). }
  rewrite new_entries_snd in Hr. apply elem_of_seq in Hr. lia.
Qed.

Lemma reconciled_NoDup (w : World) :
  NoDup (item_objs w).*1 → NoDup (ids w) → NoDup (reconciled w).*1.
Proof.
  intros Hnd Hids. unfold reconciled. rewrite fmap_app. apply NoDup_app.
  split; [|split].
  - apply (NoDup_fmap_2_strong fst).
    + intros [k1 r1] [k2 r2] [_ H1]%list_elem_of_filter [_ H2]%list_elem_of_filter Hk.
      simpl in Hk. subst k2. f_equal.
      apply (od_get_Some _ _ _ Hnd) in H1, H2. congruence.
    + apply NoDup_filter. by eapply NoDup_fmap_1.
  - intros k (p & -> & Hp)%list_elem_of_fmap Hnew.
    apply list_elem_of_filter in Hp as [_ Hp].
    apply new_entries_fresh in Hnew as [Hn _]. apply Hn.
    apply list_elem_of_fmap. by exists p.
  - rewrite new_entries_fst. apply NoDup_fmap_2_strong.
    + intros p1 p2 [_ H1]%list_elem_of_filter [_ H2]%list_elem_of_filter Hk.
      by eapply (NoDup_fmap_inj_on id_of (objs w)).
    + apply NoDup_filter. by eapply NoDup_fmap_1.
Qed.

Lemma apply_new_loop (n0 : nat) (l : list string) (w : World) :
  NoDup (item_objs w).*1 →
  (∀ k r, k ∈ l → (k, r) ∈ item_objs w → n0 ≤ r) →
  item_frame (λ j, n0 ≤ j) w (for_each l apply_new w).2.
Proof.
  revert w. induction l as [|k l IH]; intros w Hnd Hl; simpl.
  - apply item_frame_refl.
  - unfold bind at 1.
    assert (H1 : item_frame (λ j, n0 ≤ j) w (apply_new k w).2).
    { unfold apply_new, bind, get.
      destruct (od_get k (item_objs w)) as [r|] eqn:E; [|apply item_frame_refl].
      eapply item_frame_mono; [|apply apply_stream_params_frame].
      intros j ->. apply (Hl k r); [apply list_elem_of_here|].
      by apply od_get_Some. }
    destruct (apply_new k w) as [[[]|e|] w1]; simpl in *; try done.
    eapply item_frame_trans; [exact H1|].
    destruct H1 as (_&_&_&_&_&_&Ho&_). apply IH.
    + by rewrite Ho.
    + intros k' r Hk'. rewrite Ho. apply Hl. by apply list_elem_of_further.
Qed.

Lemma update_pass_spec (w w' : World) :
  NoDup (item_objs w).*1 →
  update_pass w = (Ok tt, w') →
  NoDup (ids w) ∧
  (env w' = env w ∧ globals w' = globals w ∧ conf w' = conf w ∧
   fatal w' = fatal w ∧ sink_list w' = sink_list w ∧
   sink_input_list w' = sink_input_list w) ∧
  length (heap w') = length (heap w) + length (new_entries w) ∧
  (∀ j, j < length (heap w) → heap w' !! j = heap w !! j) ∧
  (∀ i p, fresh_of (item_objs w).*1 (objs w) !! i = Some p →
     ∃ x, heap w' !! (length (heap w) + i) = Some x ∧ t x = p.1 ∧ uid x = id_of p) ∧
  item_objs w' = filter (λ p, is_sink w' p.2) (reconciled w)
                 ++ filter (λ p, ¬ is_sink w' p.2) (reconciled w) ∧
  items w' = filter (λ r, hidden (deref w' r) = false) (item_objs w').*2.
Proof.
  intros Hnd Hrun. unfold update_pass in Hrun.
  unfold bind at 1 in Hrun. unfold modify at 1 in Hrun.
  unfold bind at 1 in Hrun. unfold get at 1 in Hrun.
  change (item_objs (set_update_signal false w)) with (item_objs w) in Hrun.
  unfold bind at 1 in Hrun.
  destruct (update_wakeup _ _) as [[st|e|] w3] eqn:Ewake; [|done..].
  apply update_wakeup_Ok in Ewake as (w1 & w2 & Hadm1 & Eenum & ->).
  assert (Ha : admin_eq w w1).
  { eapply admin_eq_trans; [|exact Hadm1]. by repeat split. }
  apply (enumerate_spec w w1 _ _ Ha) in Eenum.
  assert (Hinv : enum_inv w (objs w) st (release w2)).
  { eapply enum_inv_admin_r; [exact Eenum|]. by repeat split. }
  clear Eenum Ha Hadm1 w1.
  pose proof (enum_inv_keys _ _ _ _ Hinv) as Hkeys.
  destruct Hinv as (Hst & Hids & Hnew & Hgone & Ho & news & Hh & Hf).
  fold (ids w) in Hids. fold (new_entries w) in Ho.
  set (w3 := release w2) in *.
  (* the deletions *)
  unfold bind at 1 in Hrun.
  rewrite del_loop in Hrun; [|apply NoDup_elements|]; cycle 1.
  { intros k Hk%elem_of_elements. apply Hgone in Hk as [Hk _].
    rewrite Hkeys. apply elem_of_app. by left. }
  assert (Hdel : filter (λ p, p.1 ∉ elements st.2) (item_objs w3) = reconciled w).
  { rewrite Ho, filter_app. unfold reconciled. f_equal.
    - apply filter_iff_in. intros [k r] Hin. simpl.
      rewrite elem_of_elements, Hgone. fold (ids w).
      assert (k ∈ (item_objs w).*1) by (apply list_elem_of_fmap; by exists (k, r)).
      destruct (decide (k ∈ ids w)); tauto.
    - apply filter_all. intros [k r] Hin. simpl.
      rewrite elem_of_elements, Hgone.
      assert (Hk : k ∈ (new_entries w).*1) by (apply list_elem_of_fmap; by exists (k, r)).
      apply new_entries_fresh in Hk. tauto. }
  rewrite Hdel in Hrun.
  set (w4 := set_item_objs (reconciled w) w3) in *.
  pose proof (reconciled_NoDup w Hnd Hids) as Hrnd.
  (* the matcher on the new items *)
  unfold bind at 1 in Hrun.
  pose proof (apply_new_loop (length (heap w)) (elements st.1) w4 Hrnd) as Hfr.
  destruct (for_each (elements st.1) apply_new w4) as [[[]|e|] w5]; [|done..].
  simpl in Hfr.
  assert (Hfr' : item_frame (λ j, length (heap w) ≤ j) w4 w5).
  { apply Hfr. intros k r Hk%elem_of_elements Hin.
    change (item_objs w4) with (reconciled w) in Hin. unfold reconciled in Hin.
    apply elem_of_app in Hin as [Hin|Hin]; [|by eapply new_entries_ref].
    exfalso. apply list_elem_of_filter in Hin as [_ Hin].
    apply Hnew in Hk. fold (fresh_of (item_objs w).*1 (objs w)) in Hk.
    rewrite <- new_entries_fst in Hk. apply new_entries_fresh in Hk as [Hk _].
    apply Hk. apply list_elem_of_fmap. by exists (k, r). }
  clear Hfr. destruct Hfr' as (He&Hg&Hc&Hfa&Hsl&Hsi&Ho5&Hi5&Hlen&Hother&Hsame).
  (* sorting and the visible list *)
  unfold bind at 1 in Hrun.
  rewrite sort_sinks_first_spec in Hrun by (by rewrite Ho5).
  unfold rebuild_items, modify in Hrun. injection Hrun as <-.
  rewrite Ho5. change (item_objs w4) with (reconciled w).
  destruct Hst as (Hs1&Hs2&Hs3&Hs4&Hs5&Hs6&Hs7).
  subst w4 w3. unfold release in *.
  cbn in He, Hg, Hc, Hfa, Hsl, Hsi, Hlen, Hother, Hsame, Hh,
         Hs1, Hs2, Hs3, Hs4, Hs5, Hs6, Hs7.
  split; [done|]. split.
  { cbn. repeat split; congruence. }
  split.
  { cbn. rewrite Hlen, Hh, length_app. f_equal.
    unfold new_entries. rewrite length_zip_with, length_fmap, length_seq.
    apply Forall2_length in Hf. lia. }
  split.
  { intros j Hj. cbn. rewrite Hother by lia. rewrite Hh.
    by rewrite lookup_app_l. }
  split; [|split; reflexivity].
  intros i p Hp. destruct (Forall2_lookup_l _ _ _ _ _ Hf Hp) as (x & Hx & Hb).
  destruct (Hsame (length (heap w) + i) x) as (x' & Hx' & Ht & Hu & _).
  { rewrite Hh, lookup_app_r by lia.
    by replace (length (heap w) + i - length (heap w)) with i by lia. }
  exists x'. split; [exact Hx'|]. destruct Hb as (Hbt & Hbu & _).
  split; congruence.
Qed.



(** * List lemmas *)

Lemma filter_idem {A} (P : A → Prop) `{∀ x, Decision (P x)} (l : list A) :
  filter P (filter P l) = filter P l.
Proof. apply filter_all. by intros x [? _]%list_elem_of_filter. Qed.

Lemma filter_neg_pos {A} (P : A → Prop) `{∀ x, Decision (P x)} (l : list A) :
  filter P (filter (λ x, ¬ P x) l) = [].
Proof. apply filter_none. by intros x [? _]%list_elem_of_filter. Qed.

Lemma filter_pos_neg {A} (P : A → Prop) `{∀ x, Decision (P x)} (l : list A) :
  filter (λ x, ¬ P x) (filter P l) = [].
Proof. apply filter_none. intros x [? _]%list_elem_of_filter. tauto. Qed.

Lemma sublist_StronglySorted {A} (R : relation A) (l1 l2 : list A) :
  l1 `sublist_of` l2 → StronglySorted R l2 → StronglySorted R l1.
Proof.
  induction 1 as [|x l1 l2 Hs IH|x l1 l2 Hs IH]; intros Hsort; [done| |].
  - apply StronglySorted_cons in Hsort as [Hall Hsort].
    apply StronglySorted_cons. split; [|by apply IH].
    rewrite Forall_forall in *. intros y Hy. apply Hall.
    by eapply elem_of_sublist.
  - apply StronglySorted_cons in Hsort as [_ Hsort]. by apply IH.
Qed.

Lemma zip_seq_sorted (ks : list string) (a n : nat) :
  StronglySorted ref_lt (zip ks (seq a n)).
Proof.
  revert a n. induction ks as [|k ks IH]; intros a n; [constructor|].
  destruct n as [|n]; [constructor|]. simpl.
  apply StronglySorted_cons. split; [|apply IH].
  apply Forall_forall. intros [k' r] Hin.
  apply elem_of_zip_r in Hin. apply elem_of_seq in Hin. unfold ref_lt. simpl. lia.
Qed.

Lemma menu_ok_init (e : Env) (c : Conf) (f : bool) (s i : list PulseObj) :
  menu_ok (PAMixerMenu e c f s i).
Proof.
  split; simpl; try constructor. by intros k r ?%elem_of_nil.
Qed.

Lemma is_sink_heap (w w' : World) (r : nat) :
  heap w' !! r = heap w !! r → is_sink w' r ↔ is_sink w r.
Proof.
  intros Hr. unfold is_sink, deref. by rewrite !list_lookup_total_alt, Hr.
Qed.

Lemma deref_lookup (w : World) (r : nat) (x : Item) :
  heap w !! r = Some x → deref w r = x.
Proof. intros Hr. unfold deref. by rewrite list_lookup_total_alt, Hr. Qed.

(** Kinds do not change under a frame. *)
Lemma item_frame_is_sink (P : nat → Prop) (w w' : World) (r : nat) :
  item_frame P w w' → is_sink w' r ↔ is_sink w r.
Proof.
  intros (_&_&_&_&_&_&_&_&Hlen&_&Hsame). unfold is_sink, deref.
  rewrite !list_lookup_total_alt.
  destruct (heap w !! r) as [x|] eqn:E.
  - destruct (Hsame r x E) as (x' & -> & Ht & _). simpl. by rewrite Ht.
  - apply lookup_ge_None in E. rewrite <- Hlen in E.
    apply lookup_ge_None in E. by rewrite E.
Qed.

Lemma item_frame_menu_ok (P : nat → Prop) (w w' : World) :
  item_frame P w w' → menu_ok w → menu_ok w'.
Proof.
  intros Hfr [Hnd Hrefs Hs Ht Hf Hi Hg].
  assert (Hsink : ∀ p, sink_entry w' p ↔ sink_entry w p).
  { intros p. by eapply item_frame_is_sink. }
  assert (Hnsink : ∀ p, ¬ sink_entry w' p ↔ ¬ sink_entry w p).
  { intros p. by rewrite Hsink. }
  destruct Hfr as (_&Hgl&_&_&_&_&Ho&Hit&_&_&Hsame).
  split; rewrite ?Ho, ?Hit, ?Hgl, ?(list_filter_iff _ _ _ Hsink),
    ?(list_filter_iff _ _ _ Hnsink); try done.
  intros k r Hin. destruct (Hrefs k r Hin) as (x & Hx & Hu & Hk).
  destruct (Hsame r x Hx) as (x' & Hx' & Ht' & Hu' & _).
  exists x'. rewrite Ht', Hu'. done.
Qed.

Lemma objs_kind (w : World) (p : string * PulseObj) :
  p ∈ objs w → p.1 = "sink" ∨ p.1 = "stream".
Proof.
  unfold objs. intros [Hp|Hp]%elem_of_app;
    apply list_elem_of_fmap in Hp as (o & -> & _); auto.
Qed.

Lemma new_entries_lookup (w : World) (k : string) (r : nat) :
  (k, r) ∈ new_entries w →
  ∃ i p, fresh_of (item_objs w).*1 (objs w) !! i = Some p ∧
         id_of p = k ∧ r = length (heap w) + i.
Proof.
  intros Hin. apply list_elem_of_lookup in Hin as [i Hi].
  unfold new_entries in Hi.
  apply lookup_zip_with_Some in Hi as (k' & r' & [= <- <-] & Hk & Hr).
  apply list_lookup_fmap_Some in Hk as (p & -> & Hp).
  apply lookup_seq in Hr as [-> _]. by exists i, p.
Qed.

Lemma sorted_reconciled (w : World) (Q Q' : string * nat → Prop)
    `{∀ p, Decision (Q p)} `{∀ p, Decision (Q' p)} :
  (∀ k r, (k, r) ∈ item_objs w → r < length (heap w)) →
  (∀ p, p ∈ item_objs w → Q' p ↔ Q p) →
  StronglySorted ref_lt (filter Q (item_objs w)) →
  StronglySorted ref_lt (filter Q' (reconciled w)).
Proof.
  intros Hvalid Hext Hsorted. unfold reconciled. rewrite filter_app.
  apply StronglySorted_app_2.
  - intros [k1 r1] [k2 r2] [_ H1]%list_elem_of_filter [_ H2]%list_elem_of_filter.
    apply list_elem_of_filter in H1 as [_ H1].
    apply Hvalid in H1. apply new_entries_ref in H2. unfold ref_lt. simpl. lia.
  - rewrite (filter_iff_in Q' Q).
    + rewrite list_filter_filter.
      rewrite (list_filter_iff _ (λ p, p.1 ∈ ids w ∧ Q p)) by (intros; tauto).
      rewrite <- list_filter_filter.
      eapply sublist_StronglySorted; [apply sublist_filter|done].
    + intros p [_ Hp]%list_elem_of_filter. by apply Hext.
  - eapply sublist_StronglySorted; [apply sublist_filter|].
    apply zip_seq_sorted.
Qed.

Lemma update_pass_menu_ok (w w' : World) :
  menu_ok w → update_pass w = (Ok tt, w') → menu_ok w'.
Proof.
  intros [Hnd Hrefs Hs Ht Hf Hi Hg] Hrun.
  destruct (update_pass_spec w w' Hnd Hrun)
    as (Hids & (_ & Hgl & _) & Hlen & Hold & Hnew & Hobjs & Hitems).
  assert (Hvalid : ∀ k r, (k, r) ∈ item_objs w → r < length (heap w)).
  { intros k r Hin. destruct (Hrefs k r Hin) as (x & Hx & _).
    by eapply lookup_lt_Some. }
  assert (Hext : ∀ p, p ∈ item_objs w → sink_entry w' p ↔ sink_entry w p).
  { intros [k r] Hin. apply is_sink_heap. simpl. apply Hold. by eapply Hvalid. }
  pose proof (reconciled_NoDup w Hnd Hids) as Hrnd.
  change (λ p : string * nat, is_sink w' p.2) with (sink_entry w') in Hobjs.
  change (λ p : string * nat, ¬ is_sink w' p.2)
    with (λ p : string * nat, ¬ sink_entry w' p) in Hobjs.
  assert (Hfs : filter (sink_entry w') (item_objs w')
                = filter (sink_entry w') (reconciled w)).
  { by rewrite Hobjs, filter_app, filter_idem, filter_neg_pos, app_nil_r. }
  assert (Hfn : filter (λ p, ¬ sink_entry w' p) (item_objs w')
                = filter (λ p, ¬ sink_entry w' p) (reconciled w)).
  { by rewrite Hobjs, filter_app, filter_pos_neg, filter_idem. }
  split.
  - rewrite Hobjs. eapply NoDup_Permutation_proper; [|exact Hrnd].
    apply fmap_Permutation, filter_app_complement.
  - intros k r Hin. rewrite Hobjs in Hin.
    assert (Hin' : (k, r) ∈ reconciled w).
    { apply elem_of_app in Hin as [Hin|Hin];
        by apply list_elem_of_filter in Hin as [_ Hin]. }
    clear Hin. unfold reconciled in Hin'.
    apply elem_of_app in Hin' as [Hin|Hin].
    + apply list_elem_of_filter in Hin as [_ Hin].
      destruct (Hrefs k r Hin) as (x & Hx & Hu & Hk).
      exists x. rewrite Hold by (by eapply lookup_lt_Some). done.
    + apply new_entries_lookup in Hin as (i & p & Hp & <- & ->).
      destruct (Hnew i p Hp) as (x & Hx & Htx & Hux).
      exists x. split; [done|]. split; [done|]. rewrite Htx.
      apply (objs_kind w). by eapply list_elem_of_filter, list_elem_of_lookup_2.
  - rewrite Hfs. by apply (sorted_reconciled w (sink_entry w) (sink_entry w')).
  - rewrite Hfn.
    apply (sorted_reconciled w (λ p, ¬ sink_entry w p) (λ p, ¬ sink_entry w' p));
      [done| |done].
    intros p Hp. by rewrite Hext.
  - by rewrite Hfs, Hfn.
  - rewrite Hitems. apply sublist_filter.
  - by rewrite Hgl.
Qed.

Lemma menu_ok_ext (w w' : World) :
  heap w' = heap w → item_objs w' = item_objs w → items w' = items w →
  globals w' = globals w → menu_ok w → menu_ok w'.
Proof.
  intros Hh Ho Hi Hgl [Hnd Hrefs Hs Ht Hf Hsub Hg].
  assert (Hsink : ∀ p, sink_entry w' p ↔ sink_entry w p).
  { intros p. apply is_sink_heap. by rewrite Hh. }
  assert (Hnsink : ∀ p, ¬ sink_entry w' p ↔ ¬ sink_entry w p).
  { intros p. by rewrite Hsink. }
  split; rewrite ?Ho, ?Hi, ?Hh, ?Hgl, ?(list_filter_iff _ _ _ Hsink),
    ?(list_filter_iff _ _ _ Hnsink); done.
Qed.

Lemma update_while_menu_ok (evs : list interference) (w w' : World) :
  menu_ok w → update_while evs w = (Ok tt, w') → menu_ok w'.
Proof.
  revert w. induction evs as [|ev evs IH]; intros w Hok; cbn [update_while].
  - unfold bind. destruct (update_pass w) as [[[]|e|] w1] eqn:E; [|done..].
    intros [= <-]. by eapply update_pass_menu_ok.
  - unfold bind at 1. destruct (update_pass w) as [[[]|e|] w1] eqn:E; [|done..].
    apply (update_pass_menu_ok _ _ Hok) in E.
    unfold bind, interfere, bind, modify, update_wakeup_handler, modify, get, ret.
    destruct (wakeup ev); cbn.
    + apply IH. by apply (menu_ok_ext w1).
    + destruct (_update_signal w1).
      * apply IH. by apply (menu_ok_ext w1).
      * intros [= <-]. by apply (menu_ok_ext w1).
Qed.

Lemma update_menu_ok (evs : list interference) (w w' : World) :
  menu_ok w → update evs w = (Ok tt, w') → menu_ok w'.
Proof.
  intros Hok. unfold update, bind, modify.
  destruct (update_while evs _) as [[[]|e|] w1] eqn:E; [|done..].
  intros [= <-]. apply update_while_menu_ok in E.
  - by apply (menu_ok_ext w1).
  - by apply (menu_ok_ext w).
Qed.

Lemma volume_change_frame (i : nat) (d : Q) :
  preserves (item_frame (λ j, j = i)) (volume_change i d).
Proof.
  unfold volume_change.
  do 4 (apply (preserves_bind _ (item_frame_trans _));
        [first [apply volume_frame
               |apply (preserves_log_debug _ (item_frame_admin _))]|intros ?]).
  apply volume_set_frame.
Qed.

Lemma muted_toggle_frame (i : nat) :
  preserves (item_frame (λ j, j = i)) (muted_toggle i).
Proof.
  unfold muted_toggle.
  apply (preserves_bind _ (item_frame_trans _)).
  - apply (preserves_get _ (item_frame_refl _)).
  - intros b. apply muted_set_frame.
Qed.

Lemma step_menu_ok (w w' : World) : step w w' → menu_ok w → menu_ok w'.
Proof.
  destruct 1 as [evs w w' Hup|s i w|i v w|i d w|i b w|i w]; intros Hok.
  - by eapply update_menu_ok.
  - by apply (menu_ok_ext w).
  - eapply item_frame_menu_ok; [apply volume_set_frame|done].
  - eapply item_frame_menu_ok; [apply volume_change_frame|done].
  - eapply item_frame_menu_ok; [apply muted_set_frame|done].
  - eapply item_frame_menu_ok; [apply muted_toggle_frame|done].
Qed.

Lemma reachable_menu_ok (w : World) : reachable w → menu_ok w.
Proof.
  intros (e & c & f & s & i & Hrtc).
  revert w Hrtc. apply (rtc_ind_r (λ w, menu_ok w)).
  - apply menu_ok_init.
  - intros w1 w2 _ Hstep IH. by eapply step_menu_ok.
Qed.


Lemma ex_first_run : update [] ex_start = (Ok tt, ex_first).
Proof. vm_compute. reflexivity. Qed.

Lemma ex_second_run : update_pass ex_changed = (Ok tt, ex_second).
Proof. vm_compute. reflexivity. Qed.

Lemma ex_second_objs :
  item_objs ex_second = [("sink-0", 0); ("sink-1", 3); ("stream-7", 1); ("stream-9", 4)]
  ∧ items ex_second = [0; 3; 1; 4].
Proof. vm_compute. done. Qed.

(** * The refresh as a difference *)

Lemma reconciled_keys (w : World) (k : string) :
  k ∈ (reconciled w).*1 ↔ k ∈ ids w.
Proof.
  unfold reconciled. rewrite fmap_app, elem_of_app. split.
  - intros [Hk|Hk].
    + apply list_elem_of_fmap in Hk as ([k' r] & -> & Hin).
      by apply list_elem_of_filter in Hin as [Hin _].
    + by apply new_entries_fresh in Hk as [_ Hk].
  - intros Hk. destruct (decide (k ∈ (item_objs w).*1)) as [Hold|Hnew].
    + left. apply list_elem_of_fmap in Hold as ([k' r] & -> & Hin).
      apply list_elem_of_fmap. exists (k', r). split; [done|].
      by apply list_elem_of_filter.
    + right. rewrite new_entries_fst.
      apply list_elem_of_fmap in Hk as (p & -> & Hp).
      apply list_elem_of_fmap. exists p. split; [done|].
      by apply list_elem_of_filter.
Qed.

Lemma update_pass_entries (w w' : World) :
  NoDup (item_objs w).*1 → update_pass w = (Ok tt, w') →
  ∀ p, p ∈ item_objs w' ↔ p ∈ reconciled w.
Proof.
  intros Hnd Hrun p.
  destruct (update_pass_spec w w' Hnd Hrun) as (_ & _ & _ & _ & _ & -> & _).
  by rewrite filter_app_complement.
Qed.

Lemma update_pass_keys (w w' : World) :
  NoDup (item_objs w).*1 → update_pass w = (Ok tt, w') →
  ∀ k, k ∈ (item_objs w').*1 ↔ k ∈ ids w.
Proof.
  intros Hnd Hrun k. rewrite <- reconciled_keys.
  destruct (update_pass_spec w w' Hnd Hrun) as (_ & _ & _ & _ & _ & -> & _).
  by rewrite filter_app_complement.
Qed.

(** An entry whose id the server still enumerates stays, with the item it
    refers to untouched. *)
Lemma update_pass_retained (w w' : World) (k : string) (r : nat) :
  menu_ok w → update_pass w = (Ok tt, w') →
  (k, r) ∈ item_objs w → k ∈ ids w →
  (k, r) ∈ item_objs w' ∧ heap w' !! r = heap w !! r ∧ deref w' r = deref w r.
Proof.
  intros Hok Hrun Hin Hk.
  pose proof (ok_nodup w Hok) as Hnd.
  destruct (ok_refs w Hok k r Hin) as (x & Hx & _).
  destruct (update_pass_spec w w' Hnd Hrun) as (_ & _ & _ & Hold & _).
  assert (Hr : heap w' !! r = heap w !! r).
  { apply Hold. by eapply lookup_lt_Some. }
  split; [|split; [done|]].
  - apply (update_pass_entries w w' Hnd Hrun). unfold reconciled.
    apply elem_of_app. left. by apply list_elem_of_filter.
  - unfold deref. by rewrite !list_lookup_total_alt, Hr.
Qed.

(** An id the menu has not had gets an item built in this pass. *)
Lemma update_pass_new (w w' : World) (k : string) :
  NoDup (item_objs w).*1 → update_pass w = (Ok tt, w') →
  k ∈ ids w → k ∉ (item_objs w).*1 →
  ∃ r x, (k, r) ∈ item_objs w' ∧ heap w !! r = None ∧
         heap w' !! r = Some x ∧ uid x = k.
Proof.
  intros Hnd Hrun Hk Hnew.
  assert (Hin : k ∈ (new_entries w).*1).
  { apply reconciled_keys in Hk. unfold reconciled in Hk.
    rewrite fmap_app, elem_of_app in Hk. destruct Hk as [Hk|Hk]; [|done].
    apply list_elem_of_fmap in Hk as ([k' r] & -> & Hin).
    apply list_elem_of_filter in Hin as [_ Hin]. destruct Hnew.
    apply list_elem_of_fmap. by exists (k', r). }
  apply list_elem_of_fmap in Hin as ([k' r] & -> & Hin). simpl.
  destruct (update_pass_spec w w' Hnd Hrun) as (_ & _ & _ & _ & Hfresh & _).
  pose proof (new_entries_lookup w k' r Hin) as (i & p & Hp & <- & ->).
  destruct (Hfresh i p Hp) as (x & Hx & _ & Hu).
  exists (length (heap w) + i), x. split; [|split; [|done]].
  - apply (update_pass_entries w w' Hnd Hrun). unfold reconciled.
    apply elem_of_app. by right.
  - apply lookup_ge_None. lia.
Qed.

Lemma update_pass_NoDup (w w' : World) :
  NoDup (item_objs w).*1 → update_pass w = (Ok tt, w') →
  NoDup (item_objs w').*1.
Proof.
  intros Hnd Hrun.
  destruct (update_pass_spec w w' Hnd Hrun) as (Hids & _ & _ & _ & _ & -> & _).
  eapply NoDup_Permutation_proper; [|exact (reconciled_NoDup w Hnd Hids)].
  apply fmap_Permutation, filter_app_complement.
Qed.

(** C2 (the refresh as a difference).  Take any state [w] that the menu
    can reach and one pass of [update] that ends normally in [w'].  Then
    - the keys of [item_objs] are exactly the ids that the server
      enumerated, each of them once;
    - an id that was known and is enumerated again keeps its reference, and
      the item behind the reference is the same in every field, its
      [hidden] flag and its [created_ts] among them;
    - an id that was known and is not enumerated has left the dictionary;
    - an id that was not known refers to an item that did not exist before
      the pass and that carries the id. *)
Theorem refresh_diff (w w' : World) :
  reachable w → update_pass w = (Ok tt, w') →
  (∀ k, k ∈ (item_objs w').*1 ↔ k ∈ ids w) ∧
  NoDup (item_objs w').*1 ∧
  (∀ k r, (k, r) ∈ item_objs w → k ∈ ids w →
     (k, r) ∈ item_objs w' ∧ deref w' r = deref w r ∧
     hidden (deref w' r) = hidden (deref w r) ∧
     created_ts (deref w' r) = created_ts (deref w r)) ∧
  (∀ k, k ∈ (item_objs w).*1 → k ∉ ids w → k ∉ (item_objs w').*1) ∧
  (∀ k, k ∈ ids w → k ∉ (item_objs w).*1 →
     ∃ r x, (k, r) ∈ item_objs w' ∧ heap w !! r = None ∧
            heap w' !! r = Some x ∧ uid x = k).
Proof.
  intros Hok%reachable_menu_ok Hrun.
  pose proof (ok_nodup w Hok) as Hnd.
  split; [|split; [|split; [|split]]].
  - by apply update_pass_keys.
  - by eapply update_pass_NoDup.
  - intros k r Hin Hk.
    destruct (update_pass_retained w w' k r Hok Hrun Hin Hk) as (? & _ & Heq).
    by rewrite Heq.
  - intros k _ Hgone Hin. by apply (update_pass_keys w w' Hnd Hrun) in Hin.
  - intros k Hk Hnew. by eapply update_pass_new.
Qed.

Lemma reachable_step (w w' : World) : reachable w → step w w' → reachable w'.
Proof.
  intros (e & c & f & s & i & Hrtc) Hstep. exists e, c, f, s, i.
  by eapply rtc_r.
Defined.

Lemma ex_changed_reachable : reachable ex_changed.
Proof.
  exists ex_env, Conf_default, false, [ex_speakers (1 # 2)], [ex_player; ex_game].
  eapply rtc_l; [apply (step_update []), ex_first_run|].
  apply rtc_once. apply step_server.
Defined.

Lemma refresh_diff_witness :
  reachable ex_changed ∧ update_pass ex_changed = (Ok tt, ex_second) ∧
  (∀ k, k ∈ (item_objs ex_second).*1 ↔ k ∈ ids ex_changed).
Proof.
  split; [exact ex_changed_reachable|]. split; [exact ex_second_run|].
  exact (proj1 (refresh_diff ex_changed ex_second ex_changed_reachable ex_second_run)).
Defined.

(** * The order of the visible list *)

Lemma menu_ok_kinds (w : World) :
  menu_ok w →
  ∃ sinks streams, items w = sinks ++ streams ∧
    Forall (λ r, t (deref w r) = "sink") sinks ∧
    Forall (λ r, t (deref w r) = "stream") streams ∧
    StronglySorted lt sinks ∧ StronglySorted lt streams.
Proof.
  intros [Hnd Hrefs Hs Ht Hf Hsub _].
  rewrite Hf, fmap_app in Hsub.
  apply sublist_app_r in Hsub as (sinks & streams & Hit & Hsk & Hst).
  exists sinks, streams. split; [done|].
  assert (Hsnd : ∀ l : list (string * nat),
             StronglySorted ref_lt l → StronglySorted lt l.*2).
  { intros l. apply StronglySorted_fmap. by intros [? ?] [? ?]. }
  split; [|split; [|split]].
  - apply Forall_forall. intros r Hr.
    apply (elem_of_sublist _ _ _ Hr) in Hsk as Hr'. clear Hr. rename Hr' into Hr.
    apply list_elem_of_fmap in Hr as ([k r'] & -> & Hin).
    by apply list_elem_of_filter in Hin as [Hin _].
  - apply Forall_forall. intros r Hr.
    apply (elem_of_sublist _ _ _ Hr) in Hst as Hr'. clear Hr. rename Hr' into Hr.
    apply list_elem_of_fmap in Hr as ([k r'] & -> & Hin).
    apply list_elem_of_filter in Hin as [Hns Hin].
    destruct (Hrefs k r' Hin) as (x & Hx & _ & [Hk|Hk]).
    + destruct Hns. unfold sink_entry, is_sink. simpl.
      by rewrite (deref_lookup w r' x Hx).
    + simpl. by rewrite (deref_lookup w r' x Hx).
  - eapply sublist_StronglySorted; [exact Hsk|]. by apply Hsnd.
  - eapply sublist_StronglySorted; [exact Hst|]. by apply Hsnd.
Qed.

(** C3 (order of the visible list).  In every state that the menu can
    reach, [items] is a run of items of kind [sink] followed by a run of
    items of kind [stream], and along each run the references increase.
    The reference of an item is its place in the order of construction, so
    each kind is listed in the order in which its items were discovered,
    whatever was added or removed in between. *)
Theorem sinks_first_in_discovery_order (w : World) :
  reachable w →
  ∃ sinks streams, items w = sinks ++ streams ∧
    Forall (λ r, t (deref w r) = "sink") sinks ∧
    Forall (λ r, t (deref w r) = "stream") streams ∧
    StronglySorted lt sinks ∧ StronglySorted lt streams.
Proof. intros Hok%reachable_menu_ok. by apply menu_ok_kinds. Qed.

(** * Distinct ids in the visible list *)

Lemma menu_ok_uids (w : World) : menu_ok w → NoDup (uids w (items w)).
Proof.
  intros [Hnd Hrefs _ _ _ Hsub _].
  assert (Hk : (item_objs w).*1 = uids w (item_objs w).*2).
  { unfold uids. rewrite <- list_fmap_compose. apply list_fmap_ext.
    intros i [k r] Hi. simpl.
    destruct (Hrefs k r) as (x & Hx & Hu & _); [by eapply list_elem_of_lookup_2|].
    by rewrite (deref_lookup w r x Hx). }
  rewrite Hk in Hnd.
  assert (Hs : uids w (items w) `sublist_of` uids w (item_objs w).*2).
  { unfold uids. by apply fmap_sublist. }
  eauto using sublist_NoDup.
Qed.

Lemma reachable_uids (w : World) : reachable w → NoDup (uids w (items w)).
Proof. intros Hok%reachable_menu_ok. by apply menu_ok_uids. Qed.

(** C4, as the code has it.  In every state that the menu can reach,
    [item_after] on the last visible item and [item_before] on the first
    visible item end as [item_default] does; with nothing visible all
    three return [None]; and with something visible and [focus_default]
    one of the two values that [Conf] documents, [item_default] returns a
    visible item, not an exception. *)
Theorem navigation_bounded (w : World) :
  reachable w →
  (∀ x, last (items w) = Some x → item_after w (Some x) = item_default w) ∧
  (∀ x, head (items w) = Some x → item_before w (Some x) = item_default w) ∧
  (items w = [] →
     item_default w = Ok None ∧
     ∀ item, item_after w item = Ok None ∧ item_before w item = Ok None) ∧
  (items w ≠ [] → valid_focus (conf w) →
     ∃ d, item_default w = Ok (Some d) ∧ d ∈ items w).
Proof. intros Hr. by apply navigation_bounded_distinct, reachable_uids. Qed.

(** C5, as stated: after a pass the handle of every retained item would be
    the object that the pass enumerated.  It fails on the menu that has seen
    the speakers at one half and whose server now reports them at one
    quarter: the item still holds the first object. *)
Theorem handle_revalidation_fails :
  ¬ (∀ w w', reachable w → update_pass w = (Ok tt, w') → handles_revalidated w w').
Proof.
  intros H.
  specialize (H ex_changed ex_second ex_changed_reachable ex_second_run
                ("sink", ex_speakers (1 # 4)) 0).
  assert (Hv : value_flat (obj (deref ex_second 0)) = 1 # 2) by (vm_compute; reflexivity).
  rewrite H in Hv.
  - discriminate Hv.
  - vm_compute. apply list_elem_of_here.
  - vm_compute. apply list_elem_of_here.
Qed.

(** C5, as the code has it.  A pass of [update] leaves the [obj] of a
    retained item alone: an id that was known and is enumerated again keeps
    its reference, and the item behind it refers to the object it referred
    to before the pass. *)
Theorem handle_kept_from_construction (w w' : World) (k : string) (r : nat) :
  reachable w → update_pass w = (Ok tt, w') →
  (k, r) ∈ item_objs w → k ∈ ids w →
  (k, r) ∈ item_objs w' ∧ obj (deref w' r) = obj (deref w r).
Proof.
  intros Hok%reachable_menu_ok Hrun Hin Hk.
  destruct (update_pass_retained w w' k r Hok Hrun Hin Hk) as (? & _ & Heq).
  by rewrite Heq.
Qed.

Lemma handle_kept_from_construction_witness :
  reachable ex_changed ∧ update_pass ex_changed = (Ok tt, ex_second) ∧
  ("sink-0", 0) ∈ item_objs ex_changed ∧ "sink-0" ∈ ids ex_changed ∧
  ("sink-0", 0) ∈ item_objs ex_second ∧
  obj (deref ex_second 0) = obj (deref ex_changed 0).
Proof.
  assert (H1 : ("sink-0", 0) ∈ item_objs ex_changed).
  { vm_compute. apply list_elem_of_here. }
  assert (H2 : "sink-0" ∈ ids ex_changed).
  { vm_compute. apply list_elem_of_here. }
  split; [exact ex_changed_reachable|]. split; [exact ex_second_run|].
  split; [exact H1|]. split; [exact H2|].
  exact (handle_kept_from_construction ex_changed ex_second "sink-0" 0
           ex_changed_reachable ex_second_run H1 H2).
Defined.

Lemma ex_second_reachable : reachable ex_second.
Proof.
  apply (reachable_step ex_changed); [exact ex_changed_reachable|].
  apply (step_update []). vm_compute. reflexivity.
Defined.

Lemma sinks_first_in_discovery_order_witness :
  reachable ex_second ∧
  ∃ sinks streams, items ex_second = sinks ++ streams ∧
    Forall (λ r, t (deref ex_second r) = "sink") sinks ∧
    Forall (λ r, t (deref ex_second r) = "stream") streams ∧
    StronglySorted lt sinks ∧ StronglySorted lt streams.
Proof.
  split; [exact ex_second_reachable|].
  exact (sinks_first_in_discovery_order ex_second ex_second_reachable).
Defined.



(** * The display mapping *)

Lemma Qmax0_cases (x : Q) :
  (0 <= Qmax 0 x)%Q ∧ (x <= Qmax 0 x)%Q ∧
  ((x <= 0 ∧ Qmax 0 x == 0) ∨ (0 <= x ∧ Qmax 0 x == x))%Q.
Proof.
  split; [apply Q.le_max_l|]. split; [apply Q.le_max_r|].
  destruct (Qlt_le_dec 0 x) as [H|H].
  - right. split; [lra|]. apply Q.max_r. lra.
  - left. split; [done|]. by apply Q.max_l.
Qed.

Lemma Qmin1_cases (x : Q) :
  (Qmin 1 x <= 1)%Q ∧ (Qmin 1 x <= x)%Q ∧
  ((1 <= x ∧ Qmin 1 x == 1) ∨ (x <= 1 ∧ Qmin 1 x == x))%Q.
Proof.
  split; [apply Q.le_min_l|]. split; [apply Q.le_min_r|].
  destruct (Qlt_le_dec x 1) as [H|H].
  - right. split; [lra|]. apply Q.min_r. lra.
  - left. split; [done|]. by apply Q.min_l.
Qed.

Lemma Qdiv_nonneg (a b : Q) : (0 <= a → 0 < b → 0 <= a / b)%Q.
Proof. intros Ha Hb. apply Qle_shift_div_l; [done|]. lra. Qed.

Lemma volume_read_Ok (c : Conf) (n : Q) :
  (0 < max_volume c)%Q →
  volume_read c n = Ok (Qmin 1 (Qmax 0 (n - min_volume c) / max_volume c)).
Proof.
  intros Hmax. unfold volume_read.
  destruct (Qeq_bool (max_volume c) 0) eqn:E; [|done].
  apply Qeq_bool_eq in E. exfalso; lra.
Qed.

(** C8 (display mapping).  With a positive [max_volume] the [volume]
    getter returns a value between 0 and 1 for every server value: 0 at or
    below [min_volume], 1 at or above [min_volume + max_volume], and the
    affine value in between.  At [max_volume] itself, with a positive
    [min_volume], it returns less than 1. *)
Theorem volume_display_mapping (c : Conf) (n : Q) :
  (0 < max_volume c)%Q →
  ∃ q, volume_read c n = Ok q ∧
    (0 <= q <= 1)%Q ∧
    (n <= min_volume c → q == 0)%Q ∧
    (min_volume c + max_volume c <= n → q == 1)%Q ∧
    (min_volume c <= n <= min_volume c + max_volume c →
       q == (n - min_volume c) / max_volume c)%Q ∧
    (0 < min_volume c → n == max_volume c → q < 1)%Q.
Proof.
  intros Hmax. eexists. split; [by apply volume_read_Ok|].
  set (x := (n - min_volume c)%Q).
  destruct (Qmax0_cases x) as (Hm0 & Hmx & Hm).
  set (m := Qmax 0 x) in *.
  assert (Hd0 : (0 <= m / max_volume c)%Q) by (by apply Qdiv_nonneg).
  destruct (Qmin1_cases (m / max_volume c)) as (Hq1 & Hqd & Hq).
  set (q := Qmin 1 (m / max_volume c)) in *.
  assert (Hq0 : (0 <= q)%Q).
  { destruct Hq as [[_ ->]|[_ ->]]; [lra|done]. }
  split; [by split|]. split; [|split; [|split]].
  - intros Hn. destruct Hm as [[_ Hm]|[Hx Hm]].
    + assert (Hd : (m / max_volume c == 0)%Q).
      { rewrite Hm. unfold Qdiv. ring. }
      destruct Hq as [[H1 _]|[_ ->]]; [lra|done].
    + assert (Hx0 : (x == 0)%Q) by (unfold x in *; lra).
      assert (Hd : (m / max_volume c == 0)%Q).
      { rewrite Hm, Hx0. unfold Qdiv. ring. }
      destruct Hq as [[H1 _]|[_ ->]]; [lra|done].
  - intros Hn. destruct Hq as [[_ ->]|[Hle Hq]]; [done|].
    assert (H1 : (1 <= m / max_volume c)%Q).
    { apply Qle_shift_div_l; [done|]. unfold x in *. lra. }
    rewrite Hq. lra.
  - intros [Hlo Hhi].
    assert (Hmx' : (m == x)%Q).
    { destruct Hm as [[Hx Hm]|[_ Hm]]; [|done]. unfold x in *. lra. }
    assert (Hle : (m / max_volume c <= 1)%Q).
    { apply Qle_shift_div_r; [done|]. unfold x in *. lra. }
    destruct Hq as [[H1 Hq]|[_ Hq]].
    + rewrite Hq. rewrite <- Hmx'. lra.
    + rewrite Hq. by rewrite Hmx'.
  - intros Hmin Hn.
    assert (Hlt : (m / max_volume c < 1)%Q).
    { apply Qlt_shift_div_r; [done|].
      destruct Hm as [[_ Hm]|[_ Hm]]; rewrite Hm; unfold x; lra. }
    lra.
Qed.

Lemma volume_display_mapping_witness :
  (0 < max_volume Conf_default)%Q ∧
  ∃ q, volume_read Conf_default (max_volume Conf_default) = Ok q ∧ (q < 1)%Q.
Proof.
  assert (H : (0 < max_volume Conf_default)%Q) by reflexivity.
  split; [exact H|].
  destruct (volume_display_mapping Conf_default (max_volume Conf_default) H)
    as (q & Hq & _ & _ & _ & _ & Hlt).
  exists q. split; [exact Hq|]. apply Hlt; reflexivity.
Defined.

(** The default configuration shows the server's 1.0 as 99%. *)
Lemma volume_read_default_ceiling :
  volume_read Conf_default (max_volume Conf_default) = Ok (99 # 100).
Proof. reflexivity. Qed.

Lemma module_globals_no_invalid_action : "PAMixerInvalidAction" ∉ module_globals.
Proof. compute_done. Qed.

Lemma port_set_sink (w : World) (i : nat) (v : string) :
  t (deref w i) = "sink" →
  port_set i v w = (Ok tt, w) ∧ try_port_set i v w = (Ok tt, w).
Proof.
  intros Hk. unfold try_port_set, port_set, bind, get.
  rewrite bool_decide_eq_false_2 by (by intros ?). done.
Qed.

Lemma port_set_unbound (w : World) (i : nat) (v : string) :
  "PAMixerInvalidAction" ∉ globals w → t (deref w i) ≠ "sink" →
  port_set i v w = (Raise invalid_action_unbound, w) ∧
  try_port_set i v w = (Raise invalid_action_unbound, w) ∧
  apply_param i ("port", v) w = (Raise invalid_action_unbound, w).
Proof.
  intros Hg Hk.
  assert (Hp : port_set i v w = (Raise invalid_action_unbound, w)).
  { unfold port_set, bind, get, load_global.
    rewrite bool_decide_eq_true_2 by done.
    by rewrite bool_decide_eq_false_2. }
  assert (Ht : try_port_set i v w = (Raise invalid_action_unbound, w)).
  { unfold try_port_set. rewrite Hp. unfold load_global.
    by rewrite bool_decide_eq_false_2. }
  split; [done|]. split; [done|]. exact Ht.
Qed.

(** With the class bound, the handler of the matcher would log the
    condition and go on. *)
Lemma port_set_bound (w : World) (i : nat) (v : string) :
  "PAMixerInvalidAction" ∈ globals w → t (deref w i) ≠ "sink" →
  (∃ msg, port_set i v w = (Raise (PAMixerInvalidAction msg), w)) ∧
  try_port_set i v w
  = (Ok tt, set_log (log w ++ [LogError "Unable to set port for stream"]) w).
Proof.
  intros Hg Hk.
  assert (Hp : port_set i v w
    = (Raise (PAMixerInvalidAction
                "Setting ports is only valid for 'sink'-type streams"), w)).
  { unfold port_set, bind, get, load_global.
    rewrite bool_decide_eq_true_2 by done.
    by rewrite bool_decide_eq_true_2. }
  split; [by eexists|].
  unfold try_port_set. rewrite Hp. unfold load_global.
  by rewrite bool_decide_eq_true_2.
Qed.

(** C6 (setting a port).  In every state that the menu can reach: on an
    item of kind [sink] the [port] setter returns normally, and so does the
    guarded assignment of the matcher.  On an item of any other kind the
    setter ends with [NameError], since the module binds no
    [PAMixerInvalidAction]; the guarded assignment ends with the same
    [NameError], since its [except] clause looks the name up too; and the
    step of the matcher for a [port] parameter ends with it as well, with
    nothing logged. *)
Theorem port_set_outcome (w : World) (i : nat) (v : string) :
  reachable w →
  (t (deref w i) = "sink" →
     port_set i v w = (Ok tt, w) ∧ try_port_set i v w = (Ok tt, w)) ∧
  (t (deref w i) ≠ "sink" →
     port_set i v w = (Raise (NameError "PAMixerInvalidAction"), w) ∧
     try_port_set i v w = (Raise (NameError "PAMixerInvalidAction"), w) ∧
     apply_param i ("port", v) w = (Raise (NameError "PAMixerInvalidAction"), w)).
Proof.
  intros Hok%reachable_menu_ok. split.
  - apply port_set_sink.
  - apply port_set_unbound. rewrite (ok_globals w Hok).
    apply module_globals_no_invalid_action.
Qed.

Lemma ex_first_reachable : reachable ex_first.
Proof.
  exists ex_env, Conf_default, false, [ex_speakers (1 # 2)], [ex_player; ex_game].
  apply rtc_once. apply (step_update []), ex_first_run.
Defined.

Lemma port_set_outcome_witness :
  reachable ex_first ∧ t (deref ex_first 1) ≠ "sink" ∧
  try_port_set 1 "analog-output" ex_first
  = (Raise (NameError "PAMixerInvalidAction"), ex_first).
Proof.
  assert (Hk : t (deref ex_first 1) ≠ "sink") by (vm_compute; discriminate).
  split; [exact ex_first_reachable|]. split; [exact Hk|].
  exact (proj1 (proj2 (proj2 (port_set_outcome ex_first 1 "analog-output"
                                 ex_first_reachable) Hk))).
Defined.

Lemma ex_port_rule_run :
  (update [] ex_port_start).1 = Raise (NameError "PAMixerInvalidAction").
Proof. vm_compute. reflexivity. Qed.

(** The same configuration with sinks only goes through. *)
Lemma ex_port_rule_sink_run :
  (update [] (PAMixerMenu ex_env ex_port_conf false [ex_headset] [])).1 = Ok tt.
Proof. vm_compute. reflexivity. Qed.

(** * Instances *)


Lemma navigation_bounded_witness :
  reachable ex_second ∧
  item_after ex_second (Some 4) = item_default ex_second ∧
  item_before ex_second (Some 0) = item_default ex_second.
Proof.
  split; [exact ex_second_reachable|].
  destruct (navigation_bounded ex_second ex_second_reachable) as (Ha & Hb & _).
  split; [apply Ha|apply Hb]; vm_compute; reflexivity.
Defined.

Lemma navigation_total_witness :
  (∀ i, Some 2 = Some i → uid (deref ex_second i) ∉ uids ex_second (items ex_second)) ∧
  item_after ex_second (Some 2) = item_default ex_second ∧
  item_before ex_second (Some 2) = item_default ex_second.
Proof.
  assert (H : ∀ i, Some 2 = Some i →
                uid (deref ex_second i) ∉ uids ex_second (items ex_second)).
  { intros i [= <-]. compute_done. }
  split; [exact H|].
  destruct (navigation_total ex_second (Some 2) H) as (Ha & Hb & _).
  split; [exact Ha|exact Hb].
Defined.

Lemma match_clause_semantics_witness :
  clause_satisfied (proplist ex_player) "application.name" (equals_pattern "mpv").
Proof.
  apply (proj2 (proj1 (match_clause_semantics (proplist ex_player))
                  "application.name" (equals_pattern "mpv"))).
  vm_compute. reflexivity.
Defined.

Lemma update_wakeup_fail_fast_witness :
  _pulse_hold ex_start = false ∧
  ∃ (k : nat) (w1 : World),
    k ≤ 166 ∧ (lock_wait w1 - lock_wait ex_start <= 5)%Q.
Proof.
  split; [reflexivity|].
  destruct (update_wakeup_fail_fast (ret tt) ex_start eq_refl)
    as (k & w1 & Hk & _ & _ & Hw & _).
  exists k, w1. split; [exact Hk|exact Hw].
Defined.

Lemma ex_stuck_run :
  (update_wakeup (ret tt) ex_stuck).1 = Raise stuck_error ∧
  acquires (update_wakeup (ret tt) ex_stuck).2 = 166 ∧
  _pulse_hold (update_wakeup (ret tt) ex_stuck).2 = false.
Proof. vm_compute. done. Qed.


Lemma ex_odd_reachable : reachable ex_odd.
Proof.
  exists ex_env, ex_odd_conf, false, [ex_headset], [].
  apply rtc_once. apply (step_update []). vm_compute. reflexivity.
Defined.

(** * Laws that hold under a condition only *)


(** C4, as stated: on the last visible item [item_after] would return,
    without an error, in every state with something visible.  It fails in
    the menu with one sink and the [focus_default] [middle], which
    [focus_policies] does not have: [item_after] raises [KeyError]. *)
Theorem navigation_bounded_raises :
  ¬ (∀ (w : World) (x : nat), reachable w → last (items w) = Some x →
       ∃ d, item_after w (Some x) = Ok d).
Proof.
  intros H. destruct (H ex_odd 0 ex_odd_reachable) as (d & Hd).
  - vm_compute. reflexivity.
  - vm_compute in Hd. discriminate Hd.
Qed.

(** C10, as stated: with no item, or with an item whose id no visible item
    has, [item_after] and [item_before] would never raise.  It fails in the
    menu with one sink and the [focus_default] [middle]: called without an
    item, [item_after] raises [KeyError]. *)
Theorem navigation_total_raises :
  ¬ (∀ (w : World) (item : option nat), reachable w →
       (∀ i, item = Some i → uid (deref w i) ∉ uids w (items w)) →
       ∃ r, item_after w item = Ok r ∧ item_before w item = Ok r).
Proof.
  intros H. destruct (H ex_odd None ex_odd_reachable) as (r & Hr & _).
  - intros i Hi. discriminate Hi.
  - vm_compute in Hr. discriminate Hr.
Qed.




Lemma deref_alter (w : World) (i : nat) (f : Item → Item) :
  i < length (heap w) → alter f i (heap w) !!! i = f (deref w i).
Proof.
  intros Hi. apply lookup_lt_is_Some in Hi as [x Hx].
  unfold deref. rewrite !list_lookup_total_alt, list_lookup_alter_eq, Hx. done.
Qed.

(** The scope of [update_wakeup], by its three ways out. *)
Lemma update_wakeup_cases {A} (body : M A) (w : World) :
  (_pulse_hold w = true ∧ update_wakeup body w = (Blocked, w)) ∨
  (_pulse_hold w = false ∧
   ∃ (k : nat) (w1 : World),
     k ≤ 166 ∧ same_menu w w1 ∧
     pulse_calls w1 = pulse_calls w ++ replicate k EventListenStop ∧
     ((k = 166 ∧ update_wakeup body w = (Raise stuck_error, w1))
      ∨ (0 < k ∧
         update_wakeup body w =
           match body w1 with
           | (Blocked, w2) => (Blocked, w2)
           | (r, w2) => (r, release w2)
           end))).
Proof.
  destruct (_pulse_hold w) eqn:Hhold.
  - left. split; [done|].
    unfold update_wakeup, update_wakeup_, with_pulse_hold. by rewrite Hhold.
  - right. split; [done|]. rewrite update_wakeup_unfold.
    destruct (scope_bounded 166 loop_interval_default body w Hhold)
      as (k & w1 & Hk & Hm & _ & _ & Hc & Hcase).
    exists k, w1. split; [exact Hk|]. split; [exact Hm|]. split; [exact Hc|].
    destruct Hcase as [(Hk1 & _ & _ & _ & Hr)|(Hk0 & _ & _ & _ & Hr)].
    + left. split; [exact Hk1|exact Hr].
    + right. split; [exact Hk0|exact Hr].
Qed.

Lemma volume_set_all_chans_run (i : nat) (vol : Q) (w1 : World) :
  volume_set_all_chans i vol w1 = (call_outcome w1, volume_stored i vol w1).
Proof.
  unfold volume_set_all_chans, bind, get, set_item, modify, pulse_call_, call_outcome.
  cbn [env pulse_calls set_heap]. by destruct (pulse_error _ _).
Qed.

(** [volume_set], by its outcome. *)
Lemma volume_set_cases (i : nat) (val : Q) (w : World) :
  let vol := volume_write (conf w) val in
  (∃ w1, volume_set i val w = (call_outcome w1, release (volume_stored i vol w1)) ∧
         heap w1 = heap w ∧ conf w1 = conf w ∧ item_objs w1 = item_objs w ∧
         items w1 = items w ∧ env w1 = env w ∧
         ∃ k, 0 < k ≤ 166 ∧
              pulse_calls w1 = pulse_calls w ++ replicate k EventListenStop)
  ∨ (∃ w', volume_set i val w = (Raise stuck_error, w') ∧ heap w' = heap w ∧
           pulse_calls w' = pulse_calls w ++ replicate 166 EventListenStop)
  ∨ (∃ w', volume_set i val w = (Blocked, w') ∧ heap w' = heap w ∧
           pulse_calls w' = pulse_calls w).
Proof.
  intros vol. unfold volume_set, bind, get, log_debug, modify.
  set (wl := set_log (log w ++ [LogDebug "Setting volume"]) w).
  fold vol.
  destruct (update_wakeup_cases (volume_set_all_chans i vol) wl)
    as [[_ Hr]|[_ (k & w1 & Hk & Hm & Hc & [[-> Hr]|[Hk0 Hr]])]].
  - right. right. exists wl. by rewrite Hr.
  - right. left. exists w1. rewrite Hr.
    destruct Hm as (_&_&_&_&Hh&_). split; [reflexivity|]. split; [exact Hh|exact Hc].
  - left. exists w1.
    destruct Hm as (He&_&Hcf&_&Hh&Ho&Hi&_).
    split; [|split; [exact Hh|split; [exact Hcf|split; [exact Ho|split; [exact Hi|
             split; [exact He|]]]]]].
    + rewrite Hr, volume_set_all_chans_run. unfold call_outcome.
      by destruct (pulse_error _ _).
    + exists k. split; [lia|exact Hc].
Qed.

Lemma release_fields (w : World) :
  heap (release w) = heap w ∧ conf (release w) = conf w ∧
  pulse_calls (release w) = pulse_calls w.
Proof. done. Qed.





(** X2 (the ways out of the volume setter).  When [item.volume = val]
    returns, the item holds the server value
    [min(1, max(0, val)) * max_volume + min_volume] and the last call on
    the client is [volume_set_all_chans] with that value.  When it does not
    return, either that call was made and raised what the setter ends with,
    and the item holds the new value all the same, pulsectl having written
    it before it talks to the server; or the call was not made, no item has
    changed and the only calls made on the client are
    [event_listen_stop]. *)
Theorem volume_set_outcomes (w : World) (i : nat) (val : Q) :
  let r := volume_set i val w in
  let vol := volume_write (conf w) val in
  let stored := alter (with_obj (with_value_flat vol (obj (deref w i)))) i (heap w) in
  let call := VolumeSetAllChans (obj (deref w i)) vol in
  (r.1 = Ok tt ∧ heap r.2 = stored ∧ last (pulse_calls r.2) = Some call)
  ∨
  (r.1 ≠ Ok tt ∧
   ((heap r.2 = stored ∧ last (pulse_calls r.2) = Some call ∧
     ∃ e, r.1 = Raise e ∧
          pulse_error (env w) (length (pulse_calls r.2) - 1) = Some e)
    ∨
    (heap r.2 = heap w ∧
     ∀ c, c ∈ pulse_calls r.2 → c ∈ pulse_calls w ∨ c = EventListenStop))).
Proof.
  intros r vol stored call. subst r stored call.
  destruct (volume_set_cases i val w)
    as [(w1 & Hr & Hh & Hc & _ & _ & He & k & Hk & Hcalls)
       |[(w2 & Hr & Hh & Hc)|(w2 & Hr & Hh & Hc)]];
    rewrite Hr; cbn [fst snd].
  - fold vol.
    assert (Hheap : heap (release (volume_stored i vol w1))
                    = alter (with_obj (with_value_flat vol (obj (deref w i)))) i (heap w)).
    { cbn [heap release volume_stored set_pulse_hold set_pulse_lock
           set_pulse_calls set_heap]. unfold deref. by rewrite Hh. }
    assert (Hcs : pulse_calls (release (volume_stored i vol w1))
                  = pulse_calls w1 ++ [VolumeSetAllChans (obj (deref w i)) vol]).
    { cbn [pulse_calls release volume_stored set_pulse_hold set_pulse_lock
           set_pulse_calls set_heap]. unfold deref. by rewrite Hh. }
    assert (Hlast : last (pulse_calls (release (volume_stored i vol w1)))
                    = Some (VolumeSetAllChans (obj (deref w i)) vol)).
    { by rewrite Hcs, last_snoc. }
    unfold call_outcome. rewrite He.
    destruct (pulse_error (env w) (length (pulse_calls w1))) as [e|] eqn:Ee.
    + right. split; [done|]. left. split; [exact Hheap|]. split; [exact Hlast|].
      exists e. split; [done|]. rewrite Hcs, length_app. cbn [length].
      by replace (length (pulse_calls w1) + 1 - 1) with (length (pulse_calls w1)) by lia.
    + left. by split.
  - right. split; [done|]. right. split; [done|]. intros c. rewrite Hc, elem_of_app.
    intros [?|Hin]; [by left|]. right. by apply elem_of_replicate in Hin as [-> _].
  - right. split; [done|]. right. split; [done|]. intros c. rewrite Hc. by left.
Qed.

Lemma ex_flaky_run :
  (volume_set 0 (1 # 2) ex_flaky).1 = Raise (OtherError "PulseOperationFailed") ∧
  heap ex_flaky = [mkItem "sink" "sink-1" ex_headset false 0 "headset"] ∧
  heap (volume_set 0 (1 # 2) ex_flaky).2
  = [mkItem "sink" "sink-1"
       (with_value_flat (volume_write Conf_default (1 # 2)) ex_headset)
       false 0 "headset"].
Proof. vm_compute. done. Qed.

Lemma volume_set_outcomes_witness :
  let r := volume_set 0 (1 # 2) ex_flaky in
  let vol := volume_write (conf ex_flaky) (1 # 2) in
  let stored :=
    alter (with_obj (with_value_flat vol (obj (deref ex_flaky 0)))) 0 (heap ex_flaky) in
  let call := VolumeSetAllChans (obj (deref ex_flaky 0)) vol in
  (r.1 = Ok tt ∧ heap r.2 = stored ∧ last (pulse_calls r.2) = Some call)
  ∨
  (r.1 ≠ Ok tt ∧
   ((heap r.2 = stored ∧ last (pulse_calls r.2) = Some call ∧
     ∃ e, r.1 = Raise e ∧
          pulse_error (env ex_flaky) (length (pulse_calls r.2) - 1) = Some e)
    ∨
    (heap r.2 = heap ex_flaky ∧
     ∀ c, c ∈ pulse_calls r.2 → c ∈ pulse_calls ex_flaky ∨ c = EventListenStop))).
Proof. exact (volume_set_outcomes ex_flaky 0 (1 # 2)). Defined.

Lemma muted_set_cases (i : nat) (b : bool) (w : World) :
  let o' := with_mute (mute_flag b) (obj (deref w i)) in
  let r := muted_set i b w in
  heap r.2 = alter (with_obj o') i (heap w) ∧
  ((last (pulse_calls r.2) = Some (MuteCall o' (mute_flag b)) ∧
    r.1 = match pulse_error (env w) (length (pulse_calls r.2) - 1) with
          | Some e => Raise e
          | None => Ok tt
          end)
   ∨ (r.1 ≠ Ok tt ∧
      ∀ c, c ∈ pulse_calls r.2 → c ∈ pulse_calls w ∨ c = EventListenStop)).
Proof.
  intros o' r. subst r. unfold muted_set, bind, get, set_item, modify.
  change (if b then 1%Z else 0%Z) with (mute_flag b). fold o'.
  set (ws := set_heap (alter (with_obj o') i (heap w)) w).
  destruct (update_wakeup_cases (pulse_call_ (MuteCall o' (mute o'))) ws)
    as [[_ Hr]|[_ (k & w1 & Hk & Hm & Hc & [[-> Hr]|[Hk0 Hr]])]]; rewrite Hr.
  - split; [done|]. right. split; [done|]. intros c Hc. by left.
  - destruct Hm as (_&_&_&_&Hh&_). split; [exact Hh|]. right. split; [done|].
    intros c. cbn [snd]. rewrite Hc, elem_of_app.
    intros [?|Hin]; [by left|]. right. by apply elem_of_replicate in Hin as [-> _].
  - destruct Hm as (He&_&_&_&Hh&_). unfold pulse_call_.
    change (env ws) with (env w) in He. rewrite He.
    assert (Hn : ∀ c, length (pulse_calls w1 ++ [c]) - 1 = length (pulse_calls w1)).
    { intros c. rewrite length_app. cbn [length]. lia. }
    destruct (pulse_error (env w) (length (pulse_calls w1))) as [e|] eqn:Ee;
      cbn [fst snd heap pulse_calls release set_pulse_hold set_pulse_lock set_pulse_calls];
      (split; [exact Hh|]); left; rewrite last_snoc, Hn, Ee; by destruct b.
Qed.

Lemma muted_read (w : World) (i : nat) :
  muted i w = (Ok (negb (Z.eqb (mute (obj (deref w i))) 0)), w).
Proof. done. Qed.

Lemma muted_set_get (w : World) (i : nat) (b : bool) :
  i < length (heap w) →
  muted i (muted_set i b w).2 = (Ok b, (muted_set i b w).2) ∧
  length (heap (muted_set i b w).2) = length (heap w).
Proof.
  intros Hi. destruct (muted_set_cases i b w) as [Hh _]. cbn zeta in Hh.
  rewrite muted_read. unfold deref. rewrite Hh, deref_alter by done.
  rewrite length_alter. split; [|done]. by destruct b.
Qed.

(** X3 (the mute flag is written before the server is asked).  However
    [item.muted = val] ends, [item.muted] is [val] afterwards.  When it
    returns, the last call on the client is [mute] with the new object and
    its flag, 1 or 0.  When it does not, either that call was made and
    raised what the setter ends with, or it was not made and the only calls
    made on the client are [event_listen_stop]. *)
Theorem muted_set_local_first (w : World) (i : nat) (b : bool) :
  i < length (heap w) →
  let r := muted_set i b w in
  let o' := with_mute (if b then 1 else 0)%Z (obj (deref w i)) in
  muted i r.2 = (Ok b, r.2) ∧
  (r.1 = Ok tt → last (pulse_calls r.2) = Some (MuteCall o' (mute o'))) ∧
  (r.1 ≠ Ok tt →
   (last (pulse_calls r.2) = Some (MuteCall o' (mute o')) ∧
    ∃ e, r.1 = Raise e ∧
         pulse_error (env w) (length (pulse_calls r.2) - 1) = Some e)
   ∨
   (∀ c, c ∈ pulse_calls r.2 → c ∈ pulse_calls w ∨ c = EventListenStop)).
Proof.
  intros Hi r o'. subst r. split; [by apply muted_set_get|].
  assert (Ho : MuteCall o' (mute o')
               = MuteCall (with_mute (mute_flag b) (obj (deref w i))) (mute_flag b))
    by (by destruct b).
  rewrite Ho.
  destruct (muted_set_cases i b w) as [_ [[Hlast Hr]|[Herr Hc]]]; cbn zeta in *.
  - split; [done|]. intros Hne. left. split; [exact Hlast|].
    destruct (pulse_error _ _) as [e|]; [by exists e|done].
  - split; [done|]. intros _. by right.
Qed.

Lemma muted_set_local_first_witness :
  0 < length (heap ex_second) ∧
  muted 0 (muted_set 0 true ex_second).2 = (Ok true, (muted_set 0 true ex_second).2).
Proof.
  assert (H : 0 < length (heap ex_second)) by (vm_compute; lia).
  split; [exact H|].
  exact (proj1 (muted_set_local_first ex_second 0 true H)).
Defined.

(** X4 (toggling).  [muted_toggle] turns [item.muted] into its negation,
    and a second [muted_toggle] turns it back. *)
Theorem muted_toggle_flips (w : World) (i : nat) :
  i < length (heap w) →
  ∃ m, muted i w = (Ok m, w) ∧
    let w1 := (muted_toggle i w).2 in
    let w2 := (muted_toggle i w1).2 in
    muted i w1 = (Ok (negb m), w1) ∧ muted i w2 = (Ok m, w2).
Proof.
  intros Hi. eexists. split; [apply muted_read|]. cbn zeta.
  set (m := negb (Z.eqb (mute (obj (deref w i))) 0)).
  assert (Ht : ∀ w0, muted_toggle i w0
                = muted_set i (negb (negb (Z.eqb (mute (obj (deref w0 i))) 0))) w0).
  { intros w0. reflexivity. }
  rewrite (Ht w). fold m.
  destruct (muted_set_get w i (negb m) Hi) as [H1 Hl].
  split; [exact H1|].
  set (w1 := (muted_set i (negb m) w).2) in *.
  rewrite (Ht w1).
  assert (Hm1 : negb (Z.eqb (mute (obj (deref w1 i))) 0) = negb m).
  { rewrite muted_read in H1. by injection H1. }
  rewrite Hm1, negb_involutive.
  apply muted_set_get. by rewrite Hl.
Qed.

Lemma muted_toggle_flips_witness :
  4 < length (heap ex_second) ∧
  ∃ m, muted 4 ex_second = (Ok m, ex_second) ∧
    let w1 := (muted_toggle 4 ex_second).2 in
    let w2 := (muted_toggle 4 w1).2 in
    muted 4 w1 = (Ok (negb m), w1) ∧ muted 4 w2 = (Ok m, w2).
Proof.
  assert (H : 4 < length (heap ex_second)) by (vm_compute; lia).
  split; [exact H|]. exact (muted_toggle_flips ex_second 4 H).
Defined.

(** * [volume_change] *)



(** * A zero [max_volume] *)

(** X6 (a [max_volume] of zero).  The [volume] getter raises
    [ZeroDivisionError]; [volume_change] raises it when it reads the
    volume, before anything is logged, written or sent. *)
Theorem volume_zero_max (w : World) (i : nat) (delta : Q) :
  (max_volume (conf w) == 0)%Q →
  volume i w = (Raise ZeroDivisionError, w) ∧
  (volume_change i delta w).1 = Raise ZeroDivisionError ∧
  (volume_change i delta w).2 = w.
Proof.
  intros Hz.
  assert (Hv : volume i w = (Raise ZeroDivisionError, w)).
  { unfold volume, volume_read. by rewrite (Qeq_eq_bool _ _ Hz). }
  split; [exact Hv|]. unfold volume_change, bind. by rewrite Hv.
Qed.


Lemma insert_desc_elem {A} (key : A → Q) (x y : A) (l : list A) :
  y ∈ insert_desc key x l ↔ y = x ∨ y ∈ l.
Proof.
  induction l as [|z l IH]; simpl.
  - rewrite list_elem_of_singleton. split; [by left|]. intros [?|?%elem_of_nil]; done.
  - destruct (Qle_bool (key z) (key x)).
    + by rewrite elem_of_cons.
    + rewrite !elem_of_cons, IH. tauto.
Qed.

Lemma sorted_desc_elem {A} (key : A → Q) (y : A) (l : list A) :
  y ∈ sorted_desc key l ↔ y ∈ l.
Proof.
  induction l as [|x l IH]; simpl; [done|].
  by rewrite insert_desc_elem, elem_of_cons, IH.
Qed.

(** The head of the sorted list has the largest key. *)
Lemma insert_desc_head {A} (key : A → Q) (x : A) (l : list A) (h : A) :
  (∀ h0, head l = Some h0 → ∀ y, y ∈ l → (key y <= key h0)%Q) →
  head (insert_desc key x l) = Some h →
  ∀ y, y ∈ insert_desc key x l → (key y <= key h)%Q.
Proof.
  intros Hl. destruct l as [|z l]; simpl.
  - intros [= <-] y Hy%list_elem_of_singleton. subst. apply Qle_refl.
  - specialize (Hl z eq_refl).
    destruct (Qle_bool (key z) (key x)) eqn:E; simpl.
    + apply Qle_bool_iff in E. intros [= <-] y Hy.
      apply elem_of_cons in Hy as [->|Hy]; [apply Qle_refl|].
      eapply Qle_trans; [by apply Hl|done].
    + intros [= <-] y Hy. apply elem_of_cons in Hy as [->|Hy]; [apply Qle_refl|].
      apply insert_desc_elem in Hy as [->|Hy].
      * destruct (Qlt_le_dec (key z) (key x)) as [Hlt|Hle]; [|done].
        apply Qlt_le_weak in Hlt. apply Qle_bool_iff in Hlt. congruence.
      * apply Hl. by apply list_elem_of_further.
Qed.

Lemma sorted_desc_head {A} (key : A → Q) (l : list A) (h : A) :
  head (sorted_desc key l) = Some h →
  ∀ y, y ∈ l → (key y <= key h)%Q.
Proof.
  revert h. induction l as [|x l IH]; intros h; simpl.
  - intros _ y Hy. by apply elem_of_nil in Hy.
  - intros Hh y Hy. apply (insert_desc_head key x (sorted_desc key l) h); [|done|].
    + intros h0 Hh0 y0 Hy0. apply (IH h0 Hh0).
      exact (proj1 (sorted_desc_elem key y0 l) Hy0).
    + apply insert_desc_elem. apply elem_of_cons in Hy as [->|Hy]; [by left|].
      right. exact (proj2 (sorted_desc_elem key y l) Hy).
Qed.

Lemma sorted_desc_nil {A} (key : A → Q) (l : list A) :
  sorted_desc key l = [] ↔ l = [].
Proof.
  split; [|by intros ->]. destruct l as [|x l]; [done|]. simpl.
  destruct (sorted_desc key l) as [|z l']; simpl; [done|].
  by destruct (Qle_bool _ _).
Qed.

(** X7 ([item_newer]).  When [item_newer(ts)] returns an item, the item is
    visible, it was created after [ts], and no visible item was created
    later.  It returns [None] exactly when no visible item was created
    after [ts].  ([ts] is a number here.) *)
Theorem item_newer_newest (w : World) (ts : Q) :
  (∀ r, item_newer w ts = Some r →
     r ∈ items w ∧ (ts < created_ts (deref w r))%Q ∧
     ∀ r', r' ∈ items w → (created_ts (deref w r') <= created_ts (deref w r))%Q) ∧
  (item_newer w ts = None ↔
     ∀ r, r ∈ items w → (created_ts (deref w r) <= ts)%Q).
Proof.
  unfold item_newer.
  set (key := λ r, created_ts (deref w r)).
  destruct (sorted_desc key (items w)) as [|h l] eqn:E.
  - apply sorted_desc_nil in E. rewrite E. split; [done|].
    split; [|done]. intros _ r Hr. by apply elem_of_nil in Hr.
  - assert (Hh : head (sorted_desc key (items w)) = Some h) by (by rewrite E).
    pose proof (sorted_desc_head key (items w) h Hh) as Hmax.
    assert (Hin : h ∈ items w).
    { apply (proj1 (sorted_desc_elem key h (items w))). rewrite E.
      apply list_elem_of_here. }
    fold (key h). destruct (Qle_bool (key h) ts) eqn:Ele; simpl.
    + apply Qle_bool_iff in Ele. split; [done|]. split; [|done].
      intros _ r Hr. eapply Qle_trans; [by apply Hmax|done].
    + split.
      * intros r [= <-]. split; [done|]. split; [|exact Hmax].
        apply Qnot_le_lt. intros Hle. apply Qle_bool_iff in Hle.
        unfold key in Ele. congruence.
      * split; [done|]. intros Hall. specialize (Hall h Hin).
        apply Qle_bool_iff in Hall. unfold key in Ele. congruence.
Qed.

Lemma item_newer_newest_witness :
  item_newer ex_second 2 = Some 4 ∧
  4 ∈ items ex_second ∧ (2 < created_ts (deref ex_second 4))%Q.
Proof.
  assert (H : item_newer ex_second 2 = Some 4) by (vm_compute; reflexivity).
  split; [exact H|].
  destruct (proj1 (item_newer_newest ex_second 2) 4 H) as (H1 & H2 & _).
  split; [exact H1|exact H2].
Defined.

(** * Navigation inside the list *)

Lemma item_after_loop_next (w : World) (i x y : nat) (l1 l2 : list nat) :
  uid (deref w i) = uid (deref w x) →
  uid (deref w x) ∉ uids w l1 →
  item_after_loop w (Looking i) (l1 ++ x :: y :: l2) = Some y.
Proof.
  intros Hi. induction l1 as [|z l1 IH]; simpl.
  - intros _. by rewrite bool_decide_eq_true_2.
  - intros Hn. apply not_elem_of_cons in Hn as [Hne Hn].
    rewrite bool_decide_eq_false_2 by congruence. auto.
Qed.

Lemma item_before_loop_prev (w : World) (i x y : nat) (p : option nat) (l1 l2 : list nat) :
  uid (deref w i) = uid (deref w y) →
  uid (deref w y) ∉ uids w (l1 ++ [x]) →
  item_before_loop w i p (l1 ++ x :: y :: l2) = Some x.
Proof.
  intros Hi. revert p. induction l1 as [|z l1 IH]; intros p; simpl.
  - intros Hn. apply not_elem_of_cons in Hn as [Hne _].
    rewrite bool_decide_eq_false_2 by congruence. simpl.
    by rewrite bool_decide_eq_true_2.
  - intros Hn. apply not_elem_of_cons in Hn as [Hne Hn].
    rewrite bool_decide_eq_false_2 by congruence. auto.
Qed.

Lemma NoDup_uids_split (w : World) (l1 l2 : list nat) (x y : nat) :
  NoDup (uids w (l1 ++ x :: y :: l2)) →
  (uid (deref w x) ∉ uids w l1) ∧ (uid (deref w y) ∉ uids w (l1 ++ [x])).
Proof.
  unfold uids. rewrite !fmap_app, !fmap_cons. intros Hnd.
  apply NoDup_app in Hnd as (_ & Hd & Hnd).
  apply NoDup_cons in Hnd as [Hx Hnd]. apply NoDup_cons in Hnd as [Hy _].
  split.
  - intros Hin. apply (Hd _ Hin). apply list_elem_of_here.
  - intros [Hin|Hin]%elem_of_app.
    + apply (Hd _ Hin). apply list_elem_of_further, list_elem_of_here.
    + apply list_elem_of_singleton in Hin. apply Hx. rewrite <- Hin.
      apply list_elem_of_here.
Qed.

(** X8 ([item_after] inside the list).  In every state that the menu can
    reach, [item_after] on an item that has the id of a visible item other
    than the last returns the visible item that follows it.  The item given
    need not be the visible one: the ids are compared. *)
Theorem item_after_next (w : World) (i x y : nat) (l1 l2 : list nat) :
  reachable w → items w = l1 ++ x :: y :: l2 →
  uid (deref w i) = uid (deref w x) →
  item_after w (Some i) = Ok (Some y).
Proof.
  intros Hr%reachable_uids Hit Hi. unfold item_after. rewrite Hit in Hr |- *.
  apply NoDup_uids_split in Hr as [Hx _].
  by rewrite (item_after_loop_next w i x y l1 l2 Hi Hx).
Qed.

(** X9 ([item_before] inside the list).  In every state that the menu
    can reach, [item_before] on an item that has the id of a visible item
    other than the first returns the visible item before it. *)
Theorem item_before_prev (w : World) (i x y : nat) (l1 l2 : list nat) :
  reachable w → items w = l1 ++ x :: y :: l2 →
  uid (deref w i) = uid (deref w y) →
  item_before w (Some i) = Ok (Some x).
Proof.
  intros Hr%reachable_uids Hit Hi. unfold item_before. rewrite Hit in Hr |- *.
  apply NoDup_uids_split in Hr as [_ Hy].
  by rewrite (item_before_loop_prev w i x y None l1 l2 Hi Hy).
Qed.

(** X10 (forth and back).  In every state that the menu can reach, for a
    visible item [x] other than the last, [item_after] returns a visible
    item on which [item_before] returns [x]. *)
Theorem item_after_before_inverse (w : World) (x : nat) :
  reachable w → x ∈ items w → last (items w) ≠ Some x →
  ∃ y, item_after w (Some x) = Ok (Some y) ∧ y ∈ items w ∧
       item_before w (Some y) = Ok (Some x).
Proof.
  intros Hr Hin Hlast.
  apply list_elem_of_split in Hin as (l1 & l2 & Hit).
  destruct l2 as [|y l2].
  { destruct Hlast. rewrite Hit. by rewrite last_snoc. }
  pose proof (reachable_uids w Hr) as Hnd. rewrite Hit in Hnd.
  apply NoDup_uids_split in Hnd as [Hx Hy].
  exists y. split; [|split].
  - unfold item_after. rewrite Hit.
    by rewrite (item_after_loop_next w x x y l1 l2 eq_refl Hx).
  - rewrite Hit. apply elem_of_app. right.
    apply list_elem_of_further, list_elem_of_here.
  - unfold item_before. rewrite Hit.
    by rewrite (item_before_loop_prev w y x y None l1 l2 eq_refl Hy).
Qed.

Lemma item_after_next_witness :
  reachable ex_second ∧ items ex_second = [0] ++ 3 :: 1 :: [4] ∧
  uid (deref ex_second 3) = uid (deref ex_second 3) ∧
  item_after ex_second (Some 3) = Ok (Some 1).
Proof.
  assert (H : items ex_second = [0] ++ 3 :: 1 :: [4]) by (vm_compute; reflexivity).
  split; [exact ex_second_reachable|]. split; [exact H|]. split; [reflexivity|].
  exact (item_after_next ex_second 3 3 1 [0] [4] ex_second_reachable H eq_refl).
Defined.

Lemma item_before_prev_witness :
  reachable ex_second ∧ items ex_second = [0] ++ 3 :: 1 :: [4] ∧
  uid (deref ex_second 1) = uid (deref ex_second 1) ∧
  item_before ex_second (Some 1) = Ok (Some 3).
Proof.
  assert (H : items ex_second = [0] ++ 3 :: 1 :: [4]) by (vm_compute; reflexivity).
  split; [exact ex_second_reachable|]. split; [exact H|]. split; [reflexivity|].
  exact (item_before_prev ex_second 1 3 1 [0] [4] ex_second_reachable H eq_refl).
Defined.

Lemma item_after_before_inverse_witness :
  reachable ex_second ∧ 0 ∈ items ex_second ∧ last (items ex_second) ≠ Some 0 ∧
  ∃ y, item_after ex_second (Some 0) = Ok (Some y) ∧ y ∈ items ex_second ∧
       item_before ex_second (Some y) = Ok (Some 0).
Proof.
  assert (H1 : 0 ∈ items ex_second) by (vm_compute; apply list_elem_of_here).
  assert (H2 : last (items ex_second) ≠ Some 0) by (vm_compute; discriminate).
  split; [exact ex_second_reachable|]. split; [exact H1|]. split; [exact H2|].
  exact (item_after_before_inverse ex_second 0 ex_second_reachable H1 H2).
Defined.

(** * A [focus_default] that is neither of the two *)

(** X11 (a [focus_default] that is neither [first] nor [last]).  In every
    state that the menu can reach: with nothing visible the navigation
    returns [None] as always; with something visible [item_default] raises
    [KeyError] with the configured value, and so do [item_after] and
    [item_before] wherever they fall back on it: without an item, after
    the last item, before the first one. *)
Theorem item_default_unknown_focus (w : World) :
  reachable w → ¬ valid_focus (conf w) →
  (items w = [] → ∀ item, item_after w item = Ok None ∧ item_before w item = Ok None) ∧
  (items w ≠ [] →
     let err := Raise (KeyError (focus_default (conf w))) in
     item_default w = err ∧
     item_after w None = err ∧ item_before w None = err ∧
     (∀ x, last (items w) = Some x → item_after w (Some x) = err) ∧
     (∀ x, head (items w) = Some x → item_before w (Some x) = err)).
Proof.
  intros Hr%reachable_uids Hv.
  destruct (navigation_bounded_distinct w Hr) as (Ha & Hb & He & _).
  split; [intros Hnil; by apply He|].
  intros Hne. cbn zeta.
  assert (Hd : item_default w = Raise (KeyError (focus_default (conf w)))).
  { unfold item_default, focus_policies. destruct (items w); [done|].
    unfold valid_focus in Hv. repeat case_bool_decide; tauto. }
  split; [exact Hd|]. split; [exact Hd|]. split; [exact Hd|]. split.
  - intros x Hx. by rewrite (Ha x Hx).
  - intros x Hx. by rewrite (Hb x Hx).
Qed.

Lemma item_default_unknown_focus_witness :
  reachable ex_odd ∧ ¬ valid_focus (conf ex_odd) ∧ items ex_odd ≠ [] ∧
  item_default ex_odd = Raise (KeyError "middle").
Proof.
  assert (Hv : ¬ valid_focus (conf ex_odd)).
  { intros [H|H]; vm_compute in H; discriminate H. }
  assert (Hn : items ex_odd ≠ []) by (vm_compute; discriminate).
  split; [exact ex_odd_reachable|]. split; [exact Hv|]. split; [exact Hn|].
  exact (proj1 (proj2 (item_default_unknown_focus ex_odd ex_odd_reachable Hv) Hn)).
Defined.



Lemma str_length_app (a b : string) :
  String.length (a +:+ b) = String.length a + String.length b.
Proof. induction a as [|x a IH]; [done|]. rewrite str_app_cons. simpl. by rewrite IH. Qed.












Lemma run_checks_plain (pl : gmap string string) (checks : list check)
    (mt : bool) (ps : list (string * string)) :
  Forall (λ c, ¬ foreign c) checks →
  ∃ ps', run_checks pl checks mt ps
         = inr (mt && forallb (clause_test pl) checks, ps').
Proof.
  intros Hall. revert mt ps. induction Hall as [|c cs Hc _ IH]; intros mt ps; simpl.
  - exists ps. by rewrite andb_true_r.
  - destruct c as [k v|k v|tg k v]; [| |by destruct Hc].
    + destruct (IH (if mt && negb (re_search v (default "" (pl !! k)))
                    then false else mt) ps) as (ps' & ->).
      exists ps'. cbn [clause_test].
      destruct mt, (re_search v (default "" (pl !! k))); reflexivity.
    + destruct (IH mt (od_set k v ps)) as (ps' & ->). by exists ps'.
Qed.

Lemma run_checks_foreign (pl : gmap string string) (pre post : list check)
    (tag k v : string) (mt : bool) (ps : list (string * string)) :
  Forall (λ c, ¬ foreign c) pre →
  run_checks pl (pre ++ Other tag k v :: post) mt ps = inl (ValueError tag).
Proof.
  intros Hall. revert mt ps. induction Hall as [|c cs Hc _ IH]; intros mt ps; simpl.
  - done.
  - destruct c as [k' v'|k' v'|tg k' v']; [apply IH|apply IH|by destruct Hc].
Qed.

(** X13 (a section that does not match).  When one match clause of a
    section is not satisfied by the item, and no entry of the section has a
    foreign tag, the section does nothing at all: nothing is set, nothing
    is logged, nothing is sent. *)
Theorem unmatched_section_no_effect (i : nat) (sec : string) (checks : list check)
    (k : string) (v : regex) (w : World) :
  Forall (λ c, ¬ foreign c) checks →
  Match k v ∈ checks →
  re_search v (default "" (proplist (obj (deref w i)) !! k)) = false →
  apply_section i (sec, checks) w = (Ok tt, w).
Proof.
  intros Hall Hin Hno. unfold apply_section, bind, get. cbn [snd].
  destruct (run_checks_plain (proplist (obj (deref w i))) checks true [] Hall)
    as (ps & ->).
  assert (Hf : forallb (clause_test (proplist (obj (deref w i)))) checks = false).
  { apply not_true_is_false. rewrite forallb_forall. intros Hf.
    specialize (Hf (Match k v) (proj1 (list_elem_of_In _ _) Hin)).
    simpl in Hf. congruence. }
  by rewrite Hf.
Qed.

(** X14 (an entry that is neither [match] nor [set]).  The section
    raises [ValueError] at the first such entry, whether the clauses before
    it matched or not, and before any parameter is applied. *)
Theorem foreign_tag_raises (i : nat) (sec tag k v : string)
    (pre post : list check) (w : World) :
  Forall (λ c, ¬ foreign c) pre →
  apply_section i (sec, pre ++ Other tag k v :: post) w
  = (Raise (ValueError tag), w).
Proof.
  intros Hall. unfold apply_section, bind, get. cbn [snd].
  by rewrite run_checks_foreign.
Qed.

(** * Volume rules *)


Lemma display_range (x m : Q) :
  (0 < m)%Q → (0 <= Qmin 1 (Qmax 0 x / m) <= 1)%Q.
Proof.
  intros Hm. destruct (Qmax0_cases x) as (H0 & _ & _).
  pose proof (Qdiv_nonneg _ _ H0 Hm) as Hd.
  destruct (Qmin1_cases (Qmax 0 x / m)) as (H1 & _ & [[_ He]|[_ He]]); split; lra.
Qed.

Lemma volume_Ok (w : World) (i : nat) :
  (0 < max_volume (conf w))%Q →
  ∃ q, volume i w = (Ok q, w) ∧ (0 <= q <= 1)%Q.
Proof.
  intros Hmax. eexists. split.
  - unfold volume. by rewrite volume_read_Ok.
  - by apply display_range.
Qed.



(** * What a rule can touch *)

(** X16 (what the matcher can touch).  However [apply_stream_params]
    ends on an item, the configuration, the dictionary, the visible list
    and every other item are as before, no item has been added or removed,
    and the item itself has kept its kind, its id and its creation time. *)
Theorem apply_stream_params_touches_one (i : nat) (w : World) :
  let w' := (apply_stream_params i w).2 in
  conf w' = conf w ∧ item_objs w' = item_objs w ∧ items w' = items w ∧
  sink_list w' = sink_list w ∧ sink_input_list w' = sink_input_list w ∧
  length (heap w') = length (heap w) ∧
  (∀ j, j ≠ i → heap w' !! j = heap w !! j) ∧
  (∀ x, heap w !! i = Some x →
     ∃ x', heap w' !! i = Some x' ∧ t x' = t x ∧ uid x' = uid x ∧
           created_ts x' = created_ts x).
Proof.
  cbn zeta.
  destruct (apply_stream_params_frame i w)
    as (_ & _ & Hc & _ & Hs & Hsi & Ho & Hit & Hl & Hother & Hsame).
  split; [exact Hc|]. split; [exact Ho|]. split; [exact Hit|].
  split; [exact Hs|]. split; [exact Hsi|]. split; [exact Hl|].
  split; [exact Hother|]. intros x Hx. by apply Hsame.
Qed.

Lemma unmatched_section_no_effect_witness :
  Forall (λ c, ¬ foreign c) ex_vlc_rule ∧
  Match "application.name" (equals_pattern "vlc") ∈ ex_vlc_rule ∧
  re_search (equals_pattern "vlc")
    (default "" (proplist (obj (deref ex_second 1)) !! "application.name")) = false ∧
  apply_section 1 ("stream-vlc", ex_vlc_rule) ex_second = (Ok tt, ex_second).
Proof.
  assert (H1 : Forall (λ c, ¬ foreign c) ex_vlc_rule).
  { repeat constructor; by intros []. }
  assert (H2 : Match "application.name" (equals_pattern "vlc") ∈ ex_vlc_rule)
    by apply list_elem_of_here.
  assert (H3 : re_search (equals_pattern "vlc")
                 (default "" (proplist (obj (deref ex_second 1)) !! "application.name"))
               = false) by (vm_compute; reflexivity).
  split; [exact H1|]. split; [exact H2|]. split; [exact H3|].
  exact (unmatched_section_no_effect 1 "stream-vlc" ex_vlc_rule "application.name"
           (equals_pattern "vlc") ex_second H1 H2 H3).
Defined.

Lemma foreign_tag_raises_witness :
  Forall (λ c, ¬ foreign c) ex_vlc_rule ∧
  apply_section 1 ("stream-vlc", ex_vlc_rule ++ Other "unset" "hidden" "" :: []) ex_second
  = (Raise (ValueError "unset"), ex_second).
Proof.
  assert (H1 : Forall (λ c, ¬ foreign c) ex_vlc_rule).
  { repeat constructor; by intros []. }
  split; [exact H1|].
  exact (foreign_tag_raises 1 "stream-vlc" "unset" "hidden" "" ex_vlc_rule []
           ex_second H1).
Defined.



(** * Ids *)

Lemma str_app_inj_l (p a b : string) : p +:+ a = p +:+ b → a = b.
Proof.
  induction p as [|c p IH]; [done|]. rewrite !str_app_cons. intros [= H]. auto.
Qed.

Lemma obj_id_kind_index (t1 t2 : string) (o1 o2 : PulseObj) :
  t1 = "sink" ∨ t1 = "stream" → t2 = "sink" ∨ t2 = "stream" →
  obj_id_of t1 o1 = obj_id_of t2 o2 → t1 = t2 ∧ index o1 = index o2.
Proof.
  unfold obj_id_of. intros [-> | ->] [-> | ->] H.
  - split; [done|]. apply (str_app_inj_l "sink-") in H. by apply (inj pretty).
  - discriminate H.
  - discriminate H.
  - split; [done|]. apply (str_app_inj_l "stream-") in H. by apply (inj pretty).
Qed.

(** X17 (ids).  For the two kinds [sink] and [stream], two objects get
    the same id exactly when they have the same kind and the same index. *)
Theorem obj_id_of_inj (t1 t2 : string) (o1 o2 : PulseObj) :
  t1 = "sink" ∨ t1 = "stream" → t2 = "sink" ∨ t2 = "stream" →
  (obj_id_of t1 o1 = obj_id_of t2 o2 ↔ t1 = t2 ∧ index o1 = index o2).
Proof.
  intros H1 H2. split; [by apply obj_id_kind_index|].
  intros [-> Hi]. unfold obj_id_of. by rewrite Hi.
Qed.

Lemma obj_id_of_inj_witness :
  ("sink" = "sink" ∨ "sink" = "stream") ∧ ("sink" = "sink" ∨ "sink" = "stream") ∧
  (obj_id_of "sink" ex_headset = obj_id_of "sink" ex_headset ↔
   "sink" = "sink" ∧ index ex_headset = index ex_headset).
Proof.
  split; [by left|]. split; [by left|].
  exact (obj_id_of_inj "sink" "sink" ex_headset ex_headset
           (or_introl eq_refl) (or_introl eq_refl)).
Defined.

Lemma ids_NoDup (w : World) :
  NoDup (index <$> sink_list w) → NoDup (index <$> sink_input_list w) →
  NoDup (ids w).
Proof.
  intros Hs Hi. unfold ids, objs. rewrite fmap_app, <- !list_fmap_compose.
  apply NoDup_app. split; [|split].
  - apply (NoDup_fmap_2_strong _). 2: by eapply NoDup_fmap_1.
    intros o1 o2 H1 H2 Heq.
    apply obj_id_kind_index in Heq as [_ Heq]; [|by left..].
    by eapply (NoDup_fmap_inj_on index (sink_list w)).
  - intros k (o1 & -> & _)%list_elem_of_fmap (o2 & Heq & _)%list_elem_of_fmap.
    apply obj_id_kind_index in Heq as [Heq _]; [done|by left|by right].
  - apply (NoDup_fmap_2_strong _). 2: by eapply NoDup_fmap_1.
    intros o1 o2 H1 H2 Heq.
    apply obj_id_kind_index in Heq as [_ Heq]; [|by right..].
    by eapply (NoDup_fmap_inj_on index (sink_input_list w)).
Qed.

(** * When a pass goes through *)

Lemma PAMixerMenuItem_Ok (obj_t obj_id : string) (o : PulseObj) (w : World) :
  fatal w = false → ∃ r w', PAMixerMenuItem obj_t obj_id o w = (Ok r, w').
Proof.
  intros Hf.
  unfold PAMixerMenuItem, bind, time_monotonic, update_name, bind, _get_name, get, modify, ret.
  cbn [env conf seeds fatal set_clock_reads].
  destruct (name_descriptive _ _ _ _ _) as [[e|nm] s].
  - rewrite Hf. unfold bind, log_info, modify, _get_name_unique. cbn.
    case_bool_decide; cbn; destruct (dump_stream_params (conf w)); cbn; eauto.
  - cbn. case_bool_decide; cbn; unfold _get_name_unique; cbn;
      destruct (dump_stream_params (conf w)); cbn; eauto.
Qed.

Lemma update_obj_progress (w0 : World) done st w obj_t o :
  enum_inv w0 done st w → fatal w0 = false →
  id_of (obj_t, o) ∉ id_of <$> done →
  ∃ st' w', update_obj obj_t st o w = (Ok st', w').
Proof.
  intros Hinv Hfat Hnew. pose proof (enum_inv_keys _ _ _ _ Hinv) as Hkeys.
  destruct Hinv as (Hst & Hnd & Hn & Hgone & Ho & news & Hh & Hf).
  unfold update_obj, bind, get.
  assert (Hx : id_of (obj_t, o) = obj_id_of obj_t o) by done.
  remember (obj_id_of obj_t o) as x eqn:Ex. clear Ex. rewrite Hx in Hnew.
  destruct (od_mem x (item_objs w)) eqn:Hmem.
  - apply od_mem_true in Hmem. rewrite Hkeys in Hmem.
    apply elem_of_app in Hmem as [HK|Hfr].
    + rewrite bool_decide_eq_true_2; [unfold ret; eauto|].
      apply Hgone. by split.
    + destruct Hnew. apply list_elem_of_fmap in Hfr as (p & -> & Hp).
      apply list_elem_of_filter in Hp as [_ Hp].
      apply list_elem_of_fmap. by exists p.
  - destruct (PAMixerMenuItem_Ok obj_t x o w) as (r & w1 & ->).
    + destruct Hst as (_&_&_&Hfw&_). congruence.
    + unfold modify, ret. eauto.
Qed.

Lemma update_fold_progress (w0 : World) obj_t os done st w :
  enum_inv w0 done st w → fatal w0 = false →
  NoDup (id_of <$> (done ++ ((λ o, (obj_t, o)) <$> os))) →
  ∃ st' w', fold_m os st (update_obj obj_t) w = (Ok st', w').
Proof.
  revert done st w. induction os as [|o os IH]; intros done st w Hinv Hfat Hnd; simpl.
  - unfold ret. eauto.
  - assert (Hnew : id_of (obj_t, o) ∉ id_of <$> done).
    { rewrite fmap_app in Hnd. apply NoDup_app in Hnd as (_ & Hd & _).
      intros Hin. apply (Hd _ Hin). rewrite fmap_cons. apply list_elem_of_here. }
    destruct (update_obj_progress w0 done st w obj_t o Hinv Hfat Hnew)
      as (st1 & w1 & E).
    unfold bind at 1. rewrite E.
    apply (IH (done ++ [(obj_t, o)])); [by eapply update_obj_step|done|].
    by rewrite <- app_assoc.
Qed.

Lemma enumerate_progress (w0 w : World) :
  admin_eq w0 w → fatal w0 = false → NoDup (ids w0) →
  (∀ n, pulse_error (env w0) n = None) →
  ∃ st' w', enumerate (list_to_set (item_objs w0).*1) w = (Ok st', w').
Proof.
  intros Hadm Hfat Hnd Hpe. unfold enumerate, bind, pulse_call_, get.
  assert (He : env w = env w0) by (by destruct Hadm as (?&_)).
  rewrite He, Hpe.
  set (wa := set_pulse_calls (pulse_calls w ++ [SinkList]) w).
  assert (Ha : admin_eq w0 wa).
  { eapply admin_eq_trans; [exact Hadm|]. by repeat split. }
  assert (Hsl : sink_list wa = sink_list w0) by (by destruct Ha as (_&_&_&_&_&_&_&?&_)).
  unfold ids, objs in Hnd.
  destruct (update_fold_progress w0 "sink" (sink_list wa) [] _ wa
              (enum_inv_start _ _ Ha) Hfat) as (st1 & w1 & E1).
  { rewrite Hsl. rewrite fmap_app in Hnd. apply NoDup_app in Hnd as (Hnd & _).
    by rewrite app_nil_l. }
  rewrite E1.
  apply (update_fold w0 _ _ [] _ _ _ _ (enum_inv_start _ _ Ha)) in E1.
  assert (He1 : env w1 = env w0) by (by destruct E1 as ((?&_)&_)).
  rewrite He1, Hpe.
  set (wb := set_pulse_calls (pulse_calls w1 ++ [SinkInputList]) w1).
  assert (Hb : enum_inv w0 ([] ++ ((λ o, ("sink", o)) <$> sink_list wa)) st1 wb).
  { eapply enum_inv_admin_r; [exact E1|]. by repeat split. }
  assert (Hsi : sink_input_list wb = sink_input_list w0).
  { by destruct Hb as ((_&_&_&_&_&_&?)&_). }
  apply (update_fold_progress w0 "stream" (sink_input_list wb) _ _ wb Hb Hfat).
  by rewrite Hsi, Hsl, app_nil_l.
Qed.

Lemma update_wakeup_progress {A} (body : M A) (w : World) :
  _pulse_hold w = false → poller_answers w →
  ∃ w1, admin_eq w w1 ∧
        update_wakeup body w =
          match body w1 with
          | (Blocked, w2) => (Blocked, w2)
          | (r, w2) => (r, release w2)
          end.
Proof.
  intros Hhold (j & Hj & Hy). rewrite update_wakeup_unfold.
  destruct (scope_bounded 166 loop_interval_default body w Hhold)
    as (k & w1 & _ & Hm & _ & _ & _ & [(_ & Hno & _)|(_ & _ & _ & _ & Hr)]).
  - rewrite (Hno j Hj) in Hy. discriminate Hy.
  - exists w1. split; [|exact Hr].
    destruct Hm as (?&?&?&?&?&?&?&_&_&?&?&_). by repeat split.
Qed.

Lemma apply_new_loop_plain (l : list string) (w : World) :
  default [] (stream_params (conf w)) = [] →
  (∀ k, k ∈ l → k ∈ (item_objs w).*1) →
  for_each l apply_new w = (Ok tt, w).
Proof.
  intros Hsp Hl. induction l as [|k l IH]; simpl; [done|].
  unfold bind at 1. unfold apply_new at 1. unfold bind, get.
  destruct (od_get k (item_objs w)) as [r|] eqn:E.
  - unfold apply_stream_params, bind, get. rewrite Hsp. simpl.
    apply IH. intros k' Hk'. apply Hl. by apply list_elem_of_further.
  - apply od_get_None in E. destruct E. apply Hl, list_elem_of_here.
Qed.

Lemma update_pass_progress (w : World) :
  NoDup (item_objs w).*1 → NoDup (ids w) →
  _pulse_hold w = false → fatal w = false →
  default [] (stream_params (conf w)) = [] → poller_answers w →
  (∀ n, pulse_error (env w) n = None) →
  ∃ w', update_pass w = (Ok tt, w').
Proof.
  intros Hnd Hids Hhold Hfat Hsp Hpoll Hpe. unfold update_pass.
  unfold bind at 1. unfold modify at 1.
  unfold bind at 1. unfold get at 1.
  change (item_objs (set_update_signal false w)) with (item_objs w).
  destruct (update_wakeup_progress (enumerate (list_to_set (item_objs w).*1))
              (set_update_signal false w) Hhold Hpoll) as (w1 & Hadm1 & Hr).
  assert (Ha : admin_eq w w1).
  { eapply admin_eq_trans; [|exact Hadm1]. by repeat split. }
  destruct (enumerate_progress w w1 Ha Hfat Hids Hpe) as (st & w2 & Eenum).
  unfold bind at 1. rewrite Hr, Eenum.
  apply (enumerate_spec w w1 _ _ Ha) in Eenum.
  assert (Hinv : enum_inv w (objs w) st (release w2)).
  { eapply enum_inv_admin_r; [exact Eenum|]. by repeat split. }
  clear Eenum Ha Hadm1 Hr w1.
  pose proof (enum_inv_keys _ _ _ _ Hinv) as Hkeys.
  destruct Hinv as (Hst & _ & Hnew & Hgone & Ho & news & Hh & Hf).
  set (w3 := release w2) in *.
  unfold bind at 1.
  rewrite del_loop; [|apply NoDup_elements|]; cycle 1.
  { intros k Hk%elem_of_elements. apply Hgone in Hk as [Hk _].
    rewrite Hkeys. apply elem_of_app. by left. }
  set (w4 := set_item_objs _ w3).
  unfold bind at 1.
  rewrite apply_new_loop_plain; cycle 1.
  { destruct Hst as (_&_&Hc&_). change (conf w4) with (conf w3). by rewrite Hc. }
  { intros k Hk%elem_of_elements. apply Hnew in Hk.
    change (item_objs w4) with (filter (λ p, p.1 ∉ elements st.2) (item_objs w3)).
    apply list_elem_of_fmap in Hk as (p & -> & Hp).
    pose proof Hp as Hp'. apply list_elem_of_filter in Hp' as [Hfresh Hin].
    assert (Hk : id_of p ∈ (item_objs w3).*1).
    { rewrite Hkeys. apply elem_of_app. right. apply list_elem_of_fmap. by exists p. }
    apply list_elem_of_fmap in Hk as ([k r] & Hkr & Hin3). simpl in Hkr. subst k.
    apply list_elem_of_fmap. exists (id_of p, r). split; [done|].
    apply list_elem_of_filter. split; [|done]. simpl.
    rewrite elem_of_elements, Hgone. tauto. }
  unfold bind at 1. unfold sort_sinks_first.
  destruct (split_kinds w4 (item_objs w4) [] [] true) as [[S T] []];
    unfold rebuild_items, modify; eauto.
Qed.

(** X18 (when a pass goes through).  From a state that the menu can
    reach, with [_pulse_hold] free, [fatal] off, no stream sections, a
    listener that gives the lock up at one of the 166 attempts and a client
    whose calls do not fail, a pass of [update] ends normally exactly when
    the ids that the server enumerates are distinct; distinct indexes among
    the sinks and among the sink inputs are enough for that. *)
Theorem update_pass_completes (w : World) :
  reachable w → _pulse_hold w = false → fatal w = false →
  default [] (stream_params (conf w)) = [] →
  (∃ j, j < 166 ∧ poller_yields (env w) (acquires w + j) = true) →
  (∀ n, pulse_error (env w) n = None) →
  ((∃ w', update_pass w = (Ok tt, w')) ↔ NoDup (ids w)) ∧
  (NoDup (index <$> sink_list w) → NoDup (index <$> sink_input_list w) →
   ∃ w', update_pass w = (Ok tt, w')).
Proof.
  intros Hok%reachable_menu_ok Hhold Hfat Hsp Hpoll Hpe.
  pose proof (ok_nodup w Hok) as Hnd.
  assert (Hp : NoDup (ids w) → ∃ w', update_pass w = (Ok tt, w')).
  { intros Hids. by apply update_pass_progress. }
  split; [split|].
  - intros (w' & Hrun). by destruct (update_pass_spec w w' Hnd Hrun) as (Hids & _).
  - exact Hp.
  - intros Hs Hi. apply Hp. by apply ids_NoDup.
Qed.

Lemma update_pass_completes_witness :
  reachable ex_changed ∧ _pulse_hold ex_changed = false ∧ fatal ex_changed = false ∧
  default [] (stream_params (conf ex_changed)) = [] ∧
  (∃ j, j < 166 ∧ poller_yields (env ex_changed) (acquires ex_changed + j) = true) ∧
  (∀ n, pulse_error (env ex_changed) n = None) ∧
  ((∃ w', update_pass ex_changed = (Ok tt, w')) ↔ NoDup (ids ex_changed)).
Proof.
  assert (H1 : _pulse_hold ex_changed = false) by (vm_compute; reflexivity).
  assert (H2 : fatal ex_changed = false) by (vm_compute; reflexivity).
  assert (H3 : default [] (stream_params (conf ex_changed)) = [])
    by (vm_compute; reflexivity).
  assert (H4 : ∃ j, j < 166 ∧
                 poller_yields (env ex_changed) (acquires ex_changed + j) = true).
  { exists 0. split; [lia|]. vm_compute. reflexivity. }
  assert (H5 : ∀ n, pulse_error (env ex_changed) n = None) by reflexivity.
  split; [exact ex_changed_reachable|]. split; [exact H1|]. split; [exact H2|].
  split; [exact H3|]. split; [exact H4|]. split; [exact H5|].
  exact (proj1 (update_pass_completes ex_changed ex_changed_reachable H1 H2 H3 H4 H5)).
Defined.



(** * Ids listed twice *)

Lemma update_obj_repeat (w0 : World) done st w obj_t o :
  enum_inv w0 done st w →
  id_of (obj_t, o) ∈ id_of <$> done →
  update_obj obj_t st o w = (Raise (KeyError (id_of (obj_t, o))), w).
Proof.
  intros Hinv Hin. pose proof (enum_inv_keys _ _ _ _ Hinv) as Hkeys.
  destruct Hinv as (Hst & Hnd & Hn & Hgone & Ho & news & Hh & Hf).
  unfold update_obj, bind, get.
  change (obj_id_of obj_t o) with (id_of (obj_t, o)).
  set (x := id_of (obj_t, o)) in *.
  assert (Hmem : od_mem x (item_objs w) = true).
  { apply od_mem_true. rewrite Hkeys, elem_of_app.
    destruct (decide (x ∈ (item_objs w0).*1)) as [HK|HK]; [by left|right].
    apply list_elem_of_fmap in Hin as (p & Hp & Hin).
    apply list_elem_of_fmap. exists p. split; [done|].
    apply list_elem_of_filter. split; [|done]. by rewrite <- Hp. }
  rewrite Hmem. rewrite bool_decide_eq_false_2; [done|].
  rewrite Hgone. tauto.
Qed.

Lemma update_fold_cases (w0 : World) obj_t os done st w :
  enum_inv w0 done st w → fatal w0 = false →
  (∃ st' w', fold_m os st (update_obj obj_t) w = (Ok st', w'))
  ∨ (∃ pre o post w',
       os = pre ++ o :: post ∧
       NoDup (id_of <$> (done ++ ((λ o, (obj_t, o)) <$> pre))) ∧
       id_of (obj_t, o) ∈ id_of <$> (done ++ ((λ o, (obj_t, o)) <$> pre)) ∧
       fold_m os st (update_obj obj_t) w = (Raise (KeyError (id_of (obj_t, o))), w')).
Proof.
  revert done st w. induction os as [|o os IH]; intros done st w Hinv Hfat; simpl.
  - left. unfold ret. eauto.
  - destruct (decide (id_of (obj_t, o) ∈ id_of <$> done)) as [Hin|Hnew].
    + right. exists [], o, os, w. split; [done|].
      rewrite fmap_nil, app_nil_r.
      split; [by destruct Hinv as (_ & Hnd & _)|]. split; [done|].
      unfold bind. by rewrite (update_obj_repeat w0 done st w obj_t o Hinv Hin).
    + destruct (update_obj_progress w0 done st w obj_t o Hinv Hfat Hnew)
        as (st1 & w1 & E).
      unfold bind. rewrite E.
      pose proof (update_obj_step _ _ _ _ _ _ _ _ Hinv E) as Hinv1.
      destruct (IH _ _ _ Hinv1 Hfat)
        as [(st' & w' & ->)|(pre & o' & post & w' & -> & Hnd & Hin & ->)].
      * left. eauto.
      * right. exists (o :: pre), o', post, w'. split; [done|].
        rewrite fmap_cons. rewrite <- app_assoc in Hnd, Hin. by split.
Qed.

Lemma enumerate_cases (w0 w : World) :
  admin_eq w0 w → fatal w0 = false →
  (∀ n, pulse_error (env w0) n = None) →
  (∃ st' w', enumerate (list_to_set (item_objs w0).*1) w = (Ok st', w'))
  ∨ (∃ pre p post w',
       objs w0 = pre ++ p :: post ∧ NoDup (id_of <$> pre) ∧
       id_of p ∈ id_of <$> pre ∧
       enumerate (list_to_set (item_objs w0).*1) w = (Raise (KeyError (id_of p)), w')).
Proof.
  intros Hadm Hfat Hpe. unfold enumerate, bind, pulse_call_, get.
  assert (He : env w = env w0) by (by destruct Hadm as (?&_)).
  rewrite He, Hpe.
  set (wa := set_pulse_calls (pulse_calls w ++ [SinkList]) w).
  assert (Ha : admin_eq w0 wa).
  { eapply admin_eq_trans; [exact Hadm|]. by repeat split. }
  assert (Hsl : sink_list wa = sink_list w0) by (by destruct Ha as (_&_&_&_&_&_&_&?&_)).
  destruct (update_fold_cases w0 "sink" (sink_list wa) [] _ wa
              (enum_inv_start _ _ Ha) Hfat)
    as [(st1 & w1 & E1)|(pre & o & post & w' & Hos & Hnd & Hin & ->)].
  - rewrite E1.
    apply (update_fold w0 _ _ [] _ _ _ _ (enum_inv_start _ _ Ha)) in E1.
    assert (He1 : env w1 = env w0) by (by destruct E1 as ((?&_)&_)).
    rewrite He1, Hpe.
    set (wb := set_pulse_calls (pulse_calls w1 ++ [SinkInputList]) w1).
    assert (Hb : enum_inv w0 ([] ++ ((λ o, ("sink", o)) <$> sink_list wa)) st1 wb).
    { eapply enum_inv_admin_r; [exact E1|]. by repeat split. }
    assert (Hsi : sink_input_list wb = sink_input_list w0).
    { by destruct Hb as ((_&_&_&_&_&_&?)&_). }
    destruct (update_fold_cases w0 "stream" (sink_input_list wb) _ _ wb Hb Hfat)
      as [(st2 & w2 & ->)|(pre & o & post & w' & Hos & Hnd & Hin & ->)].
    + left. eauto.
    + right.
      exists (((λ o, ("sink", o)) <$> sink_list w0) ++ ((λ o, ("stream", o)) <$> pre)),
        ("stream", o), ((λ o, ("stream", o)) <$> post), w'.
      rewrite app_nil_l, Hsl in Hnd, Hin.
      split; [|split; [done|split; [done|done]]].
      unfold objs. rewrite <- Hsi, Hos, fmap_app, fmap_cons. by rewrite <- app_assoc.
  - right.
    exists ((λ o, ("sink", o)) <$> pre), ("sink", o),
      (((λ o, ("sink", o)) <$> post) ++ ((λ o, ("stream", o)) <$> sink_input_list w0)), w'.
    rewrite app_nil_l in Hnd, Hin.
    split; [|split; [done|split; [done|done]]].
    unfold objs. rewrite <- Hsl, Hos, fmap_app, fmap_cons. by rewrite <- app_assoc.
Qed.

(** X19 (an id enumerated twice).  With [_pulse_hold] free, [fatal] off,
    a listener that gives the lock up and a client whose calls do not fail,
    a pass on an enumeration with a repeated id raises [KeyError] with the
    id, at the first object whose id has occurred before it: the objects
    before it have distinct ids. *)
Theorem duplicate_id_raises (w : World) :
  _pulse_hold w = false → fatal w = false →
  (∃ j, j < 166 ∧ poller_yields (env w) (acquires w + j) = true) →
  (∀ n, pulse_error (env w) n = None) →
  ¬ NoDup (ids w) →
  ∃ pre p post,
    objs w = pre ++ p :: post ∧
    NoDup (id_of <$> pre) ∧ id_of p ∈ id_of <$> pre ∧
    (update_pass w).1 = Raise (KeyError (id_of p)).
Proof.
  intros Hhold Hfat Hpoll Hpe Hdup. unfold update_pass.
  unfold bind at 1. unfold modify at 1.
  unfold bind at 1. unfold get at 1.
  change (item_objs (set_update_signal false w)) with (item_objs w).
  destruct (update_wakeup_progress (enumerate (list_to_set (item_objs w).*1))
              (set_update_signal false w) Hhold Hpoll) as (w1 & Hadm1 & Hr).
  assert (Ha : admin_eq w w1).
  { eapply admin_eq_trans; [|exact Hadm1]. by repeat split. }
  unfold bind at 1. rewrite Hr. clear Hr.
  destruct (enumerate_cases w w1 Ha Hfat Hpe)
    as [(st & w2 & E)|(pre & p & post & w' & Hobjs & Hnd & Hin & E)].
  - apply (enumerate_spec w w1 _ _ Ha) in E.
    destruct E as (_ & Hnd & _). by destruct Hdup.
  - exists pre, p, post. split; [exact Hobjs|]. split; [exact Hnd|].
    split; [exact Hin|]. by rewrite E.
Qed.

Lemma duplicate_id_raises_witness :
  _pulse_hold ex_twice = false ∧ fatal ex_twice = false ∧
  (∃ j, j < 166 ∧ poller_yields (env ex_twice) (acquires ex_twice + j) = true) ∧
  (∀ n, pulse_error (env ex_twice) n = None) ∧
  ¬ NoDup (ids ex_twice) ∧
  ∃ pre p post,
    objs ex_twice = pre ++ p :: post ∧
    NoDup (id_of <$> pre) ∧ id_of p ∈ id_of <$> pre ∧
    (update_pass ex_twice).1 = Raise (KeyError (id_of p)).
Proof.
  assert (H1 : _pulse_hold ex_twice = false) by reflexivity.
  assert (H2 : fatal ex_twice = false) by reflexivity.
  assert (H3 : ∃ j, j < 166 ∧
                 poller_yields (env ex_twice) (acquires ex_twice + j) = true).
  { exists 0. split; [lia|reflexivity]. }
  assert (H4 : ¬ NoDup (ids ex_twice)).
  { intros Hnd. apply NoDup_cons in Hnd as [Hn _]. apply Hn, list_elem_of_here. }
  assert (H5 : ∀ n, pulse_error (env ex_twice) n = None) by reflexivity.
  split; [exact H1|]. split; [exact H2|]. split; [exact H3|]. split; [exact H5|].
  split; [exact H4|].
  exact (duplicate_id_raises ex_twice H1 H2 H3 H5 H4).
Defined.


Lemma with_obj_same (x : Item) : with_obj (obj x) x = x.
Proof. by destruct x. Qed.

Lemma obj_only_refl (w : World) : obj_only w w.
Proof.
  repeat split; try done. intros j x Hx. exists (obj x). by rewrite with_obj_same.
Qed.

Lemma obj_only_trans (w1 w2 w3 : World) :
  obj_only w1 w2 → obj_only w2 w3 → obj_only w1 w3.
Proof.
  intros (?&?&?&?&?&?&?&?&?&Hs1) (?&?&?&?&?&?&?&?&?&Hs2).
  repeat split; try congruence.
  intros j x Hx. destruct (Hs1 j x Hx) as (o1 & Hx1).
  destruct (Hs2 j _ Hx1) as (o2 & Hx2). exists o2. by rewrite Hx2.
Qed.

Lemma obj_only_admin (w w' : World) : admin_eq w w' → obj_only w w'.
Proof.
  intros (?&?&?&?&Hh&?&?&?&?). repeat split; try congruence.
  intros j x Hx. exists (obj x). by rewrite Hh, Hx, with_obj_same.
Qed.

Lemma set_obj_only (i : nat) (o : PulseObj) :
  preserves obj_only (set_item i (with_obj o)).
Proof.
  intros w. unfold set_item, modify. cbn [snd].
  repeat split; try done.
  - cbn [heap set_heap]. by rewrite length_alter.
  - intros j x Hx. cbn [heap set_heap].
    destruct (decide (j = i)) as [->|Hne].
    + exists o. by rewrite list_lookup_alter_eq, Hx.
    + exists (obj x). by rewrite list_lookup_alter_ne, Hx, with_obj_same.
Qed.

Lemma volume_set_obj_only (i : nat) (v : Q) : preserves obj_only (volume_set i v).
Proof.
  unfold volume_set.
  apply (preserves_bind _ obj_only_trans); [apply (preserves_get _ obj_only_refl)|].
  intros c.
  apply (preserves_bind _ obj_only_trans);
    [apply (preserves_log_debug _ obj_only_admin)|]. intros _.
  apply (preserves_update_wakeup _ obj_only_refl obj_only_trans obj_only_admin).
  unfold volume_set_all_chans.
  apply (preserves_bind _ obj_only_trans); [apply (preserves_get _ obj_only_refl)|].
  intros o.
  apply (preserves_bind _ obj_only_trans);
    [|intros _; apply (preserves_pulse_call _ obj_only_admin)].
  apply set_obj_only.
Qed.

Lemma muted_set_obj_only (i : nat) (b : bool) : preserves obj_only (muted_set i b).
Proof.
  unfold muted_set.
  apply (preserves_bind _ obj_only_trans); [apply (preserves_get _ obj_only_refl)|].
  intros o.
  apply (preserves_bind _ obj_only_trans); [apply set_obj_only|]. intros _.
  apply (preserves_update_wakeup _ obj_only_refl obj_only_trans obj_only_admin).
  apply (preserves_pulse_call _ obj_only_admin).
Qed.

Lemma volume_change_obj_only (i : nat) (d : Q) :
  preserves obj_only (volume_change i d).
Proof.
  unfold volume_change.
  do 4 (apply (preserves_bind _ obj_only_trans);
        [first [intros w; apply obj_only_refl
               |apply (preserves_log_debug _ obj_only_admin)]|intros ?]).
  apply volume_set_obj_only.
Qed.

Lemma muted_toggle_obj_only (i : nat) : preserves obj_only (muted_toggle i).
Proof.
  unfold muted_toggle.
  apply (preserves_bind _ obj_only_trans).
  - apply (preserves_get _ obj_only_refl).
  - intros b. apply muted_set_obj_only.
Qed.

Lemma obj_only_identity (w w' : World) (j : nat) (x : Item) :
  obj_only w w' → heap w !! j = Some x →
  ∃ x', heap w' !! j = Some x' ∧ same_identity x x'.
Proof.
  intros (_&_&_&_&_&_&_&_&_&Hs) Hx. destruct (Hs j x Hx) as (o & Ho).
  exists (with_obj o x). split; [exact Ho|]. by repeat split.
Qed.

Lemma same_identity_refl (x : Item) : same_identity x x.
Proof. by repeat split. Qed.

Lemma same_identity_trans (x y z : Item) :
  same_identity x y → same_identity y z → same_identity x z.
Proof. intros (?&?&?&?&?) (?&?&?&?&?). repeat split; congruence. Qed.

(** A refresh leaves the items it finds as they are. *)
Lemma update_pass_old (w w' : World) (j : nat) (x : Item) :
  menu_ok w → update_pass w = (Ok tt, w') →
  heap w !! j = Some x → heap w' !! j = Some x.
Proof.
  intros Hok Hrun Hx.
  destruct (update_pass_spec w w' (ok_nodup w Hok) Hrun) as (_ & _ & _ & Hold & _).
  rewrite Hold; [done|]. by eapply lookup_lt_Some.
Qed.

Lemma update_while_old (evs : list interference) (w w' : World) (j : nat) (x : Item) :
  menu_ok w → update_while evs w = (Ok tt, w') →
  heap w !! j = Some x → heap w' !! j = Some x.
Proof.
  revert w. induction evs as [|ev evs IH]; intros w Hok; cbn [update_while].
  - unfold bind. destruct (update_pass w) as [[[]|e|] w1] eqn:E; [|done..].
    intros [= <-]. by eapply update_pass_old.
  - unfold bind at 1. destruct (update_pass w) as [[[]|e|] w1] eqn:E; [|done..].
    intros Hrun Hx. pose proof (update_pass_old w w1 j x Hok E Hx) as Hx1.
    apply (update_pass_menu_ok _ _ Hok) in E.
    revert Hrun.
    unfold bind, interfere, bind, modify, update_wakeup_handler, modify, get, ret.
    destruct (wakeup ev); cbn.
    + intros Hrun. eapply IH; [|exact Hrun|exact Hx1]. by apply (menu_ok_ext w1).
    + destruct (_update_signal w1).
      * intros Hrun. eapply IH; [|exact Hrun|exact Hx1]. by apply (menu_ok_ext w1).
      * by intros [= <-].
Qed.

Lemma update_old (evs : list interference) (w w' : World) (j : nat) (x : Item) :
  menu_ok w → update evs w = (Ok tt, w') →
  heap w !! j = Some x → heap w' !! j = Some x.
Proof.
  intros Hok. unfold update, bind, modify.
  destruct (update_while evs _) as [[[]|e|] w1] eqn:E; [|done..].
  intros [= <-] Hx. cbn [heap set_update_lock].
  eapply update_while_old; [|exact E|exact Hx]. by apply (menu_ok_ext w).
Qed.

Lemma step_identity (w w' : World) (j : nat) (x : Item) :
  menu_ok w → step w w' → heap w !! j = Some x →
  ∃ x', heap w' !! j = Some x' ∧ same_identity x x'.
Proof.
  intros Hok Hstep Hx.
  destruct Hstep as [evs w w' Hup|s i w|i v w|i d w|i b w|i w].
  - exists x. split; [by eapply update_old|apply same_identity_refl].
  - exists x. split; [done|apply same_identity_refl].
  - eapply obj_only_identity; [apply volume_set_obj_only|done].
  - eapply obj_only_identity; [apply volume_change_obj_only|done].
  - eapply obj_only_identity; [apply muted_set_obj_only|done].
  - eapply obj_only_identity; [apply muted_toggle_obj_only|done].
Qed.

(** X20 (what stays of an item).  From a state that the menu can reach,
    through any number of refreshes, server changes and volume or mute
    actions, an item stays at its reference and keeps its kind, its id,
    its [hidden] flag, its creation time and its name. *)
Theorem item_identity_fixed (w w' : World) (j : nat) (x : Item) :
  reachable w → rtc step w w' → heap w !! j = Some x →
  ∃ x', heap w' !! j = Some x' ∧
        t x' = t x ∧ uid x' = uid x ∧ hidden x' = hidden x ∧
        created_ts x' = created_ts x ∧ name x' = name x.
Proof.
  intros Hok%reachable_menu_ok Hrtc Hx.
  assert (H : menu_ok w' ∧ ∃ x', heap w' !! j = Some x' ∧ same_identity x x').
  { revert w' Hrtc.
    apply (rtc_ind_r (λ w', menu_ok w' ∧
                            ∃ x', heap w' !! j = Some x' ∧ same_identity x x')).
    - split; [done|]. exists x. split; [done|apply same_identity_refl].
    - intros w1 w2 _ Hstep (Hok1 & x1 & Hx1 & Hs1).
      split; [by eapply step_menu_ok|].
      destruct (step_identity w1 w2 j x1 Hok1 Hstep Hx1) as (x2 & Hx2 & Hs2).
      exists x2. split; [done|]. by eapply same_identity_trans. }
  destruct H as (_ & x' & Hx' & Hs). by exists x'.
Qed.

Lemma item_identity_fixed_witness :
  reachable ex_changed ∧ rtc step ex_changed ex_second ∧
  heap ex_changed !! 1 = Some (deref ex_changed 1) ∧
  ∃ x', heap ex_second !! 1 = Some x' ∧
        t x' = t (deref ex_changed 1) ∧ uid x' = uid (deref ex_changed 1) ∧
        hidden x' = hidden (deref ex_changed 1) ∧
        created_ts x' = created_ts (deref ex_changed 1) ∧
        name x' = name (deref ex_changed 1).
Proof.
  assert (H1 : rtc step ex_changed ex_second).
  { apply rtc_once. apply (step_update []). vm_compute. reflexivity. }
  assert (H2 : heap ex_changed !! 1 = Some (deref ex_changed 1))
    by (vm_compute; reflexivity).
  split; [exact ex_changed_reachable|]. split; [exact H1|]. split; [exact H2|].
  exact (item_identity_fixed ex_changed ex_second 1 (deref ex_changed 1)
           ex_changed_reachable H1 H2).
Defined.


(** * The constructor *)

Lemma str_app_not_empty (a b : string) (c : ascii) : a +:+ String c b ≠ "".
Proof. by destruct a. Qed.

(** X21 (the constructor).  When [PAMixerMenuItem(..)] returns, the heap
    has one more item, at the reference returned; the item has the kind,
    the id and the object given, is not hidden, carries the one clock
    reading that was made, and has a name that is not empty.  The
    dictionary and the visible list are as before. *)
Theorem PAMixerMenuItem_built (obj_t obj_id : string) (o : PulseObj)
    (w w' : World) (r : nat) :
  PAMixerMenuItem obj_t obj_id o w = (Ok r, w') →
  r = length (heap w) ∧
  clock_reads w' = S (clock_reads w) ∧
  item_objs w' = item_objs w ∧ items w' = items w ∧
  ∃ x, heap w' = heap w ++ [x] ∧
       t x = obj_t ∧ uid x = obj_id ∧ obj x = o ∧ hidden x = false ∧
       created_ts x = monotonic (env w) (clock_reads w) ∧
       name x ≠ "".
Proof.
  unfold PAMixerMenuItem, bind, time_monotonic, update_name, bind, _get_name, get, modify, ret.
  cbn [env conf seeds fatal set_clock_reads].
  destruct (name_descriptive _ _ _ _ _) as [[e|nm] s].
  - destruct (fatal w) eqn:Hf; [done|].
    unfold bind, log_info, modify, _get_name_unique. cbn.
    case_bool_decide as En; cbn.
    { by apply str_app_not_empty in En. }
    destruct (dump_stream_params (conf w)); cbn; intros [= <- <-]; cbn;
      (split; [done|]); (split; [done|]); (split; [done|]); (split; [done|]);
      eexists; (split; [done|]); by repeat split.
  - cbn. case_bool_decide as En; cbn; unfold _get_name_unique; cbn;
      destruct (dump_stream_params (conf w)); cbn; intros [= <- <-]; cbn;
      (split; [done|]); (split; [done|]); (split; [done|]); (split; [done|]);
      eexists; (split; [done|]); by repeat split.
Qed.

Lemma PAMixerMenuItem_built_witness :
  ∃ w', PAMixerMenuItem "sink" "sink-1" ex_headset ex_start = (Ok 0, w') ∧
        0 = length (heap ex_start).
Proof.
  eexists. split; [vm_compute; reflexivity|].
  refine (proj1 (PAMixerMenuItem_built "sink" "sink-1" ex_headset ex_start _ 0 _)).
  vm_compute. reflexivity.
Defined.

(** * Rounding *)

Lemma py_round_floor (x : Q) :
  (Qfloor x ≤ py_round x ≤ Qfloor x + 1)%Z ∧
  (py_round x = (Qfloor x + 1)%Z → (inject_Z (Qfloor x) < x)%Q).
Proof.
  unfold py_round. destruct (Qcompare_spec (x - inject_Z (Qfloor x)) (1 # 2)) as [H|H|H].
  - destruct (Z.even (Qfloor x)); (split; [lia|]); intros _; lra.
  - split; [lia|]. intros ?; lia.
  - split; [lia|]. intros _. lra.
Qed.

Lemma py_round_bounds (x : Q) (n : Z) :
  (0 <= x)%Q → (x <= inject_Z n)%Q → (0 ≤ py_round x ≤ n)%Z.
Proof.
  intros H0 Hn. destruct (py_round_floor x) as [[Hlo Hhi] Hup].
  assert (Hf0 : (0 ≤ Qfloor x)%Z).
  { change 0%Z with (Qfloor 0). by apply Qfloor_resp_le. }
  split; [lia|].
  destruct (decide (py_round x = (Qfloor x + 1)%Z)) as [E|E]; [|].
  - specialize (Hup E). rewrite E.
    assert (Hlt : (inject_Z (Qfloor x) < inject_Z n)%Q) by lra.
    rewrite <- Zlt_Qlt in Hlt. lia.
  - assert (Hfn : (Qfloor x ≤ n)%Z).
    { rewrite <- (Qfloor_Z n). by apply Qfloor_resp_le. }
    lia.
Qed.

(** * The label *)

Lemma str_repeat_length (c : string) (n : nat) :
  String.length (str_repeat c n) = n * String.length c.
Proof. induction n as [|n IH]; [done|]. simpl. by rewrite str_length_app, IH. Qed.

Lemma rjust_length (width : nat) (s : string) :
  String.length (rjust width s) = Nat.max width (String.length s).
Proof.
  unfold rjust. rewrite str_length_app, str_repeat_length. simpl. lia.
Qed.

Lemma two_digits (n : nat) :
  n < 100 → String.length (pretty (Z.of_nat n)) ≤ 2.
Proof.
  intros Hn.
  assert (H : forallb (λ k, String.length (pretty (Z.of_nat k)) <=? 2) (seq 0 100) = true)
    by (vm_compute; reflexivity).
  rewrite forallb_forall in H. apply Nat.leb_le, H, in_seq. lia.
Qed.

Lemma level_text_length (volume : Q) : String.length (level_text volume) = 2.
Proof.
  unfold level_text.
  set (level := Z.max 0 (Z.min 100 (py_round (volume * 100)))).
  destruct (level =? 0)%Z eqn:E0; [done|].
  destruct (level =? 100)%Z eqn:E1; [done|].
  apply Z.eqb_neq in E0, E1. rewrite rjust_length.
  assert (Hl : (0 < level < 100)%Z) by lia.
  rewrite <- (Z2Nat.id level) by lia.
  pose proof (two_digits (Z.to_nat level)). lia.
Qed.

Lemma with_level_length (volume : Q) (name : string) :
  str_len (with_level volume name) = (level_len + str_len name)%Z.
Proof.
  unfold with_level, str_len, level_len.
  rewrite !str_length_app, level_text_length. simpl. lia.
Qed.

(** X22 (the level of a label).  Whatever the volume, the text between
    the brackets has two characters, so the label is five characters longer
    than the name. *)
Theorem level_text_width (volume : Q) (name : string) :
  String.length (level_text volume) = 2 ∧
  str_len (with_level volume name) = (level_len + str_len name)%Z.
Proof. split; [apply level_text_length|apply with_level_length]. Qed.

(** * The bar *)

(** X23 (the bar).  For a volume from 0 to 1 and a bar of [bar_len] cells,
    the number of filled cells is between 0 and [bar_len], and the text is
    the opening cap, the filled cells, the empty cells and the closing cap:
    [bar_len] characters and the five of the caps. *)
Theorem bar_text_width (volume : Q) (bar_len : Z) :
  (0 <= volume <= 1)%Q → (0 ≤ bar_len)%Z →
  let bar_fill := py_round (volume * inject_Z bar_len) in
  (0 ≤ bar_fill ≤ bar_len)%Z ∧
  bar_text volume bar_len
  = " [ " +:+ (str_repeat "#" (Z.to_nat bar_fill)
               +:+ str_repeat "-" (Z.to_nat (bar_len - bar_fill))) +:+ " ]" ∧
  str_len (bar_text volume bar_len) = (bar_len + str_len (bar_caps_func ""))%Z.
Proof.
  intros [Hv0 Hv1] Hb. cbn zeta.
  assert (Hb' : (0 <= inject_Z bar_len)%Q).
  { change 0%Q with (inject_Z 0). by rewrite <- Zle_Qle. }
  assert (Hf : (0 ≤ py_round (volume * inject_Z bar_len) ≤ bar_len)%Z).
  { apply py_round_bounds; nra. }
  split; [exact Hf|]. split; [reflexivity|].
  unfold bar_text, bar_caps_func, str_len.
  rewrite !str_length_app, !str_repeat_length. simpl. lia.
Qed.

Lemma bar_text_width_witness :
  (0 <= 1 # 2 <= 1)%Q ∧ (0 ≤ 10)%Z ∧
  str_len (bar_text (1 # 2) 10) = (10 + str_len (bar_caps_func ""))%Z.
Proof.
  assert (H1 : (0 <= 1 # 2 <= 1)%Q) by (split; discriminate).
  assert (H2 : (0 ≤ 10)%Z) by lia.
  split; [exact H1|]. split; [exact H2|].
  exact (proj2 (proj2 (bar_text_width (1 # 2) 10 H1 H2))).
Defined.

(** * Cutting a name *)

Lemma str_take_drop (n : nat) (s : string) : str_take n s +:+ str_drop n s = s.
Proof.
  revert s. induction n as [|n IH]; intros [|c s]; cbn [str_take str_drop];
    rewrite ?str_app_nil_l, ?str_app_cons, ?IH; done.
Qed.

Lemma str_take_length (n : nat) (s : string) :
  String.length (str_take n s) = Nat.min n (String.length s).
Proof.
  revert s. induction n as [|n IH]; intros [|c s]; simpl; try done.
  by rewrite IH.
Qed.

Lemma str_drop_length (n : nat) (s : string) :
  String.length (str_drop n s) = String.length s - n.
Proof.
  revert s. induction n as [|n IH]; intros [|c s]; simpl; try done.
Qed.

Lemma str_take_all (n : nat) (s : string) :
  String.length s ≤ n → str_take n s = s.
Proof.
  revert s. induction n as [|n IH]; intros [|c s]; simpl; try done; [lia|].
  intros Hl. rewrite IH; [done|lia].
Qed.

(** X24 (cutting a name).  [name_cut_funcs] has the two entries [left]
    and [right].  For a length [c] that is not negative the result has
    [min(len(n), c)] characters, is the whole name when the name is short
    enough, and is an end of the name for [left] and a beginning of it for
    [right].  For a negative [c], [left] gives the empty string and [right]
    keeps [max(0, len(n) + c)] characters. *)
Theorem name_cut_width (side : string) (f : string → Z → string) (n : string) (c : Z) :
  name_cut_funcs side = Some f →
  (side = "left" ∨ side = "right") ∧
  ((0 ≤ c)%Z →
     str_len (f n c) = Z.min (str_len n) c ∧
     ((str_len n ≤ c)%Z → f n c = n) ∧
     (side = "left" → ∃ p, n = p +:+ f n c) ∧
     (side = "right" → ∃ q, n = f n c +:+ q)) ∧
  ((c < 0)%Z →
     (side = "left" → f n c = "") ∧
     (side = "right" → str_len (f n c) = Z.max 0 (str_len n + c))).
Proof.
  unfold name_cut_funcs, str_len.
  case_bool_decide as El; [|case_bool_decide as Er; [|done]]; intros [= <-].
  - split; [by left|]. split.
    + intros Hc. split; [|split; [|split]].
      * rewrite str_drop_length. lia.
      * intros Hl. replace (Z.to_nat _) with 0 by lia. done.
      * intros _. eexists. symmetry. apply str_take_drop.
      * subst. done.
    + intros Hc. split; [|subst; done]. intros _.
      assert (Hd : String.length
                (str_drop (Z.to_nat (Z.max 0 (Z.of_nat (String.length n) - c))) n) = 0).
      { rewrite str_drop_length. lia. }
      by destruct (str_drop _ n).
  - split; [by right|]. split.
    + intros Hc. rewrite (proj2 (Z.leb_le 0 c) Hc). split; [|split; [|split]].
      * rewrite str_take_length. lia.
      * intros Hl. apply str_take_all. lia.
      * subst. done.
      * intros _. eexists. symmetry. apply str_take_drop.
    + intros Hc. rewrite (proj2 (Z.leb_gt 0 c) Hc). split; [subst; done|].
      intros _. rewrite str_take_length. lia.
Qed.

Lemma name_cut_width_witness :
  ∃ f, name_cut_funcs "left" = Some f ∧
       str_len (f "speakers" 5%Z) = Z.min (str_len "speakers") 5.
Proof.
  eexists. split; [reflexivity|].
  refine (proj1 (proj1 (proj2 (name_cut_width "left" _ "speakers" 5%Z eq_refl)) _)).
  lia.
Defined.


Lemma volume_zero_max_witness :
  (max_volume (conf ex_zero) == 0)%Q ∧
  volume 0 ex_zero = (Raise ZeroDivisionError, ex_zero).
Proof.
  assert (H : (max_volume (conf ex_zero) == 0)%Q) by (vm_compute; reflexivity).
  split; [exact H|]. exact (proj1 (volume_zero_max ex_zero 0 0 H)).
Defined.


(** * The widths of a row *)

Lemma py_max_ge (x : Z) (l : list Z) : (x ≤ foldl Z.max x l)%Z.
Proof.
  revert x. induction l as [|y l IH]; intros x; simpl; [lia|].
  specialize (IH (Z.max x y)). lia.
Qed.

Lemma py_max_nonneg (len_name : nat → Z) (l : list nat) (m : Z) :
  (∀ i, 0 ≤ len_name i)%Z → py_max (len_name <$> l) = Ok m → (0 ≤ m)%Z.
Proof.
  intros Hn. destruct l as [|i l]; [done|]. rewrite fmap_cons. cbn [py_max].
  intros [= <-].
  pose proof (py_max_ge (len_name i) (len_name <$> l)). specialize (Hn i). lia.
Qed.

(** X25 (the widths of a row).  Whenever the horizontal fit yields
    widths: with a bar of at least one cell, the label, the mute mark, the
    caps and the bar fill the width of the window exactly, and a bar
    shorter than ten cells goes with a label of at least ten columns; a
    window of 27 columns or more has a bar of at least ten cells; and
    without room for a bar, a window of ten columns or more is given to
    the label. *)
Theorem fit_width_fills (dc : DrawConf) (win_len : Z) (len_name : nat → Z)
    (items items' : Iterable nat) (item_len_max bar_len : Z) :
  fit_width dc win_len len_name items = (Ok (item_len_max, bar_len), items') →
  ((0 < bar_len)%Z →
     (item_len_max + mute_button_len + str_len (bar_caps_func "") + bar_len
      = win_len)%Z ∧
     (bar_len < bar_len_min → item_len_min ≤ item_len_max)%Z) ∧
  ((27 ≤ win_len)%Z → (bar_len_min ≤ bar_len)%Z) ∧
  ((bar_len ≤ 0)%Z → (item_len_min ≤ win_len)%Z → item_len_max = win_len).
Proof.
  unfold fit_width, item_len_min, bar_len_min, mute_button_len, level_len.
  change (str_len (bar_caps_func "")) with 5%Z.
  destruct (iterate items) as [l its].
  destruct (py_max (len_name <$> l)) as [m|e|]; [|done..].
  set (a0 := if name_show_level dc then (m + 5)%Z else m).
  set (a := if (name_len_max dc =? 0)%Z then a0 else Z.min a0 (name_len_max dc)).
  destruct (win_len - a - 2 - 5 <? 10)%Z eqn:E.
  - apply Z.ltb_lt in E.
    set (a1 := Z.max 10 (a + (win_len - a - 2 - 5) - 10)).
    destruct (win_len - a1 - 2 - 5 <=? 0)%Z eqn:E1.
    + apply Z.leb_le in E1.
      destruct (win_len <? 10)%Z eqn:E2; [apply Z.ltb_lt in E2|apply Z.ltb_ge in E2].
      * destruct (iterate its) as [l' its'].
        destruct (py_max (len_name <$> l')) as [m'|e|]; [|done..].
        intros [= <- <- <-]. split; [lia|]. split; lia.
      * intros [= <- <- <-]. split; [lia|]. split; lia.
    + apply Z.leb_gt in E1.
      assert (E2 : (a1 <? 10)%Z = false) by (apply Z.ltb_ge; lia).
      rewrite E2. intros [= <- <- <-]. split; [lia|]. split; lia.
  - apply Z.ltb_ge in E. intros [= <- <- <-]. split; [lia|]. split; lia.
Qed.

Lemma fit_width_fills_witness :
  fit_width DrawConf_default 78 (λ _, 20%Z) (PyList [0; 1])
  = (Ok (25%Z, 46%Z), PyList [0; 1]) ∧
  (25 + mute_button_len + str_len (bar_caps_func "") + 46 = 78)%Z.
Proof.
  assert (H : fit_width DrawConf_default 78 (λ _, 20%Z) (PyList [0; 1])
              = (Ok (25%Z, 46%Z), PyList [0; 1])) by reflexivity.
  split; [exact H|].
  refine (proj1 (proj1 (fit_width_fills _ _ _ _ _ _ _ H) _)). lia.
Defined.


(** * The vertical fit *)

Lemma fit_for_keeps (win_rows : Z) (items : list nat) (ps : list Z)
    (m m' : gmap Z nat) (b : bool) (k : Z) :
  fit_for win_rows items ps m = (b, m') → is_Some (m !! k) → is_Some (m' !! k).
Proof.
  revert m. induction ps as [|p ps IH]; intros m; cbn [fit_for].
  - by intros [= _ <-].
  - intros Hrun Hk.
    assert (Hk' : is_Some (<[p := items !!! Z.to_nat p]> m !! k)).
    { destruct (decide (p = k)) as [->|Hne].
      - rewrite lookup_insert_eq. by eexists.
      - by rewrite lookup_insert_ne. }
    destruct (win_rows <=? _)%Z.
    + by injection Hrun as _ <-.
    + by eapply IH.
Qed.

Lemma fit_while_fuel (fuel : nat) (win_rows : Z) (items : list nat) (pos offset : Z)
    (m : gmap Z nat) (k : Z) :
  (0 ≤ pos < Z.of_nat (length items))%Z → (1 ≤ offset)%Z → 1 ≤ fuel →
  (Z.of_nat (length items) < Z.of_nat fuel + offset)%Z →
  is_Some (m !! k) →
  ∃ m', fit_while fuel win_rows items pos offset m = Some m' ∧ is_Some (m' !! k).
Proof.
  intros Hpos. revert offset m.
  induction fuel as [|fuel IH]; intros offset m Hoff Hfuel Hn Hk; [lia|].
  cbn [fit_while].
  destruct (filter _ _) as [|p ps] eqn:Eps; [by eauto|].
  destruct (fit_for win_rows items (p :: ps) m) as [stop m1] eqn:Efor.
  pose proof (fit_for_keeps _ _ _ _ _ _ k Efor Hk) as Hk1.
  destruct stop; [by eauto|].
  assert (Hin : p ∈ filter (λ p, (0 ≤ p < Z.of_nat (length items))%Z)
                     [(pos + offset)%Z; (pos - offset)%Z]).
  { rewrite Eps. apply list_elem_of_here. }
  apply list_elem_of_filter in Hin as [Hp Hin].
  assert (Hlt : (offset < Z.of_nat (length items))%Z).
  { apply elem_of_cons in Hin as [->|Hin]; [lia|].
    apply elem_of_cons in Hin as [->|Hin]; [lia|]. by apply elem_of_nil in Hin. }
  apply IH; [lia|lia|lia|done].
Qed.

Lemma sorted_by_key_nonempty (m : gmap Z nat) (k : Z) :
  is_Some (m !! k) → (sorted_by_key m).*2 ≠ [].
Proof.
  intros [x Hx] Hnil. apply fmap_nil_inv in Hnil.
  apply elem_of_map_to_list in Hx.
  assert (Hp : sorted_by_key m ≡ₚ map_to_list m) by apply merge_sort_Permutation.
  rewrite Hnil in Hp. apply Permutation_nil in Hp. rewrite Hp in Hx.
  by apply elem_of_nil in Hx.
Qed.

Lemma vertical_fit_found (win_rows : Z) (items : list nat) (h : nat) :
  h ∈ items →
  ∃ l, vertical_fit win_rows items (Some h) = Ok (PyMap l) ∧ l ≠ [].
Proof.
  intros Hin. unfold vertical_fit.
  destruct (list_find_elem_of (λ i, Some i = Some h) items h Hin eq_refl)
    as [[pos it] Hfind].
  rewrite Hfind. apply list_find_Some in Hfind as (Hpos & _ & _).
  apply lookup_lt_Some in Hpos.
  destruct (fit_while_fuel (S (length items)) win_rows items (Z.of_nat pos) 1
              {[Z.of_nat pos := it]} (Z.of_nat pos)) as (m' & -> & Hk);
    [lia|lia|lia|lia| |].
  { rewrite lookup_singleton_eq. by eexists. }
  eexists. split; [done|]. by eapply sorted_by_key_nonempty.
Qed.

Lemma vertical_fit_missing (win_rows : Z) (items : list nat) (hl : option nat) :
  hl ∉ Some <$> items →
  vertical_fit win_rows items hl = Raise (ValueError "is not in list").
Proof.
  intros Hout. unfold vertical_fit.
  destruct (list_find _ items) as [[pos it]|] eqn:Hfind; [|done].
  apply list_find_Some in Hfind as (Hpos & Heq & _).
  destruct Hout. rewrite <- Heq. apply list_elem_of_fmap.
  exists it. split; [done|]. by eapply list_elem_of_lookup_2.
Qed.

(** * The drawing in a window with too few rows *)

Lemma fit_width_exhausted (dc : DrawConf) (win_len : Z) (len_name : nat → Z)
    (l : list nat) :
  l ≠ [] → (∀ i, 0 ≤ len_name i)%Z →
  let r := fit_width dc win_len len_name (PyMap l) in
  r.2 = PyMap [] ∧
  ((item_len_min ≤ win_len)%Z → ∃ fit, r.1 = Ok fit) ∧
  ((win_len < item_len_min)%Z → (0 ≤ name_len_max dc)%Z →
   r.1 = Raise (ValueError "max() arg is an empty sequence")).
Proof.
  intros Hl Hn. unfold fit_width, item_len_min, bar_len_min, mute_button_len, level_len.
  change (str_len (bar_caps_func "")) with 5%Z. cbn [iterate].
  destruct (py_max (len_name <$> l)) as [m|e|] eqn:Em;
    [|by destruct l..].
  pose proof (py_max_nonneg _ _ _ Hn Em) as Hm.
  set (a0 := if name_show_level dc then (m + 5)%Z else m).
  assert (Ha0 : (0 ≤ a0)%Z) by (unfold a0; destruct (name_show_level dc); lia).
  set (a := if (name_len_max dc =? 0)%Z then a0 else Z.min a0 (name_len_max dc)).
  destruct (win_len - a - 2 - 5 <? 10)%Z eqn:E.
  - set (a1 := Z.max 10 (a + (win_len - a - 2 - 5) - 10)).
    destruct (win_len - a1 - 2 - 5 <=? 0)%Z eqn:E1.
    + destruct (win_len <? 10)%Z eqn:E2; cbn.
      * apply Z.ltb_lt in E2. split; [done|]. split; [lia|done].
      * apply Z.ltb_ge in E2. split; [done|]. split; [by eauto|lia].
    + apply Z.leb_gt in E1.
      assert (E2 : (a1 <? 10)%Z = false) by (apply Z.ltb_ge; lia).
      rewrite E2. cbn. split; [done|]. split; [by eauto|lia].
  - apply Z.ltb_ge in E. cbn. split; [done|]. split; [by eauto|].
    intros Hw Hmax.
    assert (0 ≤ a)%Z; [|lia].
    unfold a. destruct (name_len_max dc =? 0)%Z; lia.
Qed.

Lemma str_len_nonneg (s : string) : (0 ≤ str_len s)%Z.
Proof. unfold str_len. lia. Qed.

(** X26 (a window with fewer rows than items and one).  The vertical fit
    binds [items] to the iterator of [map], and the first [max] of the
    horizontal fit uses it up.  So nothing is written after [erase]: with
    the highlighted item in the list, the drawing returns with an empty
    window when the window has ten columns or more, and raises
    [ValueError] from the second [max] when it has fewer and
    [name_len_max] is not negative; with the highlighted item not in the
    list, [index] raises [ValueError]. *)
Theorem c_win_draw_small_window (dc : DrawConf) (size : Z * Z) (items : list nat)
    (item_hl : option nat) (w : World) (win_rows win_len pad_x pad_y : Z) :
  c_win_size size = (win_rows, win_len, pad_x, pad_y) →
  (1 < win_len)%Z → (win_rows < Z.of_nat (length items) + 1)%Z →
  let r := c_win_draw dc size items item_hl w [] in
  r.2 = [Erase] ∧
  (item_hl ∉ Some <$> items → r.1 = Raise (ValueError "is not in list")) ∧
  (item_hl ∈ Some <$> items →
     ((item_len_min ≤ win_len)%Z → r.1 = Ok tt) ∧
     ((win_len < item_len_min)%Z → (0 ≤ name_len_max dc)%Z →
      r.1 = Raise (ValueError "max() arg is an empty sequence"))).
Proof.
  intros Hsize Hlen Hrows. unfold c_win_draw, dbind, win_call_. cbn [app].
  destruct items as [|i0 items0] eqn:Eitems.
  { cbn [length] in Hrows.
    assert (1 ≤ win_rows)%Z; [|lia].
    unfold c_win_size in Hsize. injection Hsize as <- _ _ _. lia. }
  rewrite <- Eitems in *. rewrite Hsize.
  rewrite (proj2 (Z.leb_gt win_len 1) Hlen).
  rewrite (proj2 (Z.ltb_lt _ _) Hrows).
  destruct (decide (item_hl ∈ Some <$> items)) as [Hin|Hout].
  - apply list_elem_of_fmap in Hin as (h & -> & Hin).
    destruct (vertical_fit_found win_rows items h Hin) as (l & Hfit & Hl).
    unfold dlift. rewrite Hfit.
    destruct (fit_width_exhausted dc win_len (λ i, str_len (name (deref w i))) l Hl
                (λ i, str_len_nonneg _)) as (Hrest & Hwide & Hnarrow).
    destruct (fit_width dc win_len _ (PyMap l)) as [r its]. cbn [fst snd] in *.
    subst its. cbn [iterate fst].
    destruct r as [[a b]|e|]; cbn [draw_rows dret fst snd].
    + split; [done|]. split; [intros Hout; destruct Hout|intros _].
      { apply list_elem_of_fmap. by exists h. }
      split; [done|]. intros Hw Hmax. by specialize (Hnarrow Hw Hmax).
    + split; [done|]. split; [intros Hout; destruct Hout|intros _].
      { apply list_elem_of_fmap. by exists h. }
      split.
      * intros Hw. by destruct (Hwide Hw).
      * intros Hw Hmax. specialize (Hnarrow Hw Hmax). congruence.
    + split; [done|]. split; [intros Hout; destruct Hout|intros _].
      { apply list_elem_of_fmap. by exists h. }
      split.
      * intros Hw. by destruct (Hwide Hw).
      * intros Hw Hmax. specialize (Hnarrow Hw Hmax). congruence.
  - unfold dlift. rewrite (vertical_fit_missing _ _ _ Hout).
    split; [done|]. split; [done|]. intros Hin. by destruct Hout.
Qed.



Lemma c_win_draw_small_window_witness :
  c_win_size ex_low = (1, 78, 1, 1)%Z ∧ (1 < 78)%Z ∧
  (1 < Z.of_nat (length (items ex_second)) + 1)%Z ∧
  (c_win_draw DrawConf_default ex_low (items ex_second) (Some 0) ex_second []).2
  = [Erase].
Proof.
  assert (H1 : c_win_size ex_low = (1, 78, 1, 1)%Z) by reflexivity.
  assert (H2 : (1 < 78)%Z) by lia.
  assert (H3 : (1 < Z.of_nat (length (items ex_second)) + 1)%Z)
    by (vm_compute; reflexivity).
  split; [exact H1|]. split; [exact H2|]. split; [exact H3|].
  exact (proj1 (c_win_draw_small_window DrawConf_default ex_low (items ex_second)
                  (Some 0) ex_second 1 78 1 1 H1 H2 H3)).
Defined.

(** * The drawing in a window with room for every item *)

Lemma name_cut_length (side : string) (f : string → Z → string) (n : string) (c : Z) :
  name_cut_funcs side = Some f → (0 ≤ c)%Z → (str_len (f n c) ≤ c)%Z.
Proof.
  unfold name_cut_funcs, str_len.
  case_bool_decide as El; [|case_bool_decide as Er; [|done]]; intros [= <-] Hc.
  - rewrite str_drop_length. lia.
  - rewrite (proj2 (Z.leb_le 0 c) Hc), str_take_length. lia.
Qed.

Lemma bar_text_length (v : Q) (bar_len : Z) :
  (0 <= v <= 1)%Q → (0 ≤ bar_len)%Z →
  str_len (bar_text v bar_len) = (bar_len + 5)%Z.
Proof.
  intros [Hv0 Hv1] Hb.
  assert (Hb' : (0 <= inject_Z bar_len)%Q).
  { change 0%Q with (inject_Z 0). by rewrite <- Zle_Qle. }
  assert (Hf : (0 ≤ py_round (v * inject_Z bar_len) ≤ bar_len)%Z).
  { apply py_round_bounds; nra. }
  unfold bar_text, bar_caps_func, str_len.
  rewrite !str_length_app, !str_repeat_length. simpl. lia.
Qed.

Lemma item_label_ok (dc : DrawConf) (w : World) (item_len_max : Z) (item : nat)
    (cut : string → Z → string) :
  name_cut_funcs (name_cut_from dc) = Some cut → (0 < max_volume (conf w))%Q →
  item_label dc w item_len_max item = Ok (label_of dc w item_len_max item) ∧
  (((if name_show_level dc then level_len else 0) ≤ item_len_max)%Z →
   (str_len (label_of dc w item_len_max item) ≤ item_len_max)%Z).
Proof.
  intros Hcut Hmax. unfold label_of, item_label. rewrite Hcut.
  destruct (volume_Ok w item Hmax) as (q & Hq & _). rewrite Hq. cbn [fst].
  destruct (name_show_level dc).
  - split; [done|]. intros Hroom. rewrite with_level_length.
    pose proof (name_cut_length _ _ (name (deref w item)) (item_len_max - 1 * level_len)
                  Hcut) as Hlen.
    unfold level_len in *. lia.
  - split; [done|]. intros Hroom.
    pose proof (name_cut_length _ _ (name (deref w item)) (item_len_max - 0 * level_len)
                  Hcut) as Hlen.
    unfold level_len in *. lia.
Qed.

Lemma vol_of_range (w : World) (item : nat) :
  (0 < max_volume (conf w))%Q →
  (volume item w).1 = Ok (vol_of w item) ∧ (0 <= vol_of w item <= 1)%Q.
Proof.
  intros Hmax. unfold vol_of.
  destruct (volume_Ok w item Hmax) as (q & -> & Hq). by cbn [fst].
Qed.

Lemma draw_row_ok (dc : DrawConf) (w : World)
    (win_len pad_x pad_y item_len_max bar_len : Z) (hl : option nat)
    (row : Z) (item : nat) (cut : string → Z → string) (scr : list win_call) :
  name_cut_funcs (name_cut_from dc) = Some cut → (0 < max_volume (conf w))%Q →
  draw_row dc w win_len pad_x pad_y item_len_max bar_len hl row item scr
  = (Ok tt, scr ++ row_calls w win_len pad_x item_len_max bar_len hl (row + pad_y)
                     item (label_of dc w item_len_max item) (vol_of w item)).
Proof.
  intros Hcut Hmax.
  destruct (item_label_ok dc w item_len_max item cut Hcut Hmax) as [Hlabel _].
  destruct (vol_of_range w item Hmax) as [Hvol _].
  unfold draw_row, row_calls, dbind, dlift, win_call_, dret.
  rewrite Hlabel, Hvol. unfold muted, get. cbn [fst].
  destruct (item_len_max + pad_x + mute_button_len <? win_len)%Z.
  - destruct (0 <? bar_len)%Z; by rewrite <- !app_assoc.
  - by rewrite <- !app_assoc.
Qed.

Lemma draw_rows_ok (dc : DrawConf) (w : World)
    (win_rows win_len pad_x pad_y item_len_max bar_len : Z) (hl : option nat)
    (row : Z) (l : list nat) (cut : string → Z → string) (scr : list win_call) :
  name_cut_funcs (name_cut_from dc) = Some cut → (0 < max_volume (conf w))%Q →
  (row + Z.of_nat (length l) ≤ win_rows - 1)%Z →
  draw_rows dc w win_rows win_len pad_x pad_y item_len_max bar_len hl row l scr
  = (Ok tt, scr ++ rows_calls dc w win_len pad_x pad_y item_len_max bar_len hl row l).
Proof.
  intros Hcut Hmax. revert row scr.
  induction l as [|item l IH]; intros row scr Hrows; cbn [draw_rows rows_calls].
  - unfold dret. by rewrite app_nil_r.
  - cbn [length] in Hrows.
    rewrite (proj2 (Z.leb_gt (win_rows - 1) row)) by lia.
    unfold dbind. rewrite (draw_row_ok _ _ _ _ _ _ _ _ _ _ cut) by done.
    rewrite IH by lia. by rewrite <- app_assoc.
Qed.

Lemma fit_width_list (dc : DrawConf) (win_len : Z) (len_name : nat → Z)
    (l : list nat) :
  l ≠ [] →
  ∃ a b, fit_width dc win_len len_name (PyList l) = (Ok (a, b), PyList l).
Proof.
  intros Hl. unfold fit_width. cbn [iterate].
  destruct (py_max (len_name <$> l)) as [m|e|] eqn:Em; [|by destruct l..].
  repeat match goal with |- context [if ?c then _ else _] => destruct c end; eauto.
Qed.

Lemma c_win_draw_list (dc : DrawConf) (size : Z * Z) (items : list nat)
    (hl : option nat) (w : World) (win_rows win_len pad_x pad_y : Z)
    (cut : string → Z → string) :
  c_win_size size = (win_rows, win_len, pad_x, pad_y) →
  items ≠ [] → (1 < win_len)%Z → (Z.of_nat (length items) + 1 ≤ win_rows)%Z →
  name_cut_funcs (name_cut_from dc) = Some cut → (0 < max_volume (conf w))%Q →
  ∃ a b,
    fit_width dc win_len (λ i, str_len (name (deref w i))) (PyList items)
    = (Ok (a, b), PyList items) ∧
    c_win_draw dc size items hl w []
    = (Ok tt, Erase :: rows_calls dc w win_len pad_x pad_y a b hl 0 items).
Proof.
  intros Hsize Hne Hlen Hrows Hcut Hmax.
  destruct (fit_width_list dc win_len (λ i, str_len (name (deref w i))) items Hne)
    as (a & b & Hfit).
  exists a, b. split; [exact Hfit|].
  unfold c_win_draw, dbind, win_call_, dlift, dret. cbn [app].
  destruct items as [|i0 items0] eqn:Eitems; [done|]. rewrite <- Eitems in *.
  rewrite Hsize.
  rewrite (proj2 (Z.leb_gt win_len 1) Hlen).
  rewrite (proj2 (Z.ltb_ge _ _)) by lia.
  rewrite Hfit. cbn [iterate fst].
  by rewrite (draw_rows_ok _ _ _ _ _ _ _ _ _ _ _ cut) by (done || lia).
Qed.






(** * The rows stay inside the window *)

Lemma fit_width_room (dc : DrawConf) (win_len : Z) (len_name : nat → Z)
    (l : list nat) (its : Iterable nat) (a b : Z) :
  (∀ i, 0 ≤ len_name i)%Z → (item_len_min ≤ win_len)%Z →
  (name_len_max dc = 0 ∨ level_len ≤ name_len_max dc)%Z →
  fit_width dc win_len len_name (PyList l) = (Ok (a, b), its) →
  ((if name_show_level dc then level_len else 0) ≤ a ≤ win_len)%Z ∧
  ((0 < b)%Z → (a + mute_button_len + 5 + b = win_len)%Z).
Proof.
  intros Hn Hwin Hmax.
  unfold fit_width, item_len_min, bar_len_min, mute_button_len, level_len in *.
  change (str_len (bar_caps_func "")) with 5%Z. cbn [iterate].
  destruct (py_max (len_name <$> l)) as [m|e|] eqn:Em; [|done..].
  pose proof (py_max_nonneg _ _ _ Hn Em) as Hm.
  set (a0 := if name_show_level dc then (m + 5)%Z else m).
  set (a' := if (name_len_max dc =? 0)%Z then a0 else Z.min a0 (name_len_max dc)).
  assert (Ha : ((if name_show_level dc then 5 else 0) ≤ a')%Z).
  { unfold a', a0. destruct (name_len_max dc =? 0)%Z eqn:E0;
      [|apply Z.eqb_neq in E0]; destruct (name_show_level dc); lia. }
  destruct (win_len - a' - 2 - 5 <? 10)%Z eqn:E.
  - set (a1 := Z.max 10 (a' + (win_len - a' - 2 - 5) - 10)).
    destruct (win_len - a1 - 2 - 5 <=? 0)%Z eqn:E1.
    + rewrite (proj2 (Z.ltb_ge win_len 10)) by lia.
      apply Z.leb_le in E1. intros [= <- <- _].
      destruct (name_show_level dc); lia.
    + apply Z.leb_gt in E1.
      rewrite (proj2 (Z.ltb_ge a1 10)) by lia.
      intros [= <- <- _]. destruct (name_show_level dc); lia.
  - apply Z.ltb_ge in E. intros [= <- <- _].
    destruct (name_show_level dc); lia.
Qed.

Lemma row_calls_fit (w : World) (win_len item_len_max bar_len : Z)
    (hl : option nat) (row : Z) (item : nat) (text : string) (v : Q)
    (r k : Z) (s : string) (a : option attr) :
  (str_len text ≤ item_len_max)%Z → (0 ≤ item_len_max ≤ win_len)%Z →
  ((0 < bar_len)%Z → (item_len_max + mute_button_len + 5 + bar_len = win_len)%Z) →
  (0 <= v <= 1)%Q →
  AddStr r k s a ∈ row_calls w win_len 1 item_len_max bar_len hl row item text v →
  r = row ∧ (0 ≤ k)%Z ∧ (k + str_len s ≤ win_len + 1)%Z.
Proof.
  intros Htext Hroom Hbar Hv. unfold row_calls, mute_button_len in *.
  rewrite elem_of_app, !elem_of_cons, elem_of_nil.
  intros [[E|[E|[]]]|Hrest].
  - injection E as -> -> -> _. split; [done|]. split; [lia|].
    change (str_len _) with 1%Z. lia.
  - injection E as -> -> -> _. lia.
  - destruct (item_len_max + 1 + 2 <? win_len)%Z eqn:Em;
      [apply Z.ltb_lt in Em|by apply elem_of_nil in Hrest].
    apply elem_of_cons in Hrest as [E|Hrest].
    + injection E as -> -> -> _.
      destruct (negb _); change (str_len _) with 2%Z; lia.
    + destruct (0 <? bar_len)%Z eqn:Eb;
        [apply Z.ltb_lt in Eb|by apply elem_of_nil in Hrest].
      apply list_elem_of_singleton in Hrest. injection Hrest as -> -> -> _.
      rewrite bar_text_length by (done || lia). specialize (Hbar Eb). lia.
Qed.

Lemma rows_calls_fit (dc : DrawConf) (w : World) (win_len item_len_max bar_len : Z)
    (hl : option nat) (row : Z) (l : list nat) (cut : string → Z → string)
    (r k : Z) (s : string) (a : option attr) :
  name_cut_funcs (name_cut_from dc) = Some cut → (0 < max_volume (conf w))%Q →
  ((if name_show_level dc then level_len else 0) ≤ item_len_max ≤ win_len)%Z →
  ((0 < bar_len)%Z → (item_len_max + mute_button_len + 5 + bar_len = win_len)%Z) →
  AddStr r k s a ∈ rows_calls dc w win_len 1 1 item_len_max bar_len hl row l →
  (row + 1 ≤ r ≤ row + Z.of_nat (length l))%Z ∧
  (0 ≤ k)%Z ∧ (k + str_len s ≤ win_len + 1)%Z.
Proof.
  intros Hcut Hmax Hroom Hbar. revert row.
  induction l as [|item l IH]; intros row; cbn [rows_calls length].
  - by intros ?%elem_of_nil.
  - rewrite elem_of_app. intros [Hin|Hin].
    + destruct (item_label_ok dc w item_len_max item cut Hcut Hmax) as [_ Hlen].
      destruct (vol_of_range w item Hmax) as [_ Hv].
      apply row_calls_fit in Hin as (-> & ? & ?); [lia|..|done|done].
      * apply Hlen. lia.
      * destruct (name_show_level dc); unfold level_len in *; lia.
    + apply IH in Hin. lia.
Qed.

(** X28 (the rows stay inside the window).  In a window of at least 12
    columns and at least three rows more than there are items, with
    [name_len_max] zero or at least five, a valid [name_cut_from] and a
    positive [max_volume], the drawing returns and every text it writes is
    on one of the rows 1 to [len(items)], hence above the last two rows,
    and ends before the last column. *)
Theorem c_win_draw_fits (dc : DrawConf) (rows cols : Z) (items : list nat)
    (item_hl : option nat) (w : World) (cut : string → Z → string) :
  items ≠ [] → (12 ≤ cols)%Z → (Z.of_nat (length items) + 3 ≤ rows)%Z →
  name_cut_funcs (name_cut_from dc) = Some cut →
  (name_len_max dc = 0 ∨ level_len ≤ name_len_max dc)%Z →
  (0 < max_volume (conf w))%Q →
  ∃ scr,
    c_win_draw dc (rows, cols) items item_hl w [] = (Ok tt, scr) ∧
    ∀ r k text a, AddStr r k text a ∈ scr →
      (1 ≤ r ≤ Z.of_nat (length items))%Z ∧ (r ≤ rows - 3)%Z ∧
      (0 ≤ k)%Z ∧ (k + str_len text ≤ cols - 1)%Z.
Proof.
  intros Hne Hcols Hrows Hcut Hnlm Hmax.
  assert (Hsize : c_win_size (rows, cols) = (rows - 2, cols - 2, 1, 1)%Z).
  { unfold c_win_size, border. cbn [fst snd]. repeat f_equal; lia. }
  destruct (c_win_draw_list dc (rows, cols) items item_hl w _ _ _ _ cut
              Hsize Hne) as (a & b & Hfit & Hdraw); [lia|lia|done|done|].
  eexists. split; [exact Hdraw|].
  intros r k text at_ Hin.
  apply elem_of_cons in Hin as [E|Hin]; [done|].
  destruct (fit_width_room dc (cols - 2) _ items _ a b
              (λ i, str_len_nonneg _) ltac:(unfold item_len_min; lia) Hnlm Hfit)
    as [Hroom Hbar].
  apply (rows_calls_fit _ _ _ _ _ _ _ _ cut) in Hin; [lia|done..].
Qed.

Lemma c_win_draw_fits_witness :
  items ex_second ≠ [] ∧ (12 ≤ 80)%Z ∧
  (Z.of_nat (length (items ex_second)) + 3 ≤ 24)%Z ∧
  ∃ scr,
    c_win_draw DrawConf_default (24, 80)%Z (items ex_second) (Some 0) ex_second []
    = (Ok tt, scr).
Proof.
  assert (H1 : items ex_second ≠ []) by (vm_compute; discriminate).
  assert (H2 : (12 ≤ 80)%Z) by lia.
  assert (H3 : (Z.of_nat (length (items ex_second)) + 3 ≤ 24)%Z)
    by (vm_compute; discriminate).
  assert (H4 : name_cut_funcs (name_cut_from DrawConf_default)
               = Some (fun n c => str_drop (Z.to_nat (Z.max 0 (str_len n - c))) n))
    by reflexivity.
  assert (H5 : (name_len_max DrawConf_default = 0
                ∨ level_len ≤ name_len_max DrawConf_default)%Z)
    by (right; vm_compute; discriminate).
  assert (H6 : (0 < max_volume (conf ex_second))%Q) by (vm_compute; reflexivity).
  split; [exact H1|]. split; [exact H2|]. split; [exact H3|].
  destruct (c_win_draw_fits DrawConf_default 24 80 (items ex_second) (Some 0)
              ex_second _ H1 H2 H3 H4 H5 H6) as (scr & Hdraw & _).
  exists scr. exact Hdraw.
Defined.


(** * The visible list *)

Lemma visible_inv_ext (w w' : World) :
  heap w' = heap w → item_objs w' = item_objs w → items w' = items w →
  visible_inv w → visible_inv w'.
Proof.
  unfold visible_inv, deref. intros -> -> ->. done.
Qed.

Lemma update_pass_visible (w w' : World) :
  menu_ok w → update_pass w = (Ok tt, w') → visible_inv w'.
Proof.
  intros Hok Hrun.
  by destruct (update_pass_spec w w' (ok_nodup w Hok) Hrun) as (_&_&_&_&_&_&?).
Qed.

Lemma update_while_visible (evs : list interference) (w w' : World) :
  menu_ok w → update_while evs w = (Ok tt, w') → visible_inv w'.
Proof.
  revert w. induction evs as [|ev evs IH]; intros w Hok; cbn [update_while].
  - unfold bind. destruct (update_pass w) as [[[]|e|] w1] eqn:E; [|done..].
    intros [= <-]. by eapply update_pass_visible.
  - unfold bind at 1. destruct (update_pass w) as [[[]|e|] w1] eqn:E; [|done..].
    pose proof (update_pass_visible w w1 Hok E) as Hv1.
    apply (update_pass_menu_ok _ _ Hok) in E.
    unfold bind, interfere, bind, modify, update_wakeup_handler, modify, get, ret.
    destruct (wakeup ev); cbn.
    + intros Hrun. eapply IH; [|exact Hrun]. by apply (menu_ok_ext w1).
    + destruct (_update_signal w1).
      * intros Hrun. eapply IH; [|exact Hrun]. by apply (menu_ok_ext w1).
      * intros [= <-]. by apply (visible_inv_ext w1).
Qed.

Lemma update_visible (evs : list interference) (w w' : World) :
  menu_ok w → update evs w = (Ok tt, w') → visible_inv w'.
Proof.
  intros Hok. unfold update, bind, modify.
  destruct (update_while evs _) as [[[]|e|] w1] eqn:E; [|done..].
  intros [= <-]. apply (visible_inv_ext w1); [done..|].
  eapply update_while_visible; [|exact E]. by apply (menu_ok_ext w).
Qed.

Lemma obj_only_hidden (w w' : World) (r : nat) :
  obj_only w w' → hidden (deref w' r) = hidden (deref w r).
Proof.
  intros (_&_&_&_&_&_&_&_&Hlen&Hs). unfold deref.
  rewrite !list_lookup_total_alt.
  destruct (heap w !! r) as [x|] eqn:Hx.
  - destruct (Hs r x Hx) as (o & ->). done.
  - apply lookup_ge_None in Hx. rewrite <- Hlen in Hx.
    apply lookup_ge_None in Hx. by rewrite Hx.
Qed.

Lemma obj_only_visible (w w' : World) :
  obj_only w w' → visible_inv w → visible_inv w'.
Proof.
  intros Hoo. pose proof Hoo as (_&_&_&_&_&_&Hobjs&Hitems&_).
  unfold visible_inv. rewrite Hobjs, Hitems. intros ->.
  apply list_filter_iff. intros r. by rewrite (obj_only_hidden w w' r Hoo).
Qed.

Lemma step_visible (w w' : World) :
  menu_ok w → visible_inv w → step w w' → visible_inv w'.
Proof.
  intros Hok Hv Hstep.
  destruct Hstep as [evs w w' Hup|s i w|i v w|i d w|i b w|i w].
  - by eapply update_visible.
  - by apply (visible_inv_ext w).
  - eapply obj_only_visible; [apply volume_set_obj_only|done].
  - eapply obj_only_visible; [apply volume_change_obj_only|done].
  - eapply obj_only_visible; [apply muted_set_obj_only|done].
  - eapply obj_only_visible; [apply muted_toggle_obj_only|done].
Qed.

(** X29 (the visible list).  In every state that the menu can reach,
    [items] is the list of the items of [item_objs] that are not hidden, in
    the order of the dictionary: after a refresh, and still after any
    volume or mute action. *)
Theorem visible_items_unhidden (w : World) :
  reachable w →
  items w = filter (λ r, hidden (deref w r) = false) (item_objs w).*2 ∧
  ∀ r, r ∈ items w ↔
       (∃ k, (k, r) ∈ item_objs w) ∧ hidden (deref w r) = false.
Proof.
  intros (e & c & f & s & i & Hrtc).
  assert (H : menu_ok w ∧ visible_inv w).
  { revert w Hrtc. apply (rtc_ind_r (λ w, menu_ok w ∧ visible_inv w)).
    - split; [apply menu_ok_init|done].
    - intros w1 w2 _ Hstep [Hok1 Hv1].
      split; [by eapply step_menu_ok|by eapply step_visible]. }
  destruct H as [_ Hv]. split; [exact Hv|].
  intros r. rewrite Hv, list_elem_of_filter, list_elem_of_fmap.
  split.
  - intros [Hh ([k r'] & -> & Hin)]. split; [by exists k|done].
  - intros [[k Hin] Hh]. split; [done|]. by exists (k, r).
Qed.

Lemma visible_items_unhidden_witness :
  reachable ex_second ∧
  items ex_second
  = filter (λ r, hidden (deref ex_second r) = false) (item_objs ex_second).*2.
Proof.
  split; [exact ex_second_reachable|].
  exact (proj1 (visible_items_unhidden ex_second ex_second_reachable)).
Defined.

